(** * Golomb-coded set filters (golomb/lib/golomb.js)

    A shallow embedding of the [Golomb] class of
    [node_modules/golomb/lib/golomb.js]: the build path ([fromItems]),
    the query path ([match], [matchAny], [readU64]), the four wire
    layouts and the content hash, followed by the properties the
    specification states about them. *)

From Stdlib Require Import ZArith List Lia Bool Permutation Sorted Orders Mergesort.
Import ListNotations.
Local Open Scope Z_scope.

(** ** Buffers and exceptions *)

(** A Node.js [Buffer]: a sequence of bytes, each an integer in [0, 255]. *)
Definition Buffer := list Z.

Definition is_byte (b : Z) : Prop := 0 <= b < 256.

Definition Buffer_eq_dec : forall a b : Buffer, {a = b} + {a <> b} :=
  list_eq_dec Z.eq_dec.

(** The exceptions the code raises: [new Error('EOF')] of the bit reader,
    a failed [assert], and an out-of-bounds or out-of-range buffer access. *)
Inductive exn : Type :=
| ErrEOF
| AssertionError
| RangeError.

Inductive result (A : Type) : Type :=
| Ok (a : A)
| Throw (e : exn).
Arguments Ok {A} a.
Arguments Throw {A} e.

Definition bind {A B : Type} (r : result A) (k : A -> result B) : result B :=
  match r with
  | Ok a => k a
  | Throw e => Throw e
  end.

Notation "'do' x <- r ; k" := (bind r (fun x => k))
  (at level 10, x pattern, r at level 100, k at level 200).

Definition assert (b : bool) : result unit :=
  if b then Ok tt else Throw AssertionError.

(** ** 64-bit unsigned integers (n64's [U64]) *)

(** Modelled from the spec: the [U64] class of the n64 package, which is not
    part of the sources; section 9 of the specification describes it as a
    fixed-width unsigned 64-bit integer.  Values are integers in
    [0, 2^64); every operation wraps around modulo [2^64]. *)
Module U64.

Definition modulus : Z := 2 ^ 64.

Definition wrap (x : Z) : Z := x mod modulus.

Definition fromBits (hi lo : Z) : Z := wrap (hi * 2 ^ 32 + lo).
Definition hi (a : Z) : Z := a / 2 ^ 32.
Definition lo (a : Z) : Z := a mod 2 ^ 32.

Definition add (a b : Z) : Z := wrap (a + b).
Definition sub (a b : Z) : Z := wrap (a - b).
Definition mul (a b : Z) : Z := wrap (a * b).
Definition addn (a n : Z) : Z := wrap (a + n).
Definition subn (a n : Z) : Z := wrap (a - n).

Definition shln (a bits : Z) : Z := wrap (Z.shiftl a (Z.land bits 63)).
Definition shrn (a bits : Z) : Z := Z.shiftr a (Z.land bits 63).
Definition maskn (a bit : Z) : Z := Z.land a (Z.ones bit).
Definition or (a b : Z) : Z := Z.lor a b.

Definition lt (a b : Z) : bool := a <? b.
Definition eq (a b : Z) : bool := a =? b.
Definition cmp (a b : Z) : comparison := a ?= b.
Definition isZero (a : Z) : bool := a =? 0.

End U64.

(** ** Bit streams *)

(** The eight bits of a byte, most significant first. *)
Definition bits_of_byte (b : Z) : list bool :=
  [Z.testbit b 7; Z.testbit b 6; Z.testbit b 5; Z.testbit b 4;
   Z.testbit b 3; Z.testbit b 2; Z.testbit b 1; Z.testbit b 0].

Definition bits_of_bytes (s : Buffer) : list bool := flat_map bits_of_byte s.

(** The [width] low bits of [v], most significant first. *)
Fixpoint bits_of_int (v : Z) (width : nat) : list bool :=
  match width with
  | O => []
  | S w => Z.testbit v (Z.of_nat w) :: bits_of_int v w
  end.

(** The integer whose binary digits, most significant first, are [bs],
    starting from the accumulator [acc]. *)
Fixpoint int_of_bits (acc : Z) (bs : list bool) : Z :=
  match bs with
  | [] => acc
  | b :: bs' => int_of_bits (2 * acc + Z.b2z b) bs'
  end.

(** Modelled from the spec: the [BitWriter] class of golomb/lib/writer.js,
    which is not part of the sources.  Section 4.1: [writeBit] and
    [writeBits(value, width)], [width] in [0, 64], append bits
    most-significant-bit first into a growing byte buffer; [render] returns
    the buffer, zero-padding the last partial byte. *)
Module BitWriter.

Record t : Type := mk {
  stream : Buffer;   (* the bytes completed so far *)
  acc : Z;           (* the bits of the partial byte, as a number *)
  fill : nat         (* how many bits the partial byte holds, below 8 *)
}.

Definition new : t := mk [] 0 0.

Definition writeBit (bw : t) (bit : bool) : t :=
  let acc' := 2 * acc bw + Z.b2z bit in
  if Nat.eqb (fill bw) 7
  then mk (stream bw ++ [acc']) 0 0
  else mk (stream bw) acc' (S (fill bw)).

Fixpoint writeBits (bw : t) (value : Z) (width : nat) : t :=
  match width with
  | O => bw
  | S w => writeBits (writeBit bw (Z.testbit value (Z.of_nat w))) value w
  end.

Definition writeBits64 (bw : t) (num : Z) (count : Z) : result t :=
  do _ <- assert (0 <=? count);
  do _ <- assert (count <=? 64);
  Ok (writeBits bw num (Z.to_nat count)).

Definition render (bw : t) : Buffer :=
  match fill bw with
  | O => stream bw
  | S _ => stream bw ++ [Z.shiftl (acc bw) (Z.of_nat (8 - fill bw))]
  end.

End BitWriter.

(** Modelled from the spec: the [BitReader] class of golomb/lib/reader.js,
    which is not part of the sources.  Section 4.1: [readBit] and
    [readBits(width)] over a fixed buffer, tracking a bit cursor; reading
    past the end of the buffer signals end-of-stream, which the code
    recognises as an [Error] whose message is ['EOF']. *)
Module BitReader.

Record t : Type := mk {
  stream : Buffer;
  cursor : nat       (* index of the next bit, counted from the start *)
}.

Definition new (data : Buffer) : t := mk data 0.

Definition bits_left (br : t) : nat := 8 * length (stream br) - cursor br.

Definition readBit (br : t) : result (bool * t) :=
  if Nat.ltb (cursor br) (8 * length (stream br))
  then Ok (Z.testbit (nth (Nat.div (cursor br) 8) (stream br) 0)
                     (Z.of_nat (7 - Nat.modulo (cursor br) 8)),
           mk (stream br) (S (cursor br)))
  else Throw ErrEOF.

Fixpoint readBits (br : t) (num : Z) (width : nat) : result (Z * t) :=
  match width with
  | O => Ok (num, br)
  | S w =>
      do (bit, br') <- readBit br;
      readBits br' (2 * num + Z.b2z bit) w
  end.

Definition readBits64 (br : t) (count : Z) : result (Z * t) :=
  do _ <- assert (0 <=? count);
  do _ <- assert (count <=? 64);
  readBits br 0 (Z.to_nat count).

End BitReader.

(** ** The keyed hash *)

(** Modelled from the spec: SipHash-2-4 with a 16-byte key and a 64-bit
    output, the keyed hash that section 4.2 names; the bsip package that
    implements it is not part of the sources.  The development below is
    parametric in the hash; this instance serves concrete evaluation. *)
Module SipHash24.

Definition rotl (x b : Z) : Z :=
  U64.wrap (Z.lor (Z.shiftl x b) (Z.shiftr x (64 - b))).

Record state : Type := st { v0 : Z; v1 : Z; v2 : Z; v3 : Z }.

Definition sipround (s : state) : state :=
  let a0 := U64.add (v0 s) (v1 s) in
  let a1 := Z.lxor (rotl (v1 s) 13) a0 in
  let a0 := rotl a0 32 in
  let a2 := U64.add (v2 s) (v3 s) in
  let a3 := Z.lxor (rotl (v3 s) 16) a2 in
  let a0 := U64.add a0 a3 in
  let a3 := Z.lxor (rotl a3 21) a0 in
  let a2 := U64.add a2 a1 in
  let a1 := Z.lxor (rotl a1 17) a2 in
  let a2 := rotl a2 32 in
  st a0 a1 a2 a3.

(** Little-endian value of a run of bytes. *)
Fixpoint le (bs : list Z) : Z :=
  match bs with
  | [] => 0
  | b :: bs' => U64.wrap (Z.land b 255 + 256 * le bs')
  end.

Definition absorb (s : state) (m : Z) : state :=
  let s := st (v0 s) (v1 s) (v2 s) (Z.lxor (v3 s) m) in
  let s := sipround (sipround s) in
  st (Z.lxor (v0 s) m) (v1 s) (v2 s) (v3 s).

Fixpoint blocks (s : state) (data : list Z) : state * list Z :=
  match data with
  | b0 :: b1 :: b2 :: b3 :: b4 :: b5 :: b6 :: b7 :: rest =>
      blocks (absorb s (le [b0; b1; b2; b3; b4; b5; b6; b7])) rest
  | tail => (s, tail)
  end.

Definition siphash (data key : Buffer) : Z :=
  let k0 := le (firstn 8 key) in
  let k1 := le (firstn 8 (skipn 8 key)) in
  let s := st (Z.lxor k0 0x736f6d6570736575) (Z.lxor k1 0x646f72616e646f6d)
              (Z.lxor k0 0x6c7967656e657261) (Z.lxor k1 0x7465646279746573) in
  let '(s, tail) := blocks s data in
  let b := U64.wrap (Z.shiftl (Z.of_nat (length data)) 56 + le tail) in
  let s := absorb s b in
  let s := st (v0 s) (v1 s) (Z.lxor (v2 s) 255) (v3 s) in
  let s := sipround (sipround (sipround (sipround s))) in
  U64.wrap (Z.lxor (Z.lxor (v0 s) (v1 s)) (Z.lxor (v2 s) (v3 s))).

End SipHash24.

(** ** Library calls of the class *)

(** The comparison function handed to [Array.prototype.sort] is [U64.cmp],
    so the sorted array is the ascending rearrangement of the values. *)
Module ZOrder <: TotalLeBool.
Definition t := Z.
Definition leb : Z -> Z -> bool := Z.leb.
Theorem leb_total : forall a b, leb a b = true \/ leb b a = true.
Proof. intros a b; unfold leb; rewrite !Z.leb_le; lia. Qed.
End ZOrder.

Module ZSort := Sort ZOrder.

(** Modelled from the spec: the [BufferSet] class of the buffer-map package,
    which is not part of the sources.  Section 3: a set of distinct byte
    strings, duplicates removed; iteration follows insertion order. *)
Module BufferSet.

Definition t := list Buffer.

Definition has (s : t) (item : Buffer) : bool :=
  if in_dec Buffer_eq_dec item s then true else false.

Definition add (s : t) (item : Buffer) : t :=
  if has s item then s else s ++ [item].

Definition from (items : list Buffer) : t := fold_left add items [].

Definition size (s : t) : Z := Z.of_nat (length s).

End BufferSet.

(** Modelled from the spec: the calls into bufio and into Node's [Buffer]
    that the four wire layouts of section 6 use: the variable-length
    integer [varint(N)], [uint8] and [uint32_be]. *)
Module bio.

Fixpoint le_bytes (width : nat) (v : Z) : Buffer :=
  match width with
  | O => []
  | S w => (v mod 256) :: le_bytes w (v / 256)
  end.

Fixpoint le_value (bs : Buffer) : Z :=
  match bs with
  | [] => 0
  | b :: bs' => b + 256 * le_value bs'
  end.

Definition writeVarint (v : Z) : Buffer :=
  if v <? 0xfd then [v]
  else if v <=? 0xffff then 0xfd :: le_bytes 2 v
  else if v <=? 0xffffffff then 0xfe :: le_bytes 4 v
  else 0xff :: le_bytes 8 v.

Definition readLE (width : nat) (bs : Buffer) : result Z :=
  if Nat.leb width (length bs) then Ok (le_value (firstn width bs))
  else Throw RangeError.

Definition readVarint (bs : Buffer) : result Z :=
  match bs with
  | [] => Throw RangeError
  | b :: rest =>
      if b =? 0xff then
        do v <- readLE 8 rest; do _ <- assert (0xffffffff <? v); Ok v
      else if b =? 0xfe then
        do v <- readLE 4 rest; do _ <- assert (0xffff <? v); Ok v
      else if b =? 0xfd then
        do v <- readLE 2 rest; do _ <- assert (0xfd <=? v); Ok v
      else Ok b
  end.

Definition writeUInt8 (v : Z) : result Buffer :=
  if (0 <=? v) && (v <=? 0xff) then Ok [v] else Throw RangeError.

Definition writeUInt32BE (v : Z) : result Buffer :=
  if (0 <=? v) && (v <=? 0xffffffff) then Ok (rev (le_bytes 4 v))
  else Throw RangeError.

Definition readUInt8 (bs : Buffer) (off : nat) : result Z :=
  match nth_error bs off with
  | Some b => Ok b
  | None => Throw RangeError
  end.

Definition readUInt32BE (bs : Buffer) (off : nat) : result Z :=
  if Nat.leb (off + 4) (length bs)
  then Ok (le_value (rev (firstn 4 (skipn off bs))))
  else Throw RangeError.

Definition slice (bs : Buffer) (start : nat) : Buffer := skipn start bs.

End bio.

(** Hexadecimal rendering of a buffer, [Buffer.toString('hex')]. *)
Definition hex_digit (d : Z) : Z :=
  if d <? 10 then 48 + d else 87 + d.

Definition hex_of_bytes (bs : Buffer) : list Z :=
  flat_map (fun b => [hex_digit (b / 16); hex_digit (b mod 16)]) bs.

(** ** Blocks, as the class reads them *)

(** Modelled from the spec: the parts of bcoin's [Opcode], [Script],
    [Witness], [Input], [Output], [TX], [Block], [Coin], [Coins] and
    [CoinView] that [fromBlock], [fromExtended], [getPushes] and
    [getWitness] read; bcoin is not part of the sources.  Section 9 asks for
    exactly this narrow interface: iterate transactions, outputs and inputs,
    get script bytes, get witness items.  A JavaScript [Map] is a list of
    entries in insertion order; [block.hash()] is the field [hash]. *)
Module Opcode.
Record t : Type := mk {
  value : Z;                (* the opcode; [-1] marks a parse error *)
  data : option Buffer      (* the pushed data, [null] when there is none *)
}.
End Opcode.

Module Script.
Record t : Type := mk {
  raw : Buffer;             (* the serialized script *)
  code : list Opcode.t;     (* its opcodes *)
  length : Z                (* what the getter [script.length] returns *)
}.
End Script.

Module Witness.
Record t : Type := mk { items : list Buffer }.
End Witness.

Module Input.
Record t : Type := mk { script : Script.t; witness : Witness.t }.
End Input.

Module Output.
Record t : Type := mk { script : Script.t }.
End Output.

Module TX.
Record t : Type := mk { inputs : list Input.t; outputs : list Output.t }.
End TX.

Module Block.
Record t : Type := mk { hash : Buffer; txs : list TX.t }.
End Block.

Module Coin.
Record t : Type := mk { output : Output.t }.
End Coin.

Module Coins.
Record t : Type := mk { outputs : list (Z * Coin.t) }.
End Coins.

Module CoinView.
Record t : Type := mk { map : list (Buffer * Coins.t) }.
End CoinView.

(** ** The [Golomb] class *)

Module Golomb.

Definition DUMMY : Buffer := [].

(** [const M = new U64(784931)]. *)
Definition M : Z := 784931.

(** The fields of an instance. *)
Record t : Type := mk { n : Z; p : Z; m : Z; data : Buffer }.

(** [constructor()]. *)
Definition new : t := mk 0 0 M DUMMY.

(** What [readU64] hands back: the shared constant [EOF], which callers
    recognise by identity ([value === EOF]), or a freshly decoded number
    together with the reader advanced past its code. *)
Inductive reading : Type :=
| EOF
| Value (value : Z) (br : BitReader.t).

(** Methods that assign to [this]: the state of the instance is threaded
    through, and survives an exception. *)
Definition method (A : Type) : Type := t -> t * result A.

Definition mret {A : Type} (a : A) : method A := fun this => (this, Ok a).

Definition mbind {A B : Type} (c : method A) (k : A -> method B) : method B :=
  fun this =>
    match c this with
    | (this', Ok a) => k a this'
    | (this', Throw e) => (this', Throw e)
    end.

Definition lift {A : Type} (r : result A) : method A := fun this => (this, r).

Definition assign (f : t -> t) : method unit := fun this => (f this, Ok tt).

Definition get : method t := fun this => (this, Ok this).

Notation "x <~ c ;; k" := (mbind c (fun x => k))
  (at level 61, c at next level, right associativity).

(** A static method [Golomb.f(...)] is [new this().f(...)]. *)
Definition static (c : method unit) : result t :=
  match c new with
  | (this, Ok _) => Ok this
  | (_, Throw e) => Throw e
  end.

(** *** Helpers *)

(** [getPushes(items, script)]: nothing for a script without opcodes or
    whose last opcode marks a parse error; otherwise the empty buffer for
    every opcode 0 and the data of every other opcode that carries some. *)
Definition getPushes (items : BufferSet.t) (script : Script.t) : BufferSet.t :=
  let len := length (Script.code script) in
  if Nat.eqb len 0 then items
  else
    let last := nth (len - 1) (Script.code script) (Opcode.mk 0 None) in
    if Opcode.value last =? -1 then items
    else
      fold_left
        (fun items op =>
           if Opcode.value op =? 0 then BufferSet.add items DUMMY
           else match Opcode.data op with
                | None => items
                | Some data => BufferSet.add items data
                end)
        (Script.code script) items.

(** [getWitness(items, witness)]. *)
Definition getWitness (items : BufferSet.t) (witness : Witness.t) : BufferSet.t :=
  fold_left BufferSet.add (Witness.items witness) items.

(** The loop of [fromBlock] over the outputs of the transactions: empty
    scripts and scripts that start with OP_RETURN (106) are skipped. *)
Definition add_output (items : BufferSet.t) (output : Output.t) : BufferSet.t :=
  if Script.length (Output.script output) =? 0 then items
  else
    match nth_error (Script.raw (Output.script output)) 0 with
    | Some first =>
        if first =? 106 then items
        else BufferSet.add items (Script.raw (Output.script output))
    | None => BufferSet.add items (Script.raw (Output.script output))
    end.

Definition add_outputs (items : BufferSet.t) (txs : list TX.t) : BufferSet.t :=
  fold_left (fun items tx => fold_left add_output (TX.outputs tx) items) txs items.

(** The loop of [fromBlock] over the coins of the view: empty scripts are
    skipped. *)
Definition add_coin (items : BufferSet.t) (entry : Z * Coin.t) : BufferSet.t :=
  let coin := snd entry in
  if Script.length (Output.script (Coin.output coin)) =? 0 then items
  else BufferSet.add items (Script.raw (Output.script (Coin.output coin))).

Definition add_coins (items : BufferSet.t) (view : CoinView.t) : BufferSet.t :=
  fold_left (fun items entry => fold_left add_coin (Coins.outputs (snd entry)) items)
            (CoinView.map view) items.

(** The loop of [fromExtended]: [i] is the index of the transaction, and the
    transaction at index 0 is passed over. *)
Fixpoint add_inputs (i : nat) (items : BufferSet.t) (txs : list TX.t) : BufferSet.t :=
  match txs with
  | [] => items
  | tx :: rest =>
      let items :=
        if Nat.ltb 0 i
        then fold_left
               (fun items input =>
                  getPushes (getWitness items (Input.witness input))
                            (Input.script input))
               (TX.inputs tx) items
        else items in
      add_inputs (S i) items rest
  end.

Section Class.

(** The 64-bit keyed hash of bsip and the digest of bcrypto's [hash256]. *)
Variable siphash : Buffer -> Buffer -> Z.
Variable digest : Buffer -> Buffer.

(** Modelled from the spec: bsip's [sipmod], which is not part of the
    sources.  Section 4.2: the keyed hash is reduced into [0, range) by
    multiplying it with the range and keeping the integer part of the
    fixed-point product, [(hash * range) >> 64]; the result is a pair of
    32-bit halves. *)
Definition sipmod (data key : Buffer) (mhi mlo : Z) : Z * Z :=
  let r := (siphash data key * (mhi * 2 ^ 32 + mlo)) / 2 ^ 64 in
  (r / 2 ^ 32, r mod 2 ^ 32).

(** Modelled from the spec: [hash256.root] of bcrypto, section 4.4:
    [DoubleSHA256(filterHash || prevHeader)]. *)
Definition hash256_root (left right : Buffer) : Buffer :=
  digest (left ++ right).

Definition sipmod64 (data key : Buffer) (m : Z) : Z :=
  let '(hi, lo) := sipmod data key (U64.hi m) (U64.lo m) in
  U64.fromBits hi lo.

(** *** Serialization *)

Definition toBytes (this : t) : Buffer := data this.

Definition toNBytes (this : t) : Buffer :=
  bio.writeVarint (n this) ++ data this.

Definition toPBytes (this : t) : result Buffer :=
  do b <- bio.writeUInt8 (p this);
  Ok (b ++ data this).

Definition toNPBytes (this : t) : result Buffer :=
  do nb <- bio.writeUInt32BE (n this);
  do pb <- bio.writeUInt8 (p this);
  Ok (nb ++ pb ++ data this).

Definition toRaw (this : t) : result Buffer :=
  do _ <- assert (p this =? 19);
  Ok (toNBytes this).

(** *** Content hash and header *)

Inductive digest_out : Type :=
| Raw (h : Buffer)
| Hex (h : list Z).

(** [hash(enc)]; [hex] stands for [enc === 'hex']. *)
Definition hash (this : t) (hex : bool) : digest_out :=
  let h := digest (toNBytes this) in
  if hex then Hex (hex_of_bytes h) else Raw h.

(** [this.hash()], as [header] calls it. *)
Definition hash_raw (this : t) : Buffer :=
  match hash this false with
  | Raw h => h
  | Hex h => h
  end.

Definition header (this : t) (prev : Buffer) : Buffer :=
  hash256_root (hash_raw this) prev.

(** *** Decoding *)

(** The unary run of [_readU64]: [while (br.readBit()) num.iaddn(1)].
    Every turn consumes a bit, so [bits_left br + 1] turns suffice. *)
Fixpoint read_unary (fuel : nat) (br : BitReader.t) (num : Z)
  : result (Z * BitReader.t) :=
  match fuel with
  | O => Throw ErrEOF
  | S fuel' =>
      do (bit, br') <- BitReader.readBit br;
      if (bit : bool) then read_unary fuel' br' (U64.addn num 1)
      else Ok (num, br')
  end.

Definition _readU64 (this : t) (br : BitReader.t) : result (Z * BitReader.t) :=
  do (num, br1) <- read_unary (S (BitReader.bits_left br)) br 0;
  do (rem, br2) <- BitReader.readBits64 br1 (p this);
  Ok (U64.or (U64.shln num (p this)) rem, br2).

Definition readU64 (this : t) (br : BitReader.t) : result reading :=
  match _readU64 this br with
  | Ok (value, br') => Ok (Value value br')
  | Throw ErrEOF => Ok EOF
  | Throw e => Throw e
  end.

(** *** Queries *)

(** The loop of [match]; every turn that goes on decodes a value, which
    consumes at least one bit. *)
Fixpoint match_loop (fuel : nat) (this : t) (br : BitReader.t)
         (last term : Z) : result bool :=
  match fuel with
  | O => Ok false
  | S fuel' =>
      if U64.lt last term then
        do r <- readU64 this br;
        match r with
        | EOF => Ok false
        | Value value br' =>
            let value := U64.add value last in
            if U64.eq value term then Ok true
            else match_loop fuel' this br' value term
        end
      else Ok false
  end.

Definition match_ (this : t) (key data : Buffer) : result bool :=
  let br := BitReader.new (Golomb.data this) in
  let term := sipmod64 data key (m this) in
  match_loop (S (BitReader.bits_left br)) this br 0 term.

(** The loop of [matchAny]; a turn that goes on either moves the index
    [i] forward or decodes a value. *)
Fixpoint matchAny_loop (fuel : nat) (this : t) (br : BitReader.t)
         (values : list Z) (last1 last2 : Z) (i : nat) : result bool :=
  match fuel with
  | O => Ok false
  | S fuel' =>
      match U64.cmp last1 last2 with
      | Eq => Ok true
      | Gt =>
          if Nat.ltb i (length values)
          then matchAny_loop fuel' this br values last1 (nth i values 0) (S i)
          else Ok false
      | Lt =>
          do r <- readU64 this br;
          match r with
          | EOF => Ok false
          | Value value br' =>
              matchAny_loop fuel' this br' values (U64.add last1 value) last2 i
          end
      end
  end.

Definition matchAny (this : t) (key : Buffer) (items : list Buffer)
  : result bool :=
  let items := BufferSet.from items in
  do _ <- assert (0 <? BufferSet.size items);
  let br := BitReader.new (data this) in
  let values := map (fun item => sipmod64 item key (m this)) items in
  let values := ZSort.sort values in
  matchAny_loop (S (BitReader.bits_left br + length values))
                this br values 0 (nth 0 values 0) 1.

(** *** Building *)

(** [while (!value.isZero()) { bw.writeBit(1); value.isubn(1); }] *)
Fixpoint write_unary (fuel : nat) (bw : BitWriter.t) (value : Z) : BitWriter.t :=
  match fuel with
  | O => bw
  | S fuel' =>
      if U64.isZero value then bw
      else write_unary fuel' (BitWriter.writeBit bw true) (U64.subn value 1)
  end.

(** One turn of the loop over the sorted hashes. *)
Definition encode (P : Z) (st : BitWriter.t * Z) (hash : Z)
  : result (BitWriter.t * Z) :=
  let '(bw, last) := st in
  let rem := U64.maskn (U64.sub hash last) P in
  let value := U64.shrn (U64.sub (U64.sub hash last) rem) P in
  let bw := write_unary (Z.to_nat value) bw value in
  let bw := BitWriter.writeBit bw false in
  do bw <- BitWriter.writeBits64 bw rem P;
  Ok (bw, hash).

Fixpoint encode_all (P : Z) (st : BitWriter.t * Z) (values : list Z)
  : result (BitWriter.t * Z) :=
  match values with
  | [] => Ok st
  | hash :: rest => do st' <- encode P st hash; encode_all P st' rest
  end.

Definition fromItems (P : Z) (key : Buffer) (items : list Buffer) : method unit :=
  _ <~ lift (assert ((0 <=? P) && (P <=? 32))) ;;
  let items := BufferSet.from items in
  _ <~ lift (assert (Z.of_nat (length key) =? 16)) ;;
  _ <~ lift (assert (0 <=? BufferSet.size items)) ;;
  _ <~ lift (assert (BufferSet.size items <=? 0xffffffff)) ;;
  _ <~ assign (fun this => mk (n this) P (m this) (data this)) ;;
  _ <~ assign (fun this => mk (BufferSet.size items) (p this) (m this) (data this)) ;;
  _ <~ assign (fun this =>
                 mk (n this) (p this) (U64.mul M (U64.wrap (n this))) (data this)) ;;
  this <~ get ;;
  let values := map (fun item => sipmod64 item key (m this)) items in
  let values := ZSort.sort values in
  st <~ lift (encode_all (p this) (BitWriter.new, 0) values) ;;
  assign (fun this => mk (n this) (p this) (m this) (BitWriter.render (fst st))).

Definition fromBytes (N P : Z) (data : Buffer) : method unit :=
  _ <~ lift (assert ((0 <=? P) && (P <=? 32))) ;;
  _ <~ assign (fun this => mk N (p this) (m this) (Golomb.data this)) ;;
  _ <~ assign (fun this => mk (n this) P (m this) (Golomb.data this)) ;;
  _ <~ assign (fun this =>
                 mk (n this) (p this) (U64.mul M (U64.wrap (n this)))
                    (Golomb.data this)) ;;
  assign (fun this => mk (n this) (p this) (m this) data).

Definition fromNBytes (P : Z) (data : Buffer) : method unit :=
  N <~ lift (bio.readVarint data) ;;
  fromBytes N P (bio.slice data 1).

Definition fromPBytes (N : Z) (data : Buffer) : method unit :=
  _ <~ lift (assert (Nat.leb 1 (length data))) ;;
  P <~ lift (bio.readUInt8 data 0) ;;
  fromBytes N P (bio.slice data 1).

Definition fromNPBytes (data : Buffer) : method unit :=
  _ <~ lift (assert (Nat.leb 5 (length data))) ;;
  N <~ lift (bio.readUInt32BE data 0) ;;
  P <~ lift (bio.readUInt8 data 4) ;;
  fromBytes N P (bio.slice data 5).

Definition fromRaw (data : Buffer) : method unit :=
  fromNBytes 19 data.

(** The static counterparts, [new this().f(...)]. *)
Definition static_fromItems (P : Z) (key : Buffer) (items : list Buffer) :=
  static (fromItems P key items).
Definition static_fromBytes (N P : Z) (data : Buffer) :=
  static (fromBytes N P data).
Definition static_fromNBytes (P : Z) (data : Buffer) :=
  static (fromNBytes P data).
Definition static_fromPBytes (N : Z) (data : Buffer) :=
  static (fromPBytes N data).
Definition static_fromNPBytes (data : Buffer) :=
  static (fromNPBytes data).
Definition static_fromRaw (data : Buffer) :=
  static (fromRaw data).

(** *** Filters of a block *)

Definition fromBlock (block : Block.t) (view : CoinView.t) : method unit :=
  let hash := Block.hash block in
  let key := firstn 16 hash in
  let items : BufferSet.t := [] in
  let items := add_outputs items (Block.txs block) in
  let items := add_coins items view in
  fromItems 19 key items.

Definition fromExtended (block : Block.t) : method unit :=
  let hash := Block.hash block in
  let key := firstn 16 hash in
  let items : BufferSet.t := [] in
  let items := add_inputs 0 items (Block.txs block) in
  fromItems 19 key items.

Definition static_fromBlock (block : Block.t) (view : CoinView.t) :=
  static (fromBlock block view).
Definition static_fromExtended (block : Block.t) :=
  static (fromExtended block).

End Class.

End Golomb.

(** ** The filter node (lib/cfnode.js) *)

(** The life cycle of [FilterNode]: [open], [close], [scan], [watchBlock] and
    the [tx] and [connect] handlers of [init].  The chain, the pool, the
    filter index, the HTTP server, the plugins, the logger and the two locks
    are collaborators outside the sources: each call into one of them is
    recorded in a log, and an environment decides, from the log so far,
    whether the call returns or fails.  An [async] method is run from its
    call to the settling of its promise, with no other handler in between. *)
Module FilterNode.

(** What can go wrong: a failed [assert], a property read on [null], or a
    failure that a collaborator reports. *)
Inductive failure : Type :=
| AssertFailure
| TypeError
| Rejected (reason : Z).

Inductive outcome (A : Type) : Type :=
| Done (a : A)
| Raised (f : failure).
Arguments Done {A} a.
Arguments Raised {A} f.

(** Calls into collaborators and events given to listeners. *)
Inductive call : Type :=
| handlePreopen | chain_open | pool_open | filterindex_open | openPlugins
| http_open | handleOpen | logger_info
| filterindex_close | handlePreclose | http_close | closePlugins
| pool_close | chain_close | handleClose
| scanLock_lock | scanLock_unlock | watchLock_lock | watchLock_unlock
| chain_replay (start : Z)
| job_iter (height : Z) (txs : list TX.t)
| job_resolve
| job_reject (f : failure)
| emit_tx (tx : TX.t)
| emit_connect (height : Z) (block : Block.t)
| node_error (f : failure).

(** [class RescanJob]; [resolve], [reject] and [iter] appear as calls. *)
Record RescanJob : Type := mkJob { height : Z }.

Record t : Type := mk {
  opened : bool;
  filterindex : bool;              (* whether [this.filterindex] is set *)
  rescanJob : option RescanJob;
  log : list call
}.

Definition action (A : Type) : Type := t -> t * outcome A.

Definition ret {A : Type} (a : A) : action A := fun node => (node, Done a).

Definition raise {A : Type} (f : failure) : action A := fun node => (node, Raised f).

Definition bind {A B : Type} (c : action A) (k : A -> action B) : action B :=
  fun node =>
    match c node with
    | (node', Done a) => k a node'
    | (node', Raised f) => (node', Raised f)
    end.

Notation "c >> k" := (bind c (fun _ => k)) (at level 62, right associativity).

(** [try { c } catch (e) { handler(e) }]. *)
Definition catch {A : Type} (c : action A) (handler : failure -> action A) : action A :=
  fun node =>
    match c node with
    | (node', Done a) => (node', Done a)
    | (node', Raised f) => handler f node'
    end.

(** [try { c } finally { cleanup }], for a cleanup that completes normally
    or fails. *)
Definition finally {A : Type} (c : action A) (cleanup : action unit) : action A :=
  fun node =>
    match c node with
    | (node', r) =>
        match cleanup node' with
        | (node'', Done _) => (node'', r)
        | (node'', Raised f) => (node'', Raised f)
        end
    end.

Definition assert (b : bool) : action unit :=
  if b then ret tt else raise AssertFailure.

Definition set_opened (b : bool) : action unit :=
  fun node => (mk b (filterindex node) (rescanJob node) (log node), Done tt).

Definition set_rescanJob (job : option RescanJob) : action unit :=
  fun node => (mk (opened node) (filterindex node) job (log node), Done tt).

Definition record (c : call) : t -> t :=
  fun node => mk (opened node) (filterindex node) (rescanJob node) (log node ++ [c]).

Section Environment.

(** Whether a call fails, given the calls made before it. *)
Variable env : list call -> call -> option failure.

(** A call that the method awaits, or makes, and that may fail. *)
Definition await (c : call) : action unit :=
  fun node =>
    match env (log node) c with
    | None => (record c node, Done tt)
    | Some f => (record c node, Raised f)
    end.

(** A call that cannot fail: settling a promise, releasing a lock. *)
Definition tell (c : call) : action unit :=
  fun node => (record c node, Done tt).

Definition when (b : bool) (c : action unit) : action unit :=
  if b then c else ret tt.

Definition open : action unit :=
  fun node =>
    (assert (negb (opened node)) >>
     set_opened true >>
     await handlePreopen >>
     await chain_open >>
     await pool_open >>
     (fun node => when (filterindex node) (await filterindex_open) node) >>
     await openPlugins >>
     await http_open >>
     await handleOpen >>
     await logger_info) node.

Definition close : action unit :=
  fun node =>
    (assert (opened node) >>
     set_opened false >>
     (fun node => when (filterindex node) (await filterindex_close) node) >>
     await handlePreclose >>
     await http_close >>
     await closePlugins >>
     await pool_close >>
     await chain_close >>
     await handleClose) node.

(** [scan(start, filter, iter)]: the comparison of the heights guards an
    empty block, and [filter] and [iter] are not used. *)
Definition scan (start : Z) : action unit :=
  await scanLock_lock >>
  finally (await (chain_replay start)) (tell scanLock_unlock).

Definition watchBlock (entry_height : Z) (block : Block.t) : action unit :=
  await watchLock_lock >>
  finally
    (catch
       (fun node =>
          match rescanJob node with
          | None => raise TypeError node
          | Some job =>
              if entry_height <? height job
              then await (job_iter entry_height (Block.txs block)) node
              else (tell job_resolve >> set_rescanJob None) node
          end)
       (fun f node =>
          match rescanJob node with
          | None => raise TypeError node
          | Some job => (tell (job_reject f) >> set_rescanJob None) node
          end))
    (tell watchLock_unlock).

(** The [tx] handler of the pool. *)
Definition on_tx (tx : TX.t) : action unit :=
  fun node =>
    match rescanJob node with
    | Some _ => ret tt node
    | None => await (emit_tx tx) node
    end.

(** The [connect] handler of the chain. *)
Definition on_connect (entry_height : Z) (block : Block.t) : action unit :=
  fun node =>
    match rescanJob node with
    | Some _ =>
        catch (watchBlock entry_height block) (fun f => await (node_error f)) node
    | None => await (emit_connect entry_height block) node
    end.

End Environment.

End FilterNode.

(** ** Specification-level definitions *)

(** The Rice code of section 4.3: [v >> P] one-bits, a terminating zero bit,
    then the low [P] bits of [v], most significant first. *)
Definition rice_code (P v : Z) : list bool :=
  repeat true (Z.to_nat (Z.shiftr v P)) ++ [false] ++ bits_of_int v (Z.to_nat P).

(** Successive differences of a sequence, starting from [last]:
    [delta_0 = h_0 - last], [delta_i = h_i - h_(i-1)]. *)
Fixpoint deltas (last : Z) (hs : list Z) : list Z :=
  match hs with
  | [] => []
  | h :: hs' => (h - last) :: deltas h hs'
  end.

(** Bytes of a bit sequence, most significant bit first, the last partial
    byte padded with zero bits. *)
Fixpoint pack_bits (bs : list bool) : Buffer :=
  match bs with
  | [] => []
  | b7 :: b6 :: b5 :: b4 :: b3 :: b2 :: b1 :: b0 :: rest =>
      int_of_bits 0 [b7; b6; b5; b4; b3; b2; b1; b0] :: pack_bits rest
  | _ => [int_of_bits 0 (firstn 8 (bs ++ repeat false 7))]
  end.

(** The bits a reader has not consumed yet. *)
Definition pending (br : BitReader.t) : list bool :=
  skipn (BitReader.cursor br) (bits_of_bytes (BitReader.stream br)).

(** The reader moved [k] bits forward. *)
Definition advance (br : BitReader.t) (k : nat) : BitReader.t :=
  BitReader.mk (BitReader.stream br) (BitReader.cursor br + k).

(** The bits a writer has taken so far, and their number. *)
Definition written (bw : BitWriter.t) : list bool :=
  bits_of_bytes (BitWriter.stream bw)
  ++ bits_of_int (BitWriter.acc bw) (BitWriter.fill bw).

Definition bits_written (bw : BitWriter.t) : nat :=
  8 * length (BitWriter.stream bw) + BitWriter.fill bw.

(** The writer states that [writeBit] reaches from [new]. *)
Definition wf_writer (bw : BitWriter.t) : Prop :=
  (BitWriter.fill bw < 8)%nat
  /\ 0 <= BitWriter.acc bw < 2 ^ Z.of_nat (BitWriter.fill bw)
  /\ Forall is_byte (BitWriter.stream bw).

(** A filter whose modulus is the one [fromItems] and [fromBytes] derive
    from its item count. *)
Definition derived (g : Golomb.t) : Prop :=
  Golomb.m g = U64.mul Golomb.M (U64.wrap (Golomb.n g)).

(** The build path in the words of section 4.4: [N] is the number of
    distinct items, [M = 784931 * N], the hashes are the items reduced into
    the range [M] and sorted ascending, and [data] holds the Rice codes of
    their successive differences in one bit stream. *)
Module Spec.

Section Build.

Variable reduce : Buffer -> Buffer -> Z -> Z.

Definition hashes (key : Buffer) (items : list Buffer) : list Z :=
  let N := Z.of_nat (length (BufferSet.from items)) in
  ZSort.sort (map (fun item => reduce item key (784931 * N))
                  (BufferSet.from items)).

Definition build (P : Z) (key : Buffer) (items : list Buffer) : Golomb.t :=
  let N := Z.of_nat (length (BufferSet.from items)) in
  Golomb.mk N P (784931 * N)
            (pack_bits (flat_map (rice_code P) (deltas 0 (hashes key items)))).

End Build.

End Spec.

(** The zero bits [render] appends to complete the last byte. *)
Definition padding (bw : BitWriter.t) : nat :=
  match BitWriter.fill bw with
  | O => O
  | S _ => 8 - BitWriter.fill bw
  end.

(** The counter of the unary run after [k] one-bits. *)
Definition count_up (k : nat) (num : Z) : Z :=
  Nat.iter k (fun x => U64.addn x 1) num.

(** An ascending sequence that starts no lower than [last]. *)
Fixpoint ascending (last : Z) (hs : list Z) : Prop :=
  match hs with
  | [] => True
  | h :: hs' => last <= h /\ ascending h hs'
  end.

(** The numbers [readU64] hands back one after the other, up to the first
    [EOF]. *)
Fixpoint decode_fuel (fuel : nat) (this : Golomb.t) (br : BitReader.t) : list Z :=
  match fuel with
  | O => []
  | S fuel' =>
      match Golomb.readU64 this br with
      | Ok (Golomb.Value value br') => value :: decode_fuel fuel' this br'
      | _ => []
      end
  end.

Definition decode_all (this : Golomb.t) (br : BitReader.t) : list Z :=
  decode_fuel (S (BitReader.bits_left br)) this br.

(** [v] is the running value [last], or one of the running values that
    follow while they stay below [v]. *)
Fixpoint reachb (ds : list Z) (last v : Z) : bool :=
  (last =? v)
  || ((last <? v)
      && match ds with
         | [] => false
         | d :: ds' => reachb ds' (U64.add last d) v
         end).

(** The filters [fromItems] and [fromBytes] can produce from a valid item
    count: [N] fits 32 bits, [P] is in [0, 32], [M] is derived from [N]. *)
Definition valid (g : Golomb.t) : Prop :=
  0 <= Golomb.n g <= 0xffffffff /\ 0 <= Golomb.p g <= 32 /\ derived g.

(** Two distinct inputs with the same digest. *)
Definition collide (digest : Buffer -> Buffer) (a b : Buffer) : Prop :=
  a <> b /\ digest a = digest b.

(** A key of sixteen zero bytes, the items ["a"], ["b"], ["c"] of the
    scenario of section 8, and two ASCII strings whose SipHash-2-4 under
    that key reduces to zero: ["482108"] in the range [784931], and
    ["1736255"] in the range [3 * 784931]. *)
Definition zero_key : Buffer := repeat 0 16.
Definition abc : list Buffer := [[97]; [98]; [99]].
Definition item_482108 : Buffer := [52; 56; 50; 49; 48; 56].
Definition item_1736255 : Buffer := [49; 55; 51; 54; 50; 53; 53].

Definition filter_abc : Golomb.t :=
  Golomb.mk 3 19 2354793 [44; 80; 236; 152; 247; 232; 246; 76].

(** The buffers one opcode contributes to an extended filter. *)
Definition op_pushes (op : Opcode.t) : list Buffer :=
  if Opcode.value op =? 0 then [Golomb.DUMMY]
  else match Opcode.data op with
       | None => []
       | Some data => [data]
       end.

(** The pushed data of a script that parsed without error. *)
Definition pushes (script : Script.t) : list Buffer :=
  match Script.code script with
  | [] => []
  | _ :: _ =>
      if Opcode.value (last (Script.code script) (Opcode.mk 0 None)) =? -1 then []
      else flat_map op_pushes (Script.code script)
  end.

(** The output scripts a basic filter keeps: not empty, and not starting
    with OP_RETURN. *)
Definition keeps_output (output : Output.t) : bool :=
  negb (Script.length (Output.script output) =? 0)
  && negb (match Script.raw (Output.script output) with
           | first :: _ => first =? 106
           | [] => false
           end).

(** The previous-output scripts a basic filter keeps: not empty. *)
Definition keeps_coin (entry : Z * Coin.t) : bool :=
  negb (Script.length (Output.script (Coin.output (snd entry))) =? 0).

Definition basic_scripts (block : Block.t) (view : CoinView.t) : list Buffer :=
  flat_map (fun tx =>
              map (fun output => Script.raw (Output.script output))
                  (filter keeps_output (TX.outputs tx)))
           (Block.txs block)
  ++ flat_map (fun entry =>
                 map (fun e => Script.raw (Output.script (Coin.output (snd e))))
                     (filter keeps_coin (Coins.outputs (snd entry))))
              (CoinView.map view).

(** The items of an extended filter: the witness items and the pushed data
    of every input of every transaction but the first. *)
Definition input_items (input : Input.t) : list Buffer :=
  Witness.items (Input.witness input) ++ pushes (Input.script input).

Definition extended_items (block : Block.t) : list Buffer :=
  flat_map (fun tx => flat_map input_items (TX.inputs tx)) (tl (Block.txs block)).

(** A lock is taken and released in pairs: when taking the lock failed, the
    attempt is the only call of the method; otherwise its calls start with
    taking the lock and end with releasing it, with neither in between. *)
Definition paired (failed : option FilterNode.failure) (lock unlock : FilterNode.call)
           (calls : list FilterNode.call) : Prop :=
  match failed with
  | Some _ => calls = [lock]
  | None =>
      exists middle,
        calls = [lock] ++ middle ++ [unlock]
        /\ ~ In lock middle /\ ~ In unlock middle
  end.

(** A block of two transactions and a view of one coin: the outputs carry
    the scripts ["a"], an OP_RETURN script and ["b"], the coin the script
    ["c"]; the inputs carry a script that pushes the empty buffer and ["c"],
    and one witness item each. *)
Definition script_of (raw : Buffer) : Script.t :=
  Script.mk raw [Opcode.mk (hd 0 raw) None] (Z.of_nat (length raw)).
Definition script_null : Script.t :=
  Script.mk [106; 1; 120] [Opcode.mk 106 None; Opcode.mk 1 (Some [120])] 2.
Definition script_push : Script.t :=
  Script.mk [0; 1; 99] [Opcode.mk 0 None; Opcode.mk 1 (Some [99])] 2.
Definition tx_coinbase : TX.t :=
  TX.mk [Input.mk script_push (Witness.mk [[7]])]
        [Output.mk (script_of [97]); Output.mk script_null].
Definition tx_spend : TX.t :=
  TX.mk [Input.mk script_push (Witness.mk [[98]])] [Output.mk (script_of [98])].
Definition block_ab : Block.t := Block.mk (repeat 0 32) [tx_coinbase; tx_spend].
Definition view_c : CoinView.t :=
  CoinView.mk [([1], Coins.mk [(0, Coin.mk (Output.mk (script_of [99])))])].

(** A closed node with a filter index, one with a rescan job up to height 5,
    an environment in which every call returns, and one in which opening
    the chain fails. *)
Definition node_closed : FilterNode.t := FilterNode.mk false true None [].
Definition node_rescan : FilterNode.t :=
  FilterNode.mk true true (Some (FilterNode.mkJob 5)) [].
Definition env_ok : list FilterNode.call -> FilterNode.call -> option FilterNode.failure :=
  fun _ _ => None.
Definition env_chain_fails
  : list FilterNode.call -> FilterNode.call -> option FilterNode.failure :=
  fun _ c =>
    match c with
    | FilterNode.chain_open => Some (FilterNode.Rejected 1)
    | _ => None
    end.

(** * Properties *)

(** ** Arithmetic of [U64] *)

Lemma U64_wrap_small (x : Z) : 0 <= x < 2 ^ 64 -> U64.wrap x = x.
Proof. intros H; unfold U64.wrap, U64.modulus; apply Z.mod_small; exact H. Qed.

Lemma U64_wrap_range (x : Z) : 0 <= U64.wrap x < 2 ^ 64.
Proof. unfold U64.wrap, U64.modulus; apply Z.mod_pos_bound; lia. Qed.

Lemma land_63_small (P : Z) : 0 <= P <= 63 -> Z.land P 63 = P.
Proof.
  intros H. change 63 with (Z.ones 6). rewrite Z.land_ones by lia.
  apply Z.mod_small. change (2 ^ 6) with 64. lia.
Qed.

Lemma U64_hi_lo (a : Z) : U64.hi a * 2 ^ 32 + U64.lo a = a.
Proof.
  unfold U64.hi, U64.lo.
  pose proof (Z.div_mod a (2 ^ 32)) as H. lia.
Qed.

Section Reduce.

Variable siphash : Buffer -> Buffer -> Z.
Hypothesis siphash_range : forall data key, 0 <= siphash data key < 2 ^ 64.

Lemma sipmod64_eq (data key : Buffer) (m : Z) :
  0 <= m < 2 ^ 64 ->
  Golomb.sipmod64 siphash data key m = siphash data key * m / 2 ^ 64.
Proof.
  intros Hm. unfold Golomb.sipmod64, Golomb.sipmod.
  rewrite U64_hi_lo.
  set (r := siphash data key * m / 2 ^ 64).
  unfold U64.fromBits.
  pose proof (Z.div_mod r (2 ^ 32)) as Hr.
  replace (r / 2 ^ 32 * 2 ^ 32 + r mod 2 ^ 32) with r by lia.
  apply U64_wrap_small.
  pose proof (siphash_range data key) as Hs.
  subst r. split.
  - apply Z.div_pos; [nia | lia].
  - apply Z.div_lt_upper_bound; [lia | nia].
Qed.

Lemma sipmod64_range (data key : Buffer) (m : Z) :
  0 < m < 2 ^ 64 -> 0 <= Golomb.sipmod64 siphash data key m < m.
Proof.
  intros Hm. rewrite sipmod64_eq by lia.
  pose proof (siphash_range data key) as Hs. split.
  - apply Z.div_pos; [nia | lia].
  - apply Z.div_lt_upper_bound; [lia | nia].
Qed.

End Reduce.

Lemma sipmod64_zero_range (siphash : Buffer -> Buffer -> Z) (data key : Buffer) :
  Golomb.sipmod64 siphash data key 0 = 0.
Proof.
  unfold Golomb.sipmod64, Golomb.sipmod.
  change (U64.hi 0) with 0. change (U64.lo 0) with 0.
  rewrite Z.mul_0_r. reflexivity.
Qed.

(** ** Bits and bytes *)

Lemma bits_of_bytes_length (s : Buffer) :
  length (bits_of_bytes s) = (8 * length s)%nat.
Proof.
  induction s as [|b s IH]; [reflexivity|].
  unfold bits_of_bytes in *. cbn [flat_map].
  rewrite length_app, IH. cbn [bits_of_byte length]. lia.
Qed.

Lemma bits_of_bytes_app (s1 s2 : Buffer) :
  bits_of_bytes (s1 ++ s2) = bits_of_bytes s1 ++ bits_of_bytes s2.
Proof. unfold bits_of_bytes. apply flat_map_app. Qed.

Lemma bits_of_int_length (v : Z) (w : nat) : length (bits_of_int v w) = w.
Proof. induction w as [|w IH]; cbn; [reflexivity | now rewrite IH]. Qed.

(** Bit [c] of a buffer sits in byte [c / 8], at position [7 - c mod 8]. *)
Lemma bits_of_bytes_nth (s : Buffer) (c : nat) :
  (c < 8 * length s)%nat ->
  nth c (bits_of_bytes s) false
  = Z.testbit (nth (Nat.div c 8) s 0) (Z.of_nat (7 - Nat.modulo c 8)).
Proof.
  revert c. induction s as [|b s IH]; intros c Hc; [cbn in Hc; lia|].
  destruct (Nat.lt_ge_cases c 8) as [Hlt|Hge].
  - do 8 (destruct c as [|c]; [reflexivity|]). lia.
  - replace c with (c - 8 + 1 * 8)%nat by lia.
    rewrite Nat.div_add, Nat.Div0.mod_add by lia.
    replace (Nat.div (c - 8) 8 + 1)%nat with (S (Nat.div (c - 8) 8)) by lia.
    cbn [nth].
    rewrite <- IH by (cbn [length] in Hc; lia).
    replace (c - 8 + 1 * 8)%nat with (8 + (c - 8))%nat by lia.
    reflexivity.
Qed.

Lemma skipn_cons_nth {A : Type} (l : list A) (c : nat) (d : A) :
  (c < length l)%nat -> skipn c l = nth c l d :: skipn (S c) l.
Proof.
  revert c. induction l as [|a l IH]; intros c Hc; [cbn in Hc; lia|].
  destruct c as [|c]; [reflexivity|].
  cbn [skipn nth]. apply IH. cbn in Hc. lia.
Qed.

Lemma pending_length (br : BitReader.t) :
  length (pending br) = BitReader.bits_left br.
Proof.
  unfold pending, BitReader.bits_left.
  rewrite length_skipn, bits_of_bytes_length. reflexivity.
Qed.

Lemma pending_advance (br : BitReader.t) (bs rest : list bool) :
  pending br = bs ++ rest -> pending (advance br (length bs)) = rest.
Proof.
  unfold pending, advance. cbn [BitReader.stream BitReader.cursor].
  intros H. rewrite Nat.add_comm, <- skipn_skipn, H.
  rewrite skipn_app, skipn_all, Nat.sub_diag. reflexivity.
Qed.

Lemma advance_advance (br : BitReader.t) (j k : nat) :
  advance (advance br j) k = advance br (j + k).
Proof. unfold advance; cbn. f_equal. lia. Qed.

(** [readBit] pops the first pending bit, and signals end-of-stream when
    none is pending. *)
Lemma readBit_cons (br : BitReader.t) (b : bool) (rest : list bool) :
  pending br = b :: rest ->
  BitReader.readBit br = Ok (b, advance br 1).
Proof.
  intros H. unfold BitReader.readBit.
  assert (Hlt : (BitReader.cursor br < 8 * length (BitReader.stream br))%nat).
  { pose proof (pending_length br) as HL. rewrite H in HL.
    unfold BitReader.bits_left in HL. cbn [length] in HL. lia. }
  destruct (Nat.ltb_spec (BitReader.cursor br) (8 * length (BitReader.stream br)));
    [|lia].
  rewrite <- bits_of_bytes_nth by assumption.
  unfold pending in H.
  rewrite (skipn_cons_nth _ _ false) in H by (rewrite bits_of_bytes_length; lia).
  injection H as Hb _. rewrite Hb.
  unfold advance. repeat f_equal. lia.
Qed.

Lemma readBit_nil (br : BitReader.t) :
  pending br = [] -> BitReader.readBit br = Throw ErrEOF.
Proof.
  intros H. unfold BitReader.readBit.
  pose proof (pending_length br) as HL. rewrite H in HL.
  unfold BitReader.bits_left in HL. cbn [length] in HL.
  destruct (Nat.ltb_spec (BitReader.cursor br) (8 * length (BitReader.stream br)));
    [lia | reflexivity].
Qed.

(** [readBits] takes [width] pending bits as a number, most significant
    first, or signals end-of-stream when fewer are pending. *)
Lemma readBits_app (bs rest : list bool) (br : BitReader.t) (num : Z) :
  pending br = bs ++ rest ->
  BitReader.readBits br num (length bs)
  = Ok (int_of_bits num bs, advance br (length bs)).
Proof.
  revert br num. induction bs as [|b bs IH]; intros br num H.
  - cbn. unfold advance. rewrite Nat.add_0_r. destruct br; reflexivity.
  - cbn [length BitReader.readBits].
    rewrite (readBit_cons br b (bs ++ rest)) by exact H. cbn [bind].
    rewrite (IH (advance br 1)).
    + rewrite advance_advance. reflexivity.
    + apply (pending_advance br [b]). exact H.
Qed.

Lemma readBits_short (width : nat) (br : BitReader.t) (num : Z) :
  (length (pending br) < width)%nat ->
  BitReader.readBits br num width = Throw ErrEOF.
Proof.
  revert br num. induction width as [|w IH]; intros br num H; [lia|].
  cbn [BitReader.readBits].
  destruct (pending br) as [|b rest] eqn:E.
  - rewrite readBit_nil by exact E. reflexivity.
  - rewrite (readBit_cons br b rest) by exact E. cbn [bind].
    apply IH. pose proof (pending_advance br [b] rest E) as HP.
    cbn [length] in HP, H. rewrite HP. lia.
Qed.

Lemma int_of_bits_app (acc : Z) (a b : list bool) :
  int_of_bits acc (a ++ b) = int_of_bits (int_of_bits acc a) b.
Proof. revert acc; induction a as [|x a IH]; intros acc; cbn; [reflexivity | apply IH]. Qed.

Lemma int_of_bits_zeros (acc : Z) (k : nat) :
  int_of_bits acc (repeat false k) = acc * 2 ^ Z.of_nat k.
Proof.
  revert acc; induction k as [|k IH]; intros acc.
  - cbn. lia.
  - cbn [repeat int_of_bits Z.b2z]. rewrite IH.
    rewrite Nat2Z.inj_succ, Z.pow_succ_r by lia. lia.
Qed.

Lemma mod_pow2_succ (v : Z) (w : nat) :
  v mod 2 ^ Z.of_nat (S w)
  = Z.b2z (Z.testbit v (Z.of_nat w)) * 2 ^ Z.of_nat w + v mod 2 ^ Z.of_nat w.
Proof.
  rewrite Nat2Z.inj_succ, Z.pow_succ_r by lia.
  rewrite (Z.mul_comm 2), Z.rem_mul_r by lia.
  rewrite Z.testbit_spec' by lia. lia.
Qed.

Lemma int_of_bits_of_int (acc v : Z) (w : nat) :
  int_of_bits acc (bits_of_int v w) = acc * 2 ^ Z.of_nat w + v mod 2 ^ Z.of_nat w.
Proof.
  revert acc; induction w as [|w IH]; intros acc.
  - cbn. rewrite Z.mod_1_r. lia.
  - cbn [bits_of_int int_of_bits]. rewrite IH, mod_pow2_succ.
    rewrite Nat2Z.inj_succ, Z.pow_succ_r by lia. lia.
Qed.

Lemma bits_of_int_snoc (a : Z) (b : bool) (w : nat) :
  bits_of_int (2 * a + Z.b2z b) (S w) = bits_of_int a w ++ [b].
Proof.
  induction w as [|w IH].
  - cbn [bits_of_int app]. change (Z.of_nat 0) with 0.
    rewrite Z.testbit_0_r. reflexivity.
  - change (bits_of_int (2 * a + Z.b2z b) (S (S w)))
      with (Z.testbit (2 * a + Z.b2z b) (Z.of_nat (S w))
            :: bits_of_int (2 * a + Z.b2z b) (S w)).
    rewrite IH, Nat2Z.inj_succ, Z.testbit_succ_r by lia. reflexivity.
Qed.

Lemma bits_of_int_mod (v : Z) (w k : nat) :
  (w <= k)%nat -> bits_of_int (v mod 2 ^ Z.of_nat k) w = bits_of_int v w.
Proof.
  induction w as [|w IH]; intros H; [reflexivity|].
  cbn [bits_of_int]. rewrite IH by lia.
  rewrite Z.mod_pow2_bits_low by lia. reflexivity.
Qed.

Lemma bits_of_byte_int (b : Z) : bits_of_byte b = bits_of_int b 8.
Proof. reflexivity. Qed.

Lemma int_of_bits_byte (b : Z) : is_byte b -> int_of_bits 0 (bits_of_byte b) = b.
Proof.
  intros H. rewrite bits_of_byte_int, int_of_bits_of_int.
  change (2 ^ Z.of_nat 8) with 256. rewrite Z.mod_small by exact H. lia.
Qed.

(** ** The writer *)

Lemma written_length (bw : BitWriter.t) : length (written bw) = bits_written bw.
Proof.
  unfold written, bits_written.
  rewrite length_app, bits_of_bytes_length, bits_of_int_length. reflexivity.
Qed.

Lemma wf_writer_new : wf_writer BitWriter.new.
Proof. repeat split; cbn; try lia. constructor. Qed.

Lemma writeBit_wf (bw : BitWriter.t) (b : bool) :
  wf_writer bw -> wf_writer (BitWriter.writeBit bw b).
Proof.
  intros (Hf & Ha & Hs). unfold BitWriter.writeBit, wf_writer.
  assert (Hb : 0 <= Z.b2z b <= 1) by (destruct b; cbn; lia).
  destruct (Nat.eqb_spec (BitWriter.fill bw) 7) as [E|E];
    cbn [BitWriter.fill BitWriter.acc BitWriter.stream].
  - split; [lia|]. split; [cbn; lia|].
    apply Forall_app; split; [exact Hs|].
    constructor; [|constructor].
    rewrite E in Ha. change (2 ^ Z.of_nat 7) with 128 in Ha.
    unfold is_byte. lia.
  - split; [lia|]. split; [|exact Hs].
    rewrite Nat2Z.inj_succ, Z.pow_succ_r by lia. lia.
Qed.

Lemma writeBit_written (bw : BitWriter.t) (b : bool) :
  wf_writer bw -> written (BitWriter.writeBit bw b) = written bw ++ [b].
Proof.
  intros (Hf & Ha & Hs). unfold BitWriter.writeBit, written.
  destruct (Nat.eqb_spec (BitWriter.fill bw) 7) as [E|E];
    cbn [BitWriter.fill BitWriter.acc BitWriter.stream].
  - rewrite bits_of_bytes_app, E. cbn [bits_of_int app].
    rewrite app_nil_r, <- app_assoc. f_equal.
    unfold bits_of_bytes. cbn [flat_map]. rewrite app_nil_r.
    rewrite bits_of_byte_int. apply (bits_of_int_snoc _ b 7).
  - rewrite bits_of_int_snoc, app_assoc. reflexivity.
Qed.

Lemma writeBits_wf (value : Z) (width : nat) (bw : BitWriter.t) :
  wf_writer bw -> wf_writer (BitWriter.writeBits bw value width).
Proof.
  revert bw; induction width as [|w IH]; intros bw H; [exact H|].
  cbn [BitWriter.writeBits]. apply IH, writeBit_wf, H.
Qed.

Lemma writeBits_written (value : Z) (width : nat) (bw : BitWriter.t) :
  wf_writer bw ->
  written (BitWriter.writeBits bw value width)
  = written bw ++ bits_of_int value width.
Proof.
  revert bw; induction width as [|w IH]; intros bw H.
  - cbn. now rewrite app_nil_r.
  - cbn [BitWriter.writeBits bits_of_int].
    rewrite IH by (apply writeBit_wf, H).
    rewrite writeBit_written by exact H.
    rewrite <- app_assoc. reflexivity.
Qed.

Lemma padding_lt (bw : BitWriter.t) : (padding bw < 8)%nat.
Proof. unfold padding. destruct (BitWriter.fill bw); lia. Qed.

Lemma bits_of_byte_shiftl (a : Z) (f : nat) :
  (0 < f < 8)%nat ->
  bits_of_byte (Z.shiftl a (Z.of_nat (8 - f)))
  = bits_of_int a f ++ repeat false (8 - f).
Proof.
  intros Hf.
  destruct f as [|[|[|[|[|[|[|[|f]]]]]]]]; try lia;
    unfold bits_of_byte; cbn [Nat.sub Z.of_nat Pos.of_succ_nat Pos.succ];
    rewrite !Z.shiftl_spec by lia; cbn [bits_of_int repeat app Z.of_nat
                                       Pos.of_succ_nat Pos.succ Z.sub Z.add
                                       Z.opp Z.pos_sub Pos.pred_double];
    rewrite ?Z.testbit_neg_r by lia; reflexivity.
Qed.

Lemma render_bits (bw : BitWriter.t) :
  wf_writer bw ->
  bits_of_bytes (BitWriter.render bw) = written bw ++ repeat false (padding bw).
Proof.
  intros (Hf & Ha & Hs). unfold BitWriter.render, written, padding.
  destruct (BitWriter.fill bw) as [|f] eqn:E.
  - cbn. now rewrite !app_nil_r.
  - rewrite bits_of_bytes_app, <- app_assoc. f_equal.
    unfold bits_of_bytes at 1. cbn [flat_map]. rewrite app_nil_r.
    apply bits_of_byte_shiftl. lia.
Qed.

Lemma render_bytes (bw : BitWriter.t) :
  wf_writer bw -> Forall is_byte (BitWriter.render bw).
Proof.
  intros (Hf & Ha & Hs). unfold BitWriter.render.
  destruct (BitWriter.fill bw) as [|f] eqn:E; [exact Hs|].
  apply Forall_app; split; [exact Hs|]. constructor; [|constructor].
  unfold is_byte. rewrite Z.shiftl_mul_pow2 by lia.
  assert (Hp : 2 ^ Z.of_nat (S f) * 2 ^ Z.of_nat (8 - S f) = 256).
  { rewrite <- Z.pow_add_r by lia.
    replace (Z.of_nat (S f) + Z.of_nat (8 - S f)) with 8 by lia. reflexivity. }
  assert (0 < 2 ^ Z.of_nat (8 - S f)) by (apply Z.pow_pos_nonneg; lia).
  nia.
Qed.

Lemma pack_bits_byte (b : Z) (rest : list bool) :
  is_byte b -> pack_bits (bits_of_byte b ++ rest) = b :: pack_bits rest.
Proof.
  intros H. unfold bits_of_byte. cbn [app pack_bits]. f_equal.
  apply (int_of_bits_byte b H).
Qed.

Lemma pack_bits_bytes (s : Buffer) (tail : list bool) :
  Forall is_byte s -> pack_bits (bits_of_bytes s ++ tail) = s ++ pack_bits tail.
Proof.
  induction 1 as [|b s Hb Hs IH]; [reflexivity|].
  unfold bits_of_bytes in *. cbn [flat_map]. rewrite <- app_assoc.
  rewrite pack_bits_byte by exact Hb. cbn [app]. f_equal. exact IH.
Qed.

Lemma pack_bits_partial (a : Z) (f : nat) :
  (0 < f < 8)%nat ->
  pack_bits (bits_of_int a f) = [int_of_bits 0 (bits_of_int a f ++ repeat false (8 - f))].
Proof.
  intros Hf.
  destruct f as [|[|[|[|[|[|[|[|f]]]]]]]]; try lia; reflexivity.
Qed.

Lemma render_pack (bw : BitWriter.t) :
  wf_writer bw -> BitWriter.render bw = pack_bits (written bw).
Proof.
  intros (Hf & Ha & Hs). unfold written.
  rewrite pack_bits_bytes by exact Hs. unfold BitWriter.render.
  destruct (BitWriter.fill bw) as [|f] eqn:E.
  - cbn. now rewrite app_nil_r.
  - f_equal. rewrite pack_bits_partial by lia. f_equal.
    rewrite int_of_bits_app, int_of_bits_of_int, int_of_bits_zeros.
    rewrite Z.mod_small by exact Ha.
    rewrite Z.shiftl_mul_pow2 by lia. lia.
Qed.

(** ** The Rice codec *)

(** Reassembling a number from its quotient and remainder by [2^P]. *)
Lemma lor_shift_mod (v P : Z) :
  0 <= P -> Z.lor (Z.shiftl (Z.shiftr v P) P) (v mod 2 ^ P) = v.
Proof.
  intros HP. apply Z.bits_inj'. intros k Hk.
  rewrite Z.lor_spec.
  destruct (Z.lt_ge_cases k P) as [Hlt|Hge].
  - rewrite Z.shiftl_spec_low by exact Hlt.
    rewrite Z.mod_pow2_bits_low by exact Hlt. reflexivity.
  - rewrite Z.shiftl_spec_high by lia.
    rewrite Z.shiftr_spec by lia.
    rewrite Z.mod_pow2_bits_high by lia.
    rewrite orb_false_r. f_equal. lia.
Qed.

Lemma shiftr_range (v P : Z) :
  0 <= P -> 0 <= v < 2 ^ 64 -> 0 <= Z.shiftr v P < 2 ^ 64.
Proof.
  intros HP Hv. rewrite Z.shiftr_div_pow2 by exact HP.
  assert (0 < 2 ^ P) by (apply Z.pow_pos_nonneg; lia).
  split; [apply Z.div_pos; lia|].
  apply Z.div_lt_upper_bound; [lia | nia].
Qed.

Lemma shiftl_shiftr_le (v P : Z) :
  0 <= P -> 0 <= v -> 0 <= Z.shiftl (Z.shiftr v P) P <= v.
Proof.
  intros HP Hv.
  rewrite Z.shiftl_mul_pow2, Z.shiftr_div_pow2 by exact HP.
  assert (H2 : 0 < 2 ^ P) by (apply Z.pow_pos_nonneg; lia).
  pose proof (Z.div_mod v (2 ^ P)) as E.
  pose proof (Z.mod_pos_bound v (2 ^ P) H2) as B.
  assert (0 <= v / 2 ^ P) by (apply Z.div_pos; lia).
  nia.
Qed.

Lemma count_up_S (k : nat) (num : Z) :
  count_up (S k) num = U64.addn (count_up k num) 1.
Proof. reflexivity. Qed.

Lemma count_up_small (k : nat) :
  Z.of_nat k < 2 ^ 64 -> count_up k 0 = Z.of_nat k.
Proof.
  induction k as [|k IH]; intros H; [reflexivity|].
  rewrite count_up_S, IH by lia.
  unfold U64.addn. rewrite U64_wrap_small by lia. lia.
Qed.

Lemma count_up_shift (k : nat) (num : Z) :
  count_up k (U64.addn num 1) = count_up (S k) num.
Proof.
  induction k as [|k IH]; [reflexivity|].
  rewrite count_up_S, IH. reflexivity.
Qed.

Lemma pending_after_unary (br : BitReader.t) (k : nat) (rest : list bool) :
  pending br = repeat true k ++ false :: rest ->
  pending (advance br (S k)) = rest.
Proof.
  intros Hp.
  pose proof (pending_advance br (repeat true k ++ [false]) rest) as H.
  rewrite <- app_assoc, length_app, repeat_length in H.
  cbn [length app] in H. rewrite Nat.add_1_r in H. exact (H Hp).
Qed.

Section Decode.

Variable this : Golomb.t.

Lemma read_unary_ok (k : nat) (rest : list bool) :
  forall (fuel : nat) (br : BitReader.t) (num : Z),
    pending br = repeat true k ++ false :: rest ->
    (k < fuel)%nat ->
    Golomb.read_unary fuel br num = Ok (count_up k num, advance br (S k)).
Proof.
  induction k as [|k IH]; intros fuel br num Hp Hf;
    (destruct fuel as [|fuel]; [lia|]); cbn [Golomb.read_unary].
  - rewrite (readBit_cons br false rest) by exact Hp. reflexivity.
  - cbn [repeat app] in Hp.
    rewrite (readBit_cons br true _ Hp). cbn [bind].
    rewrite (IH fuel (advance br 1) (U64.addn num 1)).
    + rewrite advance_advance, count_up_shift. reflexivity.
    + apply (pending_advance br [true]). exact Hp.
    + lia.
Qed.

Lemma read_unary_eof (k : nat) :
  forall (fuel : nat) (br : BitReader.t) (num : Z),
    pending br = repeat true k ->
    Golomb.read_unary fuel br num = Throw ErrEOF.
Proof.
  induction k as [|k IH]; intros fuel br num Hp;
    (destruct fuel as [|fuel]; [reflexivity|]); cbn [Golomb.read_unary].
  - rewrite readBit_nil by exact Hp. reflexivity.
  - cbn [repeat] in Hp.
    rewrite (readBit_cons br true _ Hp). cbn [bind].
    apply IH. apply (pending_advance br [true]). exact Hp.
Qed.

Hypothesis p_range : 0 <= Golomb.p this <= 32.

(** A complete code is decoded, and the reader moves past it. *)
Lemma _readU64_ok (br : BitReader.t) (k : nat) (bs rest : list bool) :
  pending br = repeat true k ++ false :: bs ++ rest ->
  length bs = Z.to_nat (Golomb.p this) ->
  Golomb._readU64 this br
  = Ok (U64.or (U64.shln (count_up k 0) (Golomb.p this)) (int_of_bits 0 bs),
        advance br (S k + length bs)).
Proof.
  intros Hp Hl. unfold Golomb._readU64.
  rewrite (read_unary_ok k (bs ++ rest)); [|exact Hp|].
  2:{ rewrite <- pending_length, Hp, length_app, repeat_length. lia. }
  cbn [bind]. unfold BitReader.readBits64.
  destruct (Z.leb_spec 0 (Golomb.p this)); [|lia].
  destruct (Z.leb_spec (Golomb.p this) 64); [|lia].
  cbn [assert bind]. rewrite <- Hl.
  rewrite (readBits_app bs rest).
  - cbn [bind]. rewrite advance_advance. reflexivity.
  - apply (pending_after_unary br k). exact Hp.
Qed.

(** The stream ends inside the unary run. *)
Lemma _readU64_eof_unary (br : BitReader.t) (k : nat) :
  pending br = repeat true k -> Golomb._readU64 this br = Throw ErrEOF.
Proof.
  intros Hp. unfold Golomb._readU64.
  rewrite (read_unary_eof k) by exact Hp. reflexivity.
Qed.

(** The stream ends inside the remainder field. *)
Lemma _readU64_eof_rem (br : BitReader.t) (k : nat) (rest : list bool) :
  pending br = repeat true k ++ false :: rest ->
  (length rest < Z.to_nat (Golomb.p this))%nat ->
  Golomb._readU64 this br = Throw ErrEOF.
Proof.
  intros Hp Hl. unfold Golomb._readU64.
  rewrite (read_unary_ok k rest); [|exact Hp|].
  2:{ rewrite <- pending_length, Hp, length_app, repeat_length. lia. }
  cbn [bind]. unfold BitReader.readBits64.
  destruct (Z.leb_spec 0 (Golomb.p this)); [|lia].
  destruct (Z.leb_spec (Golomb.p this) 64); [|lia].
  cbn [assert bind]. rewrite readBits_short; [reflexivity|].
  rewrite (pending_after_unary br k rest Hp). exact Hl.
Qed.

(** Decoding the Rice code of [v] gives [v] back. *)
Lemma _readU64_rice (br : BitReader.t) (v : Z) (rest : list bool) :
  0 <= v < 2 ^ 64 ->
  pending br = rice_code (Golomb.p this) v ++ rest ->
  Golomb._readU64 this br
  = Ok (v, advance br (length (rice_code (Golomb.p this) v))).
Proof.
  intros Hv Hp. unfold rice_code in *.
  set (P := Golomb.p this) in *.
  pose proof (shiftr_range v P ltac:(lia) Hv) as Hq.
  rewrite <- !app_assoc in Hp. cbn [app] in Hp.
  rewrite (_readU64_ok br _ _ rest Hp) by apply bits_of_int_length.
  f_equal. f_equal.
  - rewrite count_up_small by (rewrite Z2Nat.id; lia).
    rewrite Z2Nat.id by lia.
    unfold U64.or, U64.shln. fold P. rewrite land_63_small by lia.
    pose proof (shiftl_shiftr_le v P ltac:(lia) ltac:(lia)).
    rewrite U64_wrap_small by lia.
    rewrite int_of_bits_of_int, Z2Nat.id by lia.
    rewrite Z.mul_0_l, Z.add_0_l. apply lor_shift_mod. lia.
  - rewrite !length_app, repeat_length. cbn [length].
    f_equal. lia.
Qed.

End Decode.

(** ** Encoding *)

Lemma write_unary_ok (fuel : nat) :
  forall (bw : BitWriter.t) (value : Z),
    wf_writer bw -> value = Z.of_nat fuel -> value < 2 ^ 64 ->
    wf_writer (Golomb.write_unary fuel bw value)
    /\ written (Golomb.write_unary fuel bw value) = written bw ++ repeat true fuel.
Proof.
  induction fuel as [|fuel IH]; intros bw value Hw Hv Hlt.
  - cbn. rewrite app_nil_r. split; [exact Hw | reflexivity].
  - cbn [Golomb.write_unary]. unfold U64.isZero.
    destruct (Z.eqb_spec value 0) as [E|E]; [lia|].
    destruct (IH (BitWriter.writeBit bw true) (U64.subn value 1)) as [Hw' Hb].
    + apply writeBit_wf, Hw.
    + unfold U64.subn. rewrite U64_wrap_small by lia. lia.
    + unfold U64.subn. rewrite U64_wrap_small by lia. lia.
    + split; [exact Hw'|]. rewrite Hb, writeBit_written by exact Hw.
      rewrite <- app_assoc. reflexivity.
Qed.

(** One turn of the build loop appends the Rice code of [hash - last]. *)
Lemma encode_ok (P : Z) (bw : BitWriter.t) (last hash : Z) :
  0 <= P <= 32 -> 0 <= last <= hash -> hash < 2 ^ 64 -> wf_writer bw ->
  exists bw',
    Golomb.encode P (bw, last) hash = Ok (bw', hash)
    /\ wf_writer bw'
    /\ written bw' = written bw ++ rice_code P (hash - last).
Proof.
  intros HP Hl Hh Hw. unfold Golomb.encode.
  set (d := hash - last).
  assert (Hd : 0 <= d < 2 ^ 64) by (unfold d; lia).
  assert (Es : U64.sub hash last = d)
    by (unfold U64.sub; apply U64_wrap_small; exact Hd).
  rewrite Es.
  assert (H2 : 0 < 2 ^ P) by (apply Z.pow_pos_nonneg; lia).
  assert (Er : U64.maskn d P = d mod 2 ^ P)
    by (unfold U64.maskn; apply Z.land_ones; lia).
  rewrite Er.
  pose proof (Z.mod_pos_bound d (2 ^ P) H2) as Hm.
  pose proof (Z.div_mod d (2 ^ P) ltac:(lia)) as Hdm.
  pose proof (Z.mod_le d (2 ^ P) ltac:(lia) H2) as Hle.
  assert (Eq : U64.shrn (U64.sub d (d mod 2 ^ P)) P = Z.shiftr d P).
  { unfold U64.shrn, U64.sub. rewrite U64_wrap_small by lia.
    rewrite land_63_small by lia.
    rewrite !Z.shiftr_div_pow2 by lia.
    replace (d - d mod 2 ^ P) with (d / 2 ^ P * 2 ^ P) by lia.
    apply Z.div_mul. lia. }
  rewrite Eq.
  pose proof (shiftr_range d P ltac:(lia) Hd) as Hq.
  destruct (write_unary_ok (Z.to_nat (Z.shiftr d P)) bw (Z.shiftr d P))
    as [Hw1 Hb1]; [exact Hw | lia | lia |].
  set (bw1 := Golomb.write_unary (Z.to_nat (Z.shiftr d P)) bw (Z.shiftr d P)) in *.
  unfold BitWriter.writeBits64.
  destruct (Z.leb_spec 0 P); [|lia].
  destruct (Z.leb_spec P 64); [|lia].
  cbn [assert bind].
  eexists. split; [reflexivity|].
  assert (Hw2 : wf_writer (BitWriter.writeBit bw1 false))
    by (apply writeBit_wf, Hw1).
  split; [apply writeBits_wf, Hw2|].
  rewrite writeBits_written by exact Hw2.
  rewrite writeBit_written by exact Hw1.
  rewrite Hb1. unfold rice_code. rewrite <- !app_assoc. cbn [app].
  do 3 f_equal.
  rewrite <- (bits_of_int_mod d (Z.to_nat P) (Z.to_nat P)) by lia.
  rewrite Z2Nat.id by lia. reflexivity.
Qed.

Lemma encode_all_ok (P : Z) (hs : list Z) :
  0 <= P <= 32 ->
  forall (bw : BitWriter.t) (last : Z),
    0 <= last -> ascending last hs -> Forall (fun h => h < 2 ^ 64) hs ->
    wf_writer bw ->
    exists bw' last',
      Golomb.encode_all P (bw, last) hs = Ok (bw', last')
      /\ wf_writer bw'
      /\ written bw' = written bw ++ flat_map (rice_code P) (deltas last hs).
Proof.
  intros HP. induction hs as [|h hs IH]; intros bw last Hl Ha Hb Hw.
  - exists bw, last. cbn. rewrite app_nil_r. auto.
  - destruct Ha as [Hlh Ha]. inversion Hb as [|? ? Hh Hb']; subst.
    destruct (encode_ok P bw last h HP ltac:(lia) Hh Hw) as (bw1 & E1 & Hw1 & Hb1).
    destruct (IH bw1 h ltac:(lia) Ha Hb' Hw1) as (bw2 & last2 & E2 & Hw2 & Hb2).
    exists bw2, last2. cbn [Golomb.encode_all]. rewrite E1. cbn [bind].
    split; [exact E2|]. split; [exact Hw2|].
    rewrite Hb2, Hb1. cbn [deltas flat_map]. rewrite <- app_assoc. reflexivity.
Qed.

(** ** Sorting and sets of buffers *)

Lemma sorted_ascending (l : list Z) (lo : Z) :
  Sorted (fun x y => is_true (ZOrder.leb x y)) l ->
  Forall (fun x => lo <= x) l ->
  ascending lo l.
Proof.
  intros Hs. revert lo. induction Hs as [|a l Hs IH Hhd]; intros lo Hlo; [exact I|].
  inversion Hlo as [|? ? Ha Hl]; subst. cbn. split; [lia|].
  destruct l as [|b l]; [exact I|].
  inversion Hhd as [|? ? Hab]; subst. unfold ZOrder.leb, is_true in Hab.
  apply Z.leb_le in Hab.
  apply IH. clear IH Hlo Hhd.
  apply Sorted_StronglySorted in Hs.
  - inversion Hs as [|? ? _ Hall]; subst. constructor; [exact Hab|].
    eapply Forall_impl; [|exact Hall]. intros x Hx.
    unfold ZOrder.leb, is_true in Hx. apply Z.leb_le in Hx. lia.
  - intros x y z Hxy Hyz. unfold ZOrder.leb, is_true in *.
    rewrite Z.leb_le in *. lia.
Qed.

Lemma sort_Forall (Q : Z -> Prop) (l : list Z) :
  Forall Q l -> Forall Q (ZSort.sort l).
Proof.
  intros H. rewrite Forall_forall in *. intros x Hx. apply H.
  eapply Permutation_in; [|exact Hx].
  apply Permutation_sym, ZSort.Permuted_sort.
Qed.

Lemma sort_ascending (l : list Z) (lo : Z) :
  Forall (fun x => lo <= x) l -> ascending lo (ZSort.sort l).
Proof.
  intros H. apply sorted_ascending; [apply ZSort.Sorted_sort|].
  apply sort_Forall, H.
Qed.

Lemma ascending_unique (lo : Z) (l1 : list Z) :
  forall l2, ascending lo l1 -> ascending lo l2 -> Permutation l1 l2 -> l1 = l2.
Proof.
  revert lo. induction l1 as [|a l1 IH]; intros lo l2 H1 H2 Hp.
  - apply Permutation_nil in Hp. now subst.
  - destruct l2 as [|b l2];
      [apply Permutation_sym, Permutation_nil in Hp; discriminate|].
    destruct H1 as [Ha H1], H2 as [Hb H2].
    assert (Hall : forall lo l, ascending lo l -> Forall (fun x => lo <= x) l).
    { clear. intros lo l; revert lo; induction l as [|x l IHl]; intros lo H;
        [constructor|]. destruct H as [Hx H]. constructor; [exact Hx|].
      eapply Forall_impl; [|apply IHl, H]. intros; cbn in *; lia. }
    assert (Eab : a = b).
    { assert (Hina : In a (b :: l2))
        by (eapply Permutation_in; [exact Hp | left; reflexivity]).
      assert (Hinb : In b (a :: l1))
        by (eapply Permutation_in; [apply Permutation_sym, Hp | left; reflexivity]).
      pose proof (Hall _ _ H1) as F1. pose proof (Hall _ _ H2) as F2.
      rewrite Forall_forall in F1, F2.
      destruct Hina as [E|Hina]; [now subst|].
      destruct Hinb as [E|Hinb]; [now subst|].
      specialize (F1 _ Hinb). specialize (F2 _ Hina). cbn in *. lia. }
    subst b. f_equal.
    apply (IH a); [exact H1 | exact H2 |].
    eapply Permutation_cons_inv, Hp.
Qed.

Lemma sort_permutation_eq (l1 l2 : list Z) :
  Permutation l1 l2 -> ZSort.sort l1 = ZSort.sort l2.
Proof.
  intros Hp.
  assert (Hb : exists lo, Forall (fun x => lo <= x) l1).
  { clear Hp. induction l1 as [|a l IH]; [exists 0; constructor|].
    destruct IH as [lo Hlo]. exists (Z.min a lo). constructor; [lia|].
    eapply Forall_impl; [|exact Hlo]. intros; cbn in *; lia. }
  destruct Hb as [lo Hlo].
  apply (ascending_unique lo).
  - apply sort_ascending, Hlo.
  - apply sort_ascending. rewrite Forall_forall in *. intros x Hx.
    apply Hlo. eapply Permutation_in; [apply Permutation_sym, Hp | exact Hx].
  - eapply Permutation_trans; [apply Permutation_sym, ZSort.Permuted_sort|].
    eapply Permutation_trans; [exact Hp | apply ZSort.Permuted_sort].
Qed.

Lemma BufferSet_add_spec (s : BufferSet.t) (item x : Buffer) :
  In x (BufferSet.add s item) <-> In x s \/ x = item.
Proof.
  unfold BufferSet.add, BufferSet.has.
  destruct (in_dec Buffer_eq_dec item s) as [Hin|Hin].
  - split; [auto|]. intros [H|H]; [exact H | now subst].
  - rewrite in_app_iff. cbn. intuition.
Qed.

Lemma BufferSet_add_NoDup (s : BufferSet.t) (item : Buffer) :
  NoDup s -> NoDup (BufferSet.add s item).
Proof.
  intros H. unfold BufferSet.add, BufferSet.has.
  destruct (in_dec Buffer_eq_dec item s) as [Hin|Hin]; [exact H|].
  apply NoDup_app; [exact H | repeat constructor; intros [] | ].
  intros x Hx [E|[]]. now subst.
Qed.

Lemma BufferSet_fold_spec (items : list Buffer) :
  forall (s : BufferSet.t) (x : Buffer),
    In x (fold_left BufferSet.add items s) <-> In x s \/ In x items.
Proof.
  induction items as [|a items IH]; intros s x; cbn [fold_left].
  - cbn. tauto.
  - rewrite IH, BufferSet_add_spec. cbn. intuition.
Qed.

Lemma BufferSet_fold_NoDup (items : list Buffer) :
  forall s : BufferSet.t, NoDup s -> NoDup (fold_left BufferSet.add items s).
Proof.
  induction items as [|a items IH]; intros s H; cbn [fold_left]; [exact H|].
  apply IH, BufferSet_add_NoDup, H.
Qed.

Lemma BufferSet_from_In (items : list Buffer) (x : Buffer) :
  In x (BufferSet.from items) <-> In x items.
Proof. unfold BufferSet.from. rewrite BufferSet_fold_spec. cbn. tauto. Qed.

Lemma BufferSet_from_NoDup (items : list Buffer) : NoDup (BufferSet.from items).
Proof. apply BufferSet_fold_NoDup. constructor. Qed.

(** ** The build path *)

Section Filter.

Variable siphash : Buffer -> Buffer -> Z.
Hypothesis siphash_range : forall data key, 0 <= siphash data key < 2 ^ 64.

Variable digest : Buffer -> Buffer.

Local Abbreviation sipmod64 := (Golomb.sipmod64 siphash).
Local Abbreviation fromItems := (Golomb.fromItems siphash).
Local Abbreviation static_fromItems := (Golomb.static_fromItems siphash).
Local Abbreviation match_ := (Golomb.match_ siphash).
Local Abbreviation matchAny := (Golomb.matchAny siphash).

Lemma sipmod64_le (data key : Buffer) (m : Z) :
  0 <= m < 2 ^ 64 -> 0 <= sipmod64 data key m <= m.
Proof.
  intros Hm. rewrite sipmod64_eq by (exact siphash_range || exact Hm).
  pose proof (siphash_range data key) as Hs. split.
  - apply Z.div_pos; [nia | lia].
  - apply Z.div_le_upper_bound; [lia | nia].
Qed.

Lemma modulus_small (N : Z) :
  0 <= N <= 0xffffffff ->
  U64.mul Golomb.M (U64.wrap N) = 784931 * N /\ 0 <= 784931 * N < 2 ^ 64.
Proof.
  intros HN. unfold U64.mul, Golomb.M.
  rewrite (U64_wrap_small N) by lia.
  assert (0 <= 784931 * N < 2 ^ 64) by lia.
  rewrite U64_wrap_small by assumption. auto.
Qed.

(** On valid arguments [fromItems] returns, and leaves in [this] the
    filter that section 4.4 describes, whatever [this] held before. *)
Lemma fromItems_build (P : Z) (key : Buffer) (items : list Buffer) (this : Golomb.t) :
  0 <= P <= 32 ->
  length key = 16%nat ->
  BufferSet.size (BufferSet.from items) <= 0xffffffff ->
  fromItems P key items this = (Spec.build sipmod64 P key items, Ok tt).
Proof.
  intros HP Hk Hn.
  set (iset := BufferSet.from items) in *.
  set (N := BufferSet.size iset) in *.
  assert (HN0 : 0 <= N) by (unfold N, BufferSet.size; lia).
  destruct (modulus_small N ltac:(lia)) as [Em Hm].
  unfold Golomb.fromItems, Golomb.mbind, Golomb.lift, Golomb.assign, Golomb.get.
  fold iset. fold N.
  replace ((0 <=? P) && (P <=? 32)) with true
    by (symmetry; apply andb_true_intro; split; apply Z.leb_le; lia).
  replace (Z.of_nat (length key) =? 16) with true
    by (symmetry; apply Z.eqb_eq; lia).
  replace (0 <=? N) with true by (symmetry; apply Z.leb_le; lia).
  replace (N <=? 0xffffffff) with true by (symmetry; apply Z.leb_le; lia).
  cbn [assert Golomb.n Golomb.p Golomb.m Golomb.data].
  rewrite Em.
  set (values := ZSort.sort (map (fun item => sipmod64 item key (784931 * N)) iset)).
  assert (Hrange : Forall (fun h => 0 <= h < 2 ^ 64) values).
  { apply sort_Forall, Forall_forall. intros h Hh.
    apply in_map_iff in Hh as (item & <- & _).
    pose proof (sipmod64_le item key (784931 * N) Hm). lia. }
  destruct (encode_all_ok P values HP BitWriter.new 0 ltac:(lia))
    as (bw & last & E & Hw & Hb).
  - apply sort_ascending, Forall_forall. intros h Hh.
    apply in_map_iff in Hh as (item & <- & _).
    apply (sipmod64_le item key (784931 * N) Hm).
  - eapply Forall_impl; [|exact Hrange]. intros; cbn in *; lia.
  - apply wf_writer_new.
  - rewrite E. cbn [fst].
    rewrite render_pack by exact Hw. rewrite Hb.
    unfold Spec.build, Spec.hashes. reflexivity.
Qed.

Lemma static_fromItems_build (P : Z) (key : Buffer) (items : list Buffer) :
  0 <= P <= 32 ->
  length key = 16%nat ->
  BufferSet.size (BufferSet.from items) <= 0xffffffff ->
  static_fromItems P key items = Ok (Spec.build sipmod64 P key items).
Proof.
  intros HP Hk Hn. unfold Golomb.static_fromItems, Golomb.static.
  rewrite fromItems_build by assumption. reflexivity.
Qed.

(** A filter comes out of [fromItems] only when the arguments were valid. *)
Lemma static_fromItems_inv (P : Z) (key : Buffer) (items : list Buffer) (g : Golomb.t) :
  static_fromItems P key items = Ok g ->
  0 <= P <= 32 /\ length key = 16%nat
  /\ BufferSet.size (BufferSet.from items) <= 0xffffffff.
Proof.
  unfold Golomb.static_fromItems, Golomb.static, Golomb.fromItems,
    Golomb.mbind, Golomb.lift.
  destruct ((0 <=? P) && (P <=? 32)) eqn:E1; cbn [assert]; [|discriminate].
  destruct (Z.of_nat (length key) =? 16) eqn:E2; cbn [assert]; [|discriminate].
  destruct (0 <=? BufferSet.size (BufferSet.from items)) eqn:E3;
    cbn [assert]; [|discriminate].
  destruct (BufferSet.size (BufferSet.from items) <=? 0xffffffff) eqn:E4;
    cbn [assert]; [|discriminate].
  intros _. apply andb_prop in E1 as [E1 E1'].
  apply Z.leb_le in E1, E1', E4. apply Z.eqb_eq in E2. lia.
Qed.

Lemma hashes_range (key : Buffer) (items : list Buffer) :
  BufferSet.size (BufferSet.from items) <= 0xffffffff ->
  Forall (fun h => 0 <= h < 784931 * Z.of_nat (length (BufferSet.from items)))
         (Spec.hashes sipmod64 key items).
Proof.
  intros Hn. unfold Spec.hashes. apply sort_Forall, Forall_forall.
  intros h Hh. apply in_map_iff in Hh as (item & <- & Hin).
  apply sipmod64_range; [exact siphash_range|].
  unfold BufferSet.size in Hn.
  destruct (BufferSet.from items) as [|x l]; [destruct Hin|].
  cbn [length] in *. lia.
Qed.


(** C10.  Building deduplicates: any duplicate-free collection with the
    same byte strings as the input gives the same outcome, on every
    instance, and the item count of the filter is the number of distinct
    byte strings.  For a valid [P], a key of 16 bytes and at most [2^32 - 1]
    distinct byte strings the build succeeds: the input and the duplicate-
    free collection both produce one and the same filter, whose item count
    is the number of distinct byte strings and whose modulus follows from
    that count. *)
Theorem fromItems_dedup (P : Z) (key : Buffer) (items items' : list Buffer)
        (this : Golomb.t) :
  NoDup items' ->
  (forall x, In x items <-> In x items') ->
  fromItems P key items this = fromItems P key items' this
  /\ static_fromItems P key items = static_fromItems P key items'
  /\ (forall g, static_fromItems P key items = Ok g ->
                Golomb.n g = Z.of_nat (length items'))
  /\ (0 <= P <= 32 ->
      length key = 16%nat ->
      Z.of_nat (length items') <= 0xffffffff ->
      exists g,
        fromItems P key items this = (g, Ok tt)
        /\ fromItems P key items' this = (g, Ok tt)
        /\ static_fromItems P key items = Ok g
        /\ static_fromItems P key items' = Ok g
        /\ Golomb.n g = Z.of_nat (length items')
        /\ Golomb.p g = P
        /\ Golomb.m g = 784931 * Z.of_nat (length items')).
Proof.
  intros Hnd Hsame.
  assert (Hperm : Permutation (BufferSet.from items) (BufferSet.from items')).
  { apply NoDup_Permutation; try apply BufferSet_from_NoDup.
    intros x. rewrite !BufferSet_from_In. apply Hsame. }
  assert (Hperm' : Permutation (BufferSet.from items) items').
  { apply NoDup_Permutation; [apply BufferSet_from_NoDup | exact Hnd |].
    intros x. rewrite BufferSet_from_In. apply Hsame. }
  assert (Hsize : BufferSet.size (BufferSet.from items)
                  = BufferSet.size (BufferSet.from items')).
  { unfold BufferSet.size. f_equal. apply Permutation_length, Hperm. }
  assert (Hsort : forall m,
             ZSort.sort (map (fun item => sipmod64 item key m) (BufferSet.from items))
             = ZSort.sort (map (fun item => sipmod64 item key m) (BufferSet.from items'))).
  { intros m. apply sort_permutation_eq, Permutation_map, Hperm. }
  assert (Heq : forall that, fromItems P key items that = fromItems P key items' that).
  { intros that.
    unfold Golomb.fromItems, Golomb.mbind, Golomb.lift, Golomb.assign, Golomb.get.
    rewrite <- Hsize.
    destruct (assert ((0 <=? P) && (P <=? 32))); [|reflexivity].
    destruct (assert (Z.of_nat (length key) =? 16)); [|reflexivity].
    destruct (assert (0 <=? BufferSet.size (BufferSet.from items))); [|reflexivity].
    destruct (assert (BufferSet.size (BufferSet.from items) <=? 0xffffffff));
      [|reflexivity].
    cbn [Golomb.n Golomb.p Golomb.m Golomb.data].
    rewrite Hsort. reflexivity. }
  assert (Hstatic : static_fromItems P key items = static_fromItems P key items').
  { unfold Golomb.static_fromItems, Golomb.static. now rewrite Heq. }
  assert (Hcount : BufferSet.size (BufferSet.from items) = Z.of_nat (length items')).
  { unfold BufferSet.size. f_equal. apply Permutation_length, Hperm'. }
  split; [apply Heq|].
  split; [exact Hstatic|].
  split.
  - intros g Hg.
    destruct (static_fromItems_inv _ _ _ _ Hg) as (HP & Hk & Hn).
    rewrite static_fromItems_build in Hg by assumption.
    injection Hg as <-. cbn [Spec.build Golomb.n]. exact Hcount.
  - intros HP Hk Hn. rewrite <- Hcount in Hn.
    exists (Spec.build sipmod64 P key items).
    split; [now apply fromItems_build|].
    split; [rewrite <- Heq; now apply fromItems_build|].
    split; [now apply static_fromItems_build|].
    split; [rewrite <- Hstatic; now apply static_fromItems_build|].
    cbn [Spec.build Golomb.n Golomb.p Golomb.m].
    unfold BufferSet.size in Hcount.
    split; [exact Hcount|]. split; [reflexivity|].
    rewrite Hcount. reflexivity.
Qed.

(** C8.  Invalid parameters are rejected: [fromItems] throws, leaving the
    instance as it was and giving the static method no filter to return,
    when [P] is outside [0, 32], the key is not 16 bytes long or there
    are more than [2^32 - 1] items; [matchAny] throws on the empty target
    set. *)
Theorem invalid_arguments_rejected (P : Z) (key : Buffer) (items : list Buffer)
        (this : Golomb.t) :
  P < 0 \/ 32 < P \/ length key <> 16%nat
  \/ 0xffffffff < BufferSet.size (BufferSet.from items) ->
  fromItems P key items this = (this, Throw AssertionError)
  /\ static_fromItems P key items = Throw AssertionError
  /\ matchAny this key [] = Throw AssertionError.
Proof.
  intros H.
  assert (E : forall that, fromItems P key items that = (that, Throw AssertionError)).
  { intros that. unfold Golomb.fromItems, Golomb.mbind, Golomb.lift.
    destruct ((0 <=? P) && (P <=? 32)) eqn:E1; cbn [assert]; [|reflexivity].
    destruct (Z.of_nat (length key) =? 16) eqn:E2; cbn [assert]; [|reflexivity].
    destruct (0 <=? BufferSet.size (BufferSet.from items)) eqn:E3;
      cbn [assert]; [|reflexivity].
    destruct (BufferSet.size (BufferSet.from items) <=? 0xffffffff) eqn:E4;
      cbn [assert]; [|reflexivity].
    apply andb_prop in E1 as [E1 E1'].
    apply Z.leb_le in E1, E1', E4. apply Z.eqb_eq in E2. lia. }
  split; [apply E|]. split; [|reflexivity].
  unfold Golomb.static_fromItems, Golomb.static. rewrite E. reflexivity.
Qed.

(** ** Decoding and the end of the stream *)

Lemma ones_split (l : list bool) :
  (exists k, l = repeat true k)
  \/ (exists k rest, l = repeat true k ++ false :: rest).
Proof.
  induction l as [|b l IH]; [left; now exists 0%nat|].
  destruct b.
  - destruct IH as [[k ->]|(k & rest & ->)].
    + left. now exists (S k).
    + right. now exists (S k), rest.
  - right. now exists 0%nat, l.
Qed.

(** The unary run never runs out of turns: any number of turns above the
    bits left gives the same result. *)
Lemma read_unary_fuel (f1 f2 : nat) (br : BitReader.t) (num : Z) :
  (BitReader.bits_left br < f1)%nat -> (BitReader.bits_left br < f2)%nat ->
  Golomb.read_unary f1 br num = Golomb.read_unary f2 br num.
Proof.
  intros H1 H2. rewrite <- pending_length in H1, H2.
  destruct (ones_split (pending br)) as [[k E]|(k & rest & E)].
  - now rewrite !(read_unary_eof k _ _ _ E).
  - rewrite E, length_app, repeat_length in H1, H2.
    rewrite !(read_unary_ok k rest _ _ _ E) by lia. reflexivity.
Qed.

(** [readU64] never lets an exception through: it hands back [EOF] or a
    decoded number. *)
Lemma readU64_total (this : Golomb.t) (br : BitReader.t) :
  0 <= Golomb.p this <= 32 ->
  Golomb.readU64 this br = Ok Golomb.EOF
  \/ exists value br', Golomb.readU64 this br = Ok (Golomb.Value value br').
Proof.
  intros HP. unfold Golomb.readU64.
  destruct (ones_split (pending br)) as [[k E]|(k & rest & E)].
  - rewrite (_readU64_eof_unary this br k E). now left.
  - destruct (Nat.lt_ge_cases (length rest) (Z.to_nat (Golomb.p this))) as [Hl|Hl].
    + rewrite (_readU64_eof_rem this HP br k rest E Hl). now left.
    + rewrite <- (firstn_skipn (Z.to_nat (Golomb.p this)) rest) in E.
      rewrite (_readU64_ok this HP br k _ _ E)
        by (apply firstn_length_le; exact Hl).
      right. eauto.
Qed.

Lemma match_loop_total (this : Golomb.t) (fuel : nat) :
  0 <= Golomb.p this <= 32 ->
  forall br last term, exists b, Golomb.match_loop fuel this br last term = Ok b.
Proof.
  intros HP. induction fuel as [|fuel IH]; intros br last term;
    cbn [Golomb.match_loop]; [now exists false|].
  destruct (U64.lt last term); [|now exists false].
  destruct (readU64_total this br HP) as [E|(value & br' & E)];
    rewrite E; cbn [bind]; [now exists false|].
  destruct (U64.eq (U64.add value last) term); [now exists true|].
  apply IH.
Qed.

Lemma matchAny_loop_total (this : Golomb.t) (fuel : nat) :
  0 <= Golomb.p this <= 32 ->
  forall br values last1 last2 i,
  exists b, Golomb.matchAny_loop fuel this br values last1 last2 i = Ok b.
Proof.
  intros HP. induction fuel as [|fuel IH]; intros br values last1 last2 i;
    cbn [Golomb.matchAny_loop]; [now exists false|].
  destruct (U64.cmp last1 last2); [now exists true| |].
  - destruct (readU64_total this br HP) as [E|(value & br' & E)];
      rewrite E; cbn [bind]; [now exists false|]. apply IH.
  - destruct (Nat.ltb i (length values)); [apply IH | now exists false].
Qed.

(** C7.  End-of-stream is a sentinel, not a fault.  With a valid [P],
    [readU64] never throws; it reports [EOF] whenever the stream runs out
    inside the unary run or inside the remainder field; the loops of
    [match] and [matchAny] stop with [false] when they decode [EOF]; and
    both queries always return a boolean. *)
Theorem eof_is_sentinel (this : Golomb.t) (br : BitReader.t) :
  0 <= Golomb.p this <= 32 ->
  (Golomb.readU64 this br = Ok Golomb.EOF
   \/ exists value br', Golomb.readU64 this br = Ok (Golomb.Value value br'))
  /\ (Golomb._readU64 this br = Throw ErrEOF ->
      Golomb.readU64 this br = Ok Golomb.EOF)
  /\ (forall k, pending br = repeat true k ->
                Golomb.readU64 this br = Ok Golomb.EOF)
  /\ (forall k rest,
         pending br = repeat true k ++ false :: rest ->
         (length rest < Z.to_nat (Golomb.p this))%nat ->
         Golomb.readU64 this br = Ok Golomb.EOF)
  /\ (Golomb.readU64 this br = Ok Golomb.EOF ->
      forall fuel last term values last1 last2 i,
        Golomb.match_loop (S fuel) this br last term = Ok false
        /\ (last1 < last2 ->
            Golomb.matchAny_loop (S fuel) this br values last1 last2 i = Ok false))
  /\ (forall key data, exists b, match_ this key data = Ok b)
  /\ (forall key targets,
         BufferSet.from targets <> [] ->
         exists b, matchAny this key targets = Ok b).
Proof.
  intros HP.
  split; [apply readU64_total, HP|].
  split; [intros E; unfold Golomb.readU64; now rewrite E|].
  split; [intros k E; unfold Golomb.readU64;
          now rewrite (_readU64_eof_unary this br k E)|].
  split; [intros k rest E Hl; unfold Golomb.readU64;
          now rewrite (_readU64_eof_rem this HP br k rest E Hl)|].
  split.
  - intros E fuel last term values last1 last2 i. split.
    + cbn [Golomb.match_loop]. rewrite E. cbn [bind].
      destruct (U64.lt last term); reflexivity.
    + intros Hlt. cbn [Golomb.matchAny_loop]. unfold U64.cmp.
      rewrite (proj2 (Z.compare_lt_iff last1 last2) Hlt).
      rewrite E. reflexivity.
  - split.
    + intros key data. unfold Golomb.match_. apply match_loop_total, HP.
    + intros key targets Hne. unfold Golomb.matchAny.
      destruct (BufferSet.from targets) as [|x l] eqn:E; [now destruct Hne|].
      unfold BufferSet.size. cbn [length assert bind].
      replace (0 <? Z.of_nat (S (length l))) with true
        by (symmetry; apply Z.ltb_lt; lia).
      cbn [bind]. apply matchAny_loop_total, HP.
Qed.

(** ** The Rice codec *)

(** C6.  The Rice codec is an inverse pair: for [P] in [0, 32] and a
    64-bit [v], one turn of the build loop appends to the bit stream [v >> P]
    one-bits, a zero bit and the low [P] bits of [v]; after [render],
    [_readU64] at the position where that code starts returns [v] and
    stops right behind the code. *)
Theorem rice_roundtrip (P v : Z) (bw : BitWriter.t) (this : Golomb.t) :
  0 <= P <= 32 ->
  0 <= v < 2 ^ 64 ->
  wf_writer bw ->
  Golomb.p this = P ->
  exists bw',
    Golomb.encode P (bw, 0) v = Ok (bw', v)
    /\ written bw' = written bw ++ rice_code P v
    /\ Golomb._readU64 this
         (BitReader.mk (BitWriter.render bw') (bits_written bw))
       = Ok (v, BitReader.mk (BitWriter.render bw') (bits_written bw')).
Proof.
  intros HP Hv Hw Ep.
  destruct (encode_ok P bw 0 v HP ltac:(lia) ltac:(lia) Hw) as (bw' & E & Hw' & Hb).
  rewrite Z.sub_0_r in Hb.
  exists bw'. split; [exact E|]. split; [exact Hb|].
  set (br := BitReader.mk (BitWriter.render bw') (bits_written bw)).
  assert (Hp : pending br = rice_code (Golomb.p this) v ++ repeat false (padding bw')).
  { unfold pending, br. cbn [BitReader.stream BitReader.cursor].
    rewrite render_bits by exact Hw'. rewrite Hb, <- app_assoc, Ep.
    rewrite <- written_length, skipn_app, skipn_all, Nat.sub_diag.
    reflexivity. }
  rewrite (_readU64_rice this ltac:(lia) br v _ Hv Hp).
  f_equal. f_equal. unfold advance, br. cbn [BitReader.stream BitReader.cursor].
  f_equal. rewrite <- !written_length, Hb, length_app, Ep. reflexivity.
Qed.

(** ** Queries and the hash value zero *)

(** [match] starts from [last = 0] and only decodes while [last < term]:
    a target that reduces to zero is never looked for. *)
Lemma match_zero_term (this : Golomb.t) (key data : Buffer) :
  sipmod64 data key (Golomb.m this) = 0 -> match_ this key data = Ok false.
Proof.
  intros E. unfold Golomb.match_. rewrite E. reflexivity.
Qed.

(** [matchAny] starts from [last1 = 0] and compares before it decodes:
    a smallest target hash of zero is reported as found. *)
Lemma matchAny_zero_first (this : Golomb.t) (key : Buffer) (targets : list Buffer) :
  BufferSet.from targets <> [] ->
  nth 0 (ZSort.sort (map (fun item => sipmod64 item key (Golomb.m this))
                         (BufferSet.from targets))) 0 = 0 ->
  matchAny this key targets = Ok true.
Proof.
  intros Hne E. unfold Golomb.matchAny.
  destruct (BufferSet.from targets) as [|x l] eqn:Es; [now destruct Hne|].
  replace (0 <? BufferSet.size (x :: l)) with true
    by (symmetry; apply Z.ltb_lt; unfold BufferSet.size; cbn [length]; lia).
  cbn [assert bind]. rewrite E. reflexivity.
Qed.

(** C1, at the failing inputs.  An item of the built set whose hash
    reduces to zero is reported absent by [match] under the same key. *)
Theorem match_misses_zero_hash (P : Z) (key : Buffer) (items : list Buffer)
        (item : Buffer) (g : Golomb.t) :
  static_fromItems P key items = Ok g ->
  In item items ->
  sipmod64 item key (Golomb.m g) = 0 ->
  match_ g key item = Ok false.
Proof.
  intros _ _ E. apply match_zero_term, E.
Qed.

(** C2, at the failing inputs.  For a single target whose hash reduces to
    zero, [matchAny] answers [true] and [match] answers [false], on every
    filter. *)
Theorem matchAny_differs_from_match (this : Golomb.t) (key target : Buffer) :
  sipmod64 target key (Golomb.m this) = 0 ->
  matchAny this key [target] = Ok true
  /\ match_ this key target = Ok false.
Proof.
  intros E. split; [|apply match_zero_term, E].
  apply matchAny_zero_first; [discriminate|].
  change (BufferSet.from [target]) with [target].
  cbn [map]. rewrite E. reflexivity.
Qed.

(** C4, at the failing inputs.  On a filter with [N = 0], whose modulus is
    therefore zero, [match] answers [false] and [matchAny] answers [true],
    for every key, every target and every non-empty target set, whatever
    the data buffer holds. *)
Theorem matchAny_empty_filter (this : Golomb.t) (key target : Buffer)
        (targets : list Buffer) :
  Golomb.n this = 0 ->
  derived this ->
  targets <> [] ->
  match_ this key target = Ok false
  /\ matchAny this key targets = Ok true.
Proof.
  intros En Hd Hne.
  assert (Em : Golomb.m this = 0) by (unfold derived in Hd; rewrite Hd, En; reflexivity).
  split; [apply match_zero_term; rewrite Em; apply sipmod64_zero_range|].
  apply matchAny_zero_first.
  - destruct targets as [|x l]; [now destruct Hne|].
    intros E. assert (Hin : In x (BufferSet.from (x :: l)))
      by (apply BufferSet_from_In; now left).
    rewrite E in Hin. destruct Hin.
  - rewrite Em.
    assert (H : Forall (fun h => h = 0)
                  (ZSort.sort (map (fun item => sipmod64 item key 0)
                                   (BufferSet.from targets)))).
    { apply sort_Forall, Forall_forall. intros h Hh.
      apply in_map_iff in Hh as (item & <- & _). apply sipmod64_zero_range. }
    destruct H as [|h l Hh _]; [reflexivity | exact Hh].
Qed.

(** Every bit sequence is what some writer has taken. *)
Lemma writer_of_bits (bs : list bool) :
  exists bw, wf_writer bw /\ written bw = bs.
Proof.
  induction bs as [|b bs IH] using rev_ind.
  - exists BitWriter.new. split; [apply wf_writer_new | reflexivity].
  - destruct IH as (bw & Hw & Hb). exists (BitWriter.writeBit bw b).
    split; [apply writeBit_wf, Hw|].
    rewrite writeBit_written by exact Hw. now rewrite Hb.
Qed.

(** Unpacking packed bits gives them back, followed by fewer than eight
    zero bits. *)
Lemma bits_of_pack_bits (bs : list bool) :
  exists k, (k < 8)%nat /\ bits_of_bytes (pack_bits bs) = bs ++ repeat false k.
Proof.
  destruct (writer_of_bits bs) as (bw & Hw & Hb).
  exists (padding bw). split; [apply padding_lt|].
  rewrite <- Hb, <- render_pack by exact Hw. apply render_bits, Hw.
Qed.

Lemma ascending_Forall (lo : Z) (l : list Z) :
  ascending lo l -> Forall (fun x => lo <= x) l.
Proof.
  revert lo; induction l as [|x l IH]; intros lo H; [constructor|].
  destruct H as [Hx H]. constructor; [exact Hx|].
  eapply Forall_impl; [|apply IH, H]. intros; cbn in *; lia.
Qed.

Lemma rice_code_length (P v : Z) : (0 < length (rice_code P v))%nat.
Proof. unfold rice_code. rewrite !length_app. cbn [length]. lia. Qed.

(** Reading a stream that holds the codes of an ascending sequence,
    [match] finds every member above the value it starts from. *)
Lemma match_loop_finds (this : Golomb.t) (term : Z) (hs : list Z) :
  0 <= Golomb.p this <= 32 ->
  forall (fuel : nat) (br : BitReader.t) (last : Z) (rest : list bool),
    0 <= last -> ascending last hs -> Forall (fun h => h < 2 ^ 64) hs ->
    pending br = flat_map (rice_code (Golomb.p this)) (deltas last hs) ++ rest ->
    In term hs -> last < term ->
    (length (pending br) < fuel)%nat ->
    Golomb.match_loop fuel this br last term = Ok true.
Proof.
  intros HP. induction hs as [|h hs IH];
    intros fuel br last rest Hl Ha Hb Hp Hin Hlt Hf; [destruct Hin|].
  destruct fuel as [|fuel]; [lia|].
  destruct Ha as [Hlh Ha]. inversion Hb as [|? ? Hh Hb']; subst.
  cbn [Golomb.match_loop]. unfold U64.lt.
  destruct (Z.ltb_spec last term); [|lia].
  cbn [deltas flat_map] in Hp. rewrite <- app_assoc in Hp.
  unfold Golomb.readU64.
  rewrite (_readU64_rice this HP br (h - last) _ ltac:(lia) Hp). cbn [bind].
  unfold U64.add. replace (h - last + last) with h by lia.
  rewrite U64_wrap_small by lia. unfold U64.eq.
  destruct (Z.eqb_spec h term) as [E|E]; [reflexivity|].
  destruct Hin as [Hin|Hin]; [contradiction|].
  pose proof (ascending_Forall h hs Ha) as Hall.
  rewrite Forall_forall in Hall. specialize (Hall term Hin). cbn in Hall.
  pose proof (pending_advance br _ _ Hp) as Hp'.
  apply (IH fuel _ h rest); try assumption; try lia.
  rewrite Hp'. rewrite Hp, length_app in Hf.
  pose proof (rice_code_length (Golomb.p this) (h - last)). lia.
Qed.

(** X1.  No false negatives apart from the hash value zero: an item of the
    built set whose hash does not reduce to zero is reported present by
    [match] under the same key. *)
Theorem match_finds_nonzero (P : Z) (key : Buffer) (items : list Buffer)
        (item : Buffer) (g : Golomb.t) :
  static_fromItems P key items = Ok g ->
  In item items ->
  sipmod64 item key (Golomb.m g) <> 0 ->
  match_ g key item = Ok true.
Proof.
  intros Hg Hin Hnz.
  destruct (static_fromItems_inv _ _ _ _ Hg) as (HP & Hk & Hn).
  rewrite static_fromItems_build in Hg by assumption. injection Hg as <-.
  cbn [Spec.build Golomb.m] in Hnz.
  set (N := Z.of_nat (length (BufferSet.from items))) in *.
  set (hs := Spec.hashes sipmod64 key items).
  pose proof (hashes_range key items Hn) as Hr. fold N hs in Hr.
  assert (Hterm : In (sipmod64 item key (784931 * N)) hs).
  { unfold hs, Spec.hashes. fold N.
    eapply Permutation_in; [apply ZSort.Permuted_sort|].
    apply in_map_iff. exists item. split; [reflexivity|].
    apply BufferSet_from_In, Hin. }
  pose proof Hr as Hr'. rewrite Forall_forall in Hr'.
  pose proof (Hr' _ Hterm) as Ht. cbv beta in Ht.
  unfold Golomb.match_. cbn [Spec.build Golomb.data Golomb.m]. fold N hs.
  destruct (bits_of_pack_bits (flat_map (rice_code P) (deltas 0 hs)))
    as (k & _ & Hbits).
  apply (match_loop_finds _ _ hs) with (rest := repeat false k).
  - cbn [Spec.build Golomb.p]. exact HP.
  - lia.
  - apply sorted_ascending; [apply ZSort.Sorted_sort|].
    eapply Forall_impl; [|exact Hr]. intros h Hh. cbv beta in Hh. lia.
  - assert (HN : 784931 * N < 2 ^ 64)
      by (unfold N; unfold BufferSet.size in Hn; lia).
    eapply Forall_impl; [|exact Hr]. intros h Hh. cbv beta in Hh. lia.
  - unfold pending. cbn [BitReader.new BitReader.cursor BitReader.stream skipn].
    exact Hbits.
  - exact Hterm.
  - lia.
  - rewrite pending_length. lia.
Qed.

(** ** The two queries compared *)

Lemma bits_left_advance (br : BitReader.t) (k : nat) :
  BitReader.bits_left (advance br k) = (BitReader.bits_left br - k)%nat.
Proof. unfold BitReader.bits_left, advance. cbn. lia. Qed.

Lemma readBit_inv (br br' : BitReader.t) (b : bool) :
  BitReader.readBit br = Ok (b, br') ->
  br' = advance br 1 /\ (0 < BitReader.bits_left br)%nat.
Proof.
  unfold BitReader.readBit, BitReader.bits_left, advance.
  destruct (Nat.ltb_spec (BitReader.cursor br) (8 * length (BitReader.stream br)));
    [|discriminate].
  intros E. injection E as _ <-. split; [f_equal; lia | lia].
Qed.

Lemma read_unary_consumes (fuel : nat) :
  forall (br br' : BitReader.t) (num v : Z),
    Golomb.read_unary fuel br num = Ok (v, br') ->
    (BitReader.bits_left br' < BitReader.bits_left br)%nat.
Proof.
  induction fuel as [|fuel IH]; intros br br' num v; cbn [Golomb.read_unary];
    [discriminate|].
  destruct (BitReader.readBit br) as [[b br1]|e] eqn:E; cbn [bind]; [|discriminate].
  apply readBit_inv in E as [-> Hpos].
  destruct b.
  - intros H. apply IH in H. rewrite bits_left_advance in H. lia.
  - intros H. injection H as _ <-. rewrite bits_left_advance. lia.
Qed.

Lemma readBits_consumes (width : nat) :
  forall (br br' : BitReader.t) (num v : Z),
    BitReader.readBits br num width = Ok (v, br') ->
    (BitReader.bits_left br' <= BitReader.bits_left br)%nat.
Proof.
  induction width as [|w IH]; intros br br' num v; cbn [BitReader.readBits].
  - intros H. injection H as _ <-. lia.
  - destruct (BitReader.readBit br) as [[b br1]|e] eqn:E; cbn [bind]; [|discriminate].
    apply readBit_inv in E as [-> Hpos].
    intros H. apply IH in H. rewrite bits_left_advance in H. lia.
Qed.

(** A decoded number costs at least one bit. *)
Lemma readU64_consumes (this : Golomb.t) (br br' : BitReader.t) (v : Z) :
  Golomb.readU64 this br = Ok (Golomb.Value v br') ->
  (BitReader.bits_left br' < BitReader.bits_left br)%nat.
Proof.
  unfold Golomb.readU64, Golomb._readU64.
  destruct (Golomb.read_unary _ br 0) as [[num br1]|e] eqn:E1; cbn [bind].
  - apply read_unary_consumes in E1.
    unfold BitReader.readBits64.
    destruct (0 <=? Golomb.p this); cbn [assert bind]; [|discriminate].
    destruct (Golomb.p this <=? 64); cbn [assert bind]; [|discriminate].
    destruct (BitReader.readBits br1 0 _) as [[rem br2]|e] eqn:E2; cbn [bind].
    + apply readBits_consumes in E2. intros H. injection H as _ <-. lia.
    + destruct e; discriminate.
  - destruct e; discriminate.
Qed.

(** The loops never run out of turns: any number of turns above the bits
    left gives the same result. *)
Lemma match_loop_fuel (this : Golomb.t) (f1 : nat) :
  forall (f2 : nat) (br : BitReader.t) (last term : Z),
    (BitReader.bits_left br < f1)%nat -> (BitReader.bits_left br < f2)%nat ->
    Golomb.match_loop f1 this br last term = Golomb.match_loop f2 this br last term.
Proof.
  induction f1 as [|f1 IH]; intros f2 br last term H1 H2; [lia|].
  destruct f2 as [|f2]; [lia|]. cbn [Golomb.match_loop].
  destruct (U64.lt last term); [|reflexivity].
  destruct (Golomb.readU64 this br) as [[|v br']|e] eqn:E; cbn [bind];
    try reflexivity.
  destruct (U64.eq (U64.add v last) term); [reflexivity|].
  apply readU64_consumes in E. apply IH; lia.
Qed.

Lemma matchAny_loop_fuel (this : Golomb.t) (values : list Z) (f1 : nat) :
  forall (f2 : nat) (br : BitReader.t) (last1 last2 : Z) (i : nat),
    (BitReader.bits_left br + (length values - i) < f1)%nat ->
    (BitReader.bits_left br + (length values - i) < f2)%nat ->
    Golomb.matchAny_loop f1 this br values last1 last2 i
    = Golomb.matchAny_loop f2 this br values last1 last2 i.
Proof.
  induction f1 as [|f1 IH]; intros f2 br last1 last2 i H1 H2; [lia|].
  destruct f2 as [|f2]; [lia|]. cbn [Golomb.matchAny_loop].
  destruct (U64.cmp last1 last2); [reflexivity| |].
  - destruct (Golomb.readU64 this br) as [[|v br']|e] eqn:E; cbn [bind];
      try reflexivity.
    apply readU64_consumes in E. apply IH; lia.
  - destruct (Nat.ltb_spec i (length values)); [|reflexivity].
    apply IH; lia.
Qed.

Lemma decode_fuel_enough (this : Golomb.t) (f1 : nat) :
  forall (f2 : nat) (br : BitReader.t),
    (BitReader.bits_left br < f1)%nat -> (BitReader.bits_left br < f2)%nat ->
    decode_fuel f1 this br = decode_fuel f2 this br.
Proof.
  induction f1 as [|f1 IH]; intros f2 br H1 H2; [lia|].
  destruct f2 as [|f2]; [lia|]. cbn [decode_fuel].
  destruct (Golomb.readU64 this br) as [[|v br']|e] eqn:E; try reflexivity.
  apply readU64_consumes in E. f_equal. apply IH; lia.
Qed.

Lemma decode_all_value (this : Golomb.t) (br br' : BitReader.t) (v : Z) :
  Golomb.readU64 this br = Ok (Golomb.Value v br') ->
  decode_all this br = v :: decode_all this br'.
Proof.
  intros E. unfold decode_all at 1. cbn [decode_fuel]. rewrite E. f_equal.
  apply readU64_consumes in E. unfold decode_all. apply decode_fuel_enough; lia.
Qed.

Lemma decode_all_eof (this : Golomb.t) (br : BitReader.t) :
  Golomb.readU64 this br = Ok Golomb.EOF -> decode_all this br = [].
Proof. intros E. unfold decode_all. cbn [decode_fuel]. now rewrite E. Qed.

Lemma U64_add_comm (a b : Z) : U64.add a b = U64.add b a.
Proof. unfold U64.add. f_equal. lia. Qed.

(** [match] finds the running values after the first one. *)
Lemma match_loop_reach (this : Golomb.t) (fuel : nat) :
  0 <= Golomb.p this <= 32 ->
  forall (br : BitReader.t) (last term : Z),
    (BitReader.bits_left br < fuel)%nat ->
    Golomb.match_loop fuel this br last term
    = Ok (negb (last =? term) && reachb (decode_all this br) last term).
Proof.
  intros HP. induction fuel as [|fuel IH]; intros br last term Hf; [lia|].
  cbn [Golomb.match_loop]. unfold U64.lt.
  destruct (Z.ltb_spec last term) as [Hlt|Hge].
  - assert (En : (last =? term) = false) by (apply Z.eqb_neq; lia).
    destruct (readU64_total this br HP) as [E|(v & br' & E)]; rewrite E; cbn [bind].
    + rewrite (decode_all_eof _ _ E). cbn [reachb]. rewrite En.
      now rewrite andb_false_r.
    + rewrite (decode_all_value _ _ _ _ E). cbn [reachb]. rewrite En.
      cbn [negb orb andb]. destruct (Z.ltb_spec last term); [|lia]. cbn [andb].
      rewrite (U64_add_comm last v). unfold U64.eq.
      pose proof (readU64_consumes _ _ _ _ E) as Hc.
      rewrite IH by lia.
      destruct (decode_all this br') as [|d ds]; cbn [reachb];
        destruct (Z.eqb_spec (U64.add v last) term); reflexivity.
  - destruct (decode_all this br) as [|d ds]; cbn [reachb];
      destruct (Z.eqb_spec last term); cbn [negb andb orb]; try reflexivity;
      destruct (Z.ltb_spec last term); (lia || reflexivity).
Qed.

Lemma existsb_ext_in {A : Type} (f g : A -> bool) (l : list A) :
  (forall x, In x l -> f x = g x) -> existsb f l = existsb g l.
Proof.
  induction l as [|a l IH]; intros H; [reflexivity|]. cbn [existsb].
  rewrite (H a) by (left; reflexivity). f_equal.
  apply IH. intros x Hx. apply H. right; exact Hx.
Qed.

(** [matchAny] finds the running values among the targets that are left,
    the first running value included. *)
Lemma matchAny_loop_reach (this : Golomb.t) (values : list Z) (fuel : nat) :
  0 <= Golomb.p this <= 32 ->
  forall (br : BitReader.t) (last1 last2 : Z) (i : nat),
    ascending last2 (skipn i values) ->
    (BitReader.bits_left br + (length values - i) < fuel)%nat ->
    Golomb.matchAny_loop fuel this br values last1 last2 i
    = Ok (existsb (reachb (decode_all this br) last1) (last2 :: skipn i values)).
Proof.
  intros HP. induction fuel as [|fuel IH]; intros br last1 last2 i Ha Hf; [lia|].
  cbn [Golomb.matchAny_loop existsb]. unfold U64.cmp.
  destruct (Z.compare_spec last1 last2) as [Heq|Hlt|Hgt].
  - subst last2. destruct (decode_all this br); cbn [reachb];
      rewrite Z.eqb_refl; reflexivity.
  - pose proof (ascending_Forall _ _ Ha) as Hall. rewrite Forall_forall in Hall.
    destruct (readU64_total this br HP) as [E|(v & br' & E)]; rewrite E; cbn [bind].
    + rewrite (decode_all_eof _ _ E). f_equal. symmetry.
      change (existsb (reachb [] last1) (last2 :: skipn i values) = false).
      apply not_true_is_false. intros H. apply existsb_exists in H as (x & Hx & Hr).
      cbn [reachb] in Hr. rewrite andb_false_r, orb_false_r in Hr.
      apply Z.eqb_eq in Hr. destruct Hx as [<-|Hx]; [lia|].
      specialize (Hall x Hx). cbn in Hall. lia.
    + pose proof (readU64_consumes _ _ _ _ E) as Hc.
      rewrite IH by (assumption || lia).
      rewrite (decode_all_value _ _ _ _ E). f_equal.
      change (existsb (reachb (decode_all this br') (U64.add last1 v))
                      (last2 :: skipn i values)
              = existsb (reachb (v :: decode_all this br') last1)
                        (last2 :: skipn i values)).
      apply existsb_ext_in. intros x Hx.
      assert (Hlx : last1 < x).
      { destruct Hx as [<-|Hx]; [lia|]. specialize (Hall x Hx). cbn in Hall. lia. }
      cbn [reachb].
      destruct (Z.eqb_spec last1 x); [lia|]. destruct (Z.ltb_spec last1 x); [|lia].
      reflexivity.
  - assert (E0 : reachb (decode_all this br) last1 last2 = false).
    { destruct (decode_all this br); cbn [reachb];
        destruct (Z.eqb_spec last1 last2); try lia;
        destruct (Z.ltb_spec last1 last2); try lia; reflexivity. }
    rewrite E0. cbn [orb].
    destruct (Nat.ltb_spec i (length values)) as [Hi|Hi].
    + rewrite (skipn_cons_nth values i 0 Hi) in Ha |- *. destruct Ha as [_ Ha].
      rewrite IH by (assumption || lia). reflexivity.
    + rewrite skipn_all2 by lia. reflexivity.
Qed.

(** X3.  What [matchAny] computes, in terms of [match]: it answers [true]
    exactly when some target reduces to zero or is found by [match]. *)
Theorem matchAny_spec (this : Golomb.t) (key : Buffer) (targets : list Buffer) :
  0 <= Golomb.p this <= 32 ->
  targets <> [] ->
  exists b,
    matchAny this key targets = Ok b
    /\ (b = true <->
        exists t, In t targets
                  /\ (sipmod64 t key (Golomb.m this) = 0
                      \/ match_ this key t = Ok true)).
Proof.
  intros HP Hne.
  set (br := BitReader.new (Golomb.data this)).
  set (h := fun item => sipmod64 item key (Golomb.m this)).
  set (D := decode_all this br).
  assert (Hm : forall t, match_ this key t = Ok (negb (0 =? h t) && reachb D 0 (h t))).
  { intros t. unfold Golomb.match_. apply match_loop_reach; [exact HP | lia]. }
  assert (Hr : forall t, reachb D 0 (h t) = true <->
                         h t = 0 \/ match_ this key t = Ok true).
  { intros t. rewrite Hm. destruct (Z.eqb_spec 0 (h t)) as [E|E]; cbn [negb andb].
    - split; [intros _; left; lia|]. intros _. rewrite <- E.
      destruct D; cbn [reachb]; reflexivity.
    - split; [intros ->; right; reflexivity|].
      intros [E0|E1]; [lia | now injection E1]. }
  exists (existsb (fun t => reachb D 0 (h t)) (BufferSet.from targets)).
  split.
  - unfold Golomb.matchAny.
    destruct (BufferSet.from targets) as [|x l] eqn:Es.
    { destruct targets as [|t ts]; [now destruct Hne|].
      assert (Hin : In t (BufferSet.from (t :: ts)))
        by (apply BufferSet_from_In; now left).
      rewrite Es in Hin. destruct Hin. }
    replace (0 <? BufferSet.size (x :: l)) with true
      by (symmetry; apply Z.ltb_lt; unfold BufferSet.size; cbn [length]; lia).
    cbn [assert bind]. fold h br.
    set (values := ZSort.sort (map h (x :: l))).
    assert (Hperm : Permutation (map h (x :: l)) values)
      by apply ZSort.Permuted_sort.
    assert (Hsorted : exists lo, ascending lo values).
    { assert (Hb : exists lo, Forall (fun y => lo <= y) (map h (x :: l))).
      { generalize (map h (x :: l)). intros vs.
        induction vs as [|a vs IHvs]; [exists 0; constructor|].
        destruct IHvs as [lo Hlo]. exists (Z.min a lo). constructor; [lia|].
        eapply Forall_impl; [|exact Hlo]. intros; cbn in *; lia. }
      destruct Hb as [lo Hlo]. exists lo. apply sort_ascending, Hlo. }
    destruct Hsorted as [lo Hs].
    destruct values as [|v0 vs] eqn:Ev.
    { apply Permutation_sym, Permutation_nil in Hperm. discriminate. }
    cbn [nth]. destruct Hs as [_ Hs].
    rewrite matchAny_loop_reach; [|exact HP|exact Hs|cbn [length]; lia].
    fold D. cbn [skipn]. f_equal.
    change (existsb (reachb D 0) (v0 :: vs)
            = existsb (fun t => reachb D 0 (h t)) (x :: l)).
    apply eq_true_iff_eq. rewrite !existsb_exists. split.
    + intros (v & Hv & Hrv).
      assert (Hin : In v (map h (x :: l)))
        by (eapply Permutation_in; [apply Permutation_sym, Hperm | exact Hv]).
      apply in_map_iff in Hin as (t & <- & Ht). eauto.
    + intros (t & Ht & Hrt). exists (h t). split; [|exact Hrt].
      eapply Permutation_in; [exact Hperm|]. apply in_map. exact Ht.
  - rewrite existsb_exists. split.
    + intros (t & Ht & Hrt). exists t. split; [apply BufferSet_from_In, Ht|].
      apply Hr, Hrt.
    + intros (t & Ht & Hrt). exists t. split; [apply BufferSet_from_In, Ht|].
      apply Hr, Hrt.
Qed.

(** ** Wire layouts *)

Lemma built_valid (P : Z) (key : Buffer) (items : list Buffer) (g : Golomb.t) :
  static_fromItems P key items = Ok g -> valid g /\ Golomb.p g = P.
Proof.
  intros Hg. destruct (static_fromItems_inv _ _ _ _ Hg) as (HP & Hk & Hn).
  rewrite static_fromItems_build in Hg by assumption. injection Hg as <-.
  unfold valid, derived. cbn [Spec.build Golomb.n Golomb.p Golomb.m].
  unfold BufferSet.size in Hn.
  destruct (modulus_small (Z.of_nat (length (BufferSet.from items))) ltac:(lia))
    as [Em _].
  rewrite Em. repeat split; lia.
Qed.

Lemma fromBytes_ok (N P : Z) (data : Buffer) (this : Golomb.t) :
  0 <= P <= 32 ->
  Golomb.fromBytes N P data this
  = (Golomb.mk N P (U64.mul Golomb.M (U64.wrap N)) data, Ok tt).
Proof.
  intros HP. unfold Golomb.fromBytes, Golomb.mbind, Golomb.lift, Golomb.assign.
  replace ((0 <=? P) && (P <=? 32)) with true
    by (symmetry; apply andb_true_intro; split; apply Z.leb_le; lia).
  reflexivity.
Qed.

Lemma fromBytes_same (g this : Golomb.t) :
  valid g ->
  Golomb.fromBytes (Golomb.n g) (Golomb.p g) (Golomb.data g) this = (g, Ok tt).
Proof.
  intros (Hn & Hp & Hd). rewrite fromBytes_ok by exact Hp.
  unfold derived in Hd. rewrite <- Hd. destruct g; reflexivity.
Qed.

Lemma le_bytes_length (w : nat) (v : Z) : length (bio.le_bytes w v) = w.
Proof. revert v; induction w as [|w IH]; intros v; cbn; [reflexivity | now rewrite IH]. Qed.

Lemma le_value_le_bytes (w : nat) (v : Z) :
  bio.le_value (bio.le_bytes w v) = v mod 256 ^ Z.of_nat w.
Proof.
  revert v; induction w as [|w IH]; intros v.
  - cbn. now rewrite Z.mod_1_r.
  - cbn [bio.le_bytes bio.le_value]. rewrite IH.
    rewrite Nat2Z.inj_succ, Z.pow_succ_r by lia.
    assert (0 < 256 ^ Z.of_nat w) by (apply Z.pow_pos_nonneg; lia).
    rewrite Z.rem_mul_r by lia. reflexivity.
Qed.

Lemma roundtrip_P (g : Golomb.t) :
  valid g ->
  exists bytes,
    Golomb.toPBytes g = Ok bytes
    /\ bytes = Golomb.p g :: Golomb.data g
    /\ Golomb.static_fromPBytes (Golomb.n g) bytes = Ok g.
Proof.
  intros Hv. pose proof Hv as (Hn & Hp & Hd).
  exists (Golomb.p g :: Golomb.data g).
  unfold Golomb.toPBytes, bio.writeUInt8.
  replace ((0 <=? Golomb.p g) && (Golomb.p g <=? 0xff)) with true
    by (symmetry; apply andb_true_intro; split; apply Z.leb_le; lia).
  split; [reflexivity|]. split; [reflexivity|].
  unfold Golomb.static_fromPBytes, Golomb.static, Golomb.fromPBytes,
    Golomb.mbind, Golomb.lift.
  cbn [length Nat.leb assert bio.readUInt8 nth_error bio.slice skipn].
  rewrite fromBytes_same by exact Hv. reflexivity.
Qed.

Lemma roundtrip_NP (g : Golomb.t) :
  valid g ->
  exists bytes,
    Golomb.toNPBytes g = Ok bytes
    /\ bytes = rev (bio.le_bytes 4 (Golomb.n g)) ++ [Golomb.p g] ++ Golomb.data g
    /\ Golomb.static_fromNPBytes bytes = Ok g.
Proof.
  intros Hv. pose proof Hv as (Hn & Hp & Hd).
  eexists. unfold Golomb.toNPBytes, bio.writeUInt32BE, bio.writeUInt8.
  replace ((0 <=? Golomb.p g) && (Golomb.p g <=? 0xff)) with true
    by (symmetry; apply andb_true_intro; split; apply Z.leb_le; lia).
  replace ((0 <=? Golomb.n g) && (Golomb.n g <=? 0xffffffff)) with true
    by (symmetry; apply andb_true_intro; split; apply Z.leb_le; lia).
  cbn [bind]. split; [reflexivity|]. split; [reflexivity|].
  unfold Golomb.static_fromNPBytes, Golomb.static, Golomb.fromNPBytes,
    Golomb.mbind, Golomb.lift.
  set (v := Golomb.n g) in *.
  assert (Ev : bio.le_value (bio.le_bytes 4 v) = v).
  { rewrite le_value_le_bytes. change (256 ^ Z.of_nat 4) with (2 ^ 32).
    apply Z.mod_small. lia. }
  cbn [bio.le_bytes rev app length Nat.leb assert bio.readUInt32BE Nat.add
       skipn firstn bio.readUInt8 nth_error bio.slice].
  cbn [bio.le_bytes] in Ev. rewrite Ev.
  unfold v. rewrite fromBytes_same by exact Hv. reflexivity.
Qed.

Lemma roundtrip_N (g : Golomb.t) :
  valid g ->
  Golomb.n g < 253 ->
  Golomb.toNBytes g = Golomb.n g :: Golomb.data g
  /\ Golomb.static_fromNBytes (Golomb.p g) (Golomb.toNBytes g) = Ok g.
Proof.
  intros Hv Hs. pose proof Hv as (Hn & Hp & Hd).
  assert (E : Golomb.toNBytes g = Golomb.n g :: Golomb.data g).
  { unfold Golomb.toNBytes, bio.writeVarint.
    destruct (Z.ltb_spec (Golomb.n g) 0xfd); [reflexivity | lia]. }
  split; [exact E|]. rewrite E.
  unfold Golomb.static_fromNBytes, Golomb.static, Golomb.fromNBytes,
    Golomb.mbind, Golomb.lift, bio.readVarint.
  destruct (Z.eqb_spec (Golomb.n g) 0xff); [lia|].
  destruct (Z.eqb_spec (Golomb.n g) 0xfe); [lia|].
  destruct (Z.eqb_spec (Golomb.n g) 0xfd); [lia|].
  cbn [bio.slice skipn]. rewrite fromBytes_same by exact Hv. reflexivity.
Qed.

(** C3, amended.  For a filter built by [fromItems], the P-prefixed and
    the NP-prefixed layouts round-trip; the varint-N layout round-trips
    when the filter holds fewer than 253 items; [toRaw] serializes exactly
    the filters with [P = 19], and [fromRaw] then round-trips under the
    same bound on the item count. *)
Theorem roundtrip_layouts (P : Z) (key : Buffer) (items : list Buffer) (g : Golomb.t) :
  static_fromItems P key items = Ok g ->
  (exists bytes, Golomb.toPBytes g = Ok bytes
                 /\ Golomb.static_fromPBytes (Golomb.n g) bytes = Ok g)
  /\ (exists bytes, Golomb.toNPBytes g = Ok bytes
                    /\ Golomb.static_fromNPBytes bytes = Ok g)
  /\ (Golomb.n g < 253 ->
      Golomb.static_fromNBytes P (Golomb.toNBytes g) = Ok g)
  /\ (P <> 19 -> Golomb.toRaw g = Throw AssertionError)
  /\ (P = 19 -> Golomb.toRaw g = Ok (Golomb.toNBytes g))
  /\ (P = 19 -> Golomb.n g < 253 ->
      Golomb.static_fromRaw (Golomb.toNBytes g) = Ok g).
Proof.
  intros Hg. destruct (built_valid _ _ _ _ Hg) as [Hv Ep].
  split; [destruct (roundtrip_P g Hv) as (b & E1 & _ & E2); eauto|].
  split; [destruct (roundtrip_NP g Hv) as (b & E1 & _ & E2); eauto|].
  split; [intros Hs; rewrite <- Ep; apply (roundtrip_N g Hv Hs)|].
  unfold Golomb.toRaw. rewrite Ep.
  split; [intros Hne; destruct (Z.eqb_spec P 19); [lia | reflexivity]|].
  split; [intros ->; reflexivity|].
  intros -> Hs. unfold Golomb.static_fromRaw, Golomb.fromRaw.
  rewrite <- Ep. apply (roundtrip_N g Hv Hs).
Qed.

(** X8.  For 253 items or more the varint takes three bytes or more, of which
    [fromNBytes] skips one: the rest of the varint stays in front of the
    data. *)
Lemma fromNBytes_long_count (g : Golomb.t) :
  valid g ->
  253 <= Golomb.n g <= 0xffff ->
  Golomb.static_fromNBytes (Golomb.p g) (Golomb.toNBytes g)
  = Ok (Golomb.mk (Golomb.n g) (Golomb.p g) (Golomb.m g)
                  (bio.le_bytes 2 (Golomb.n g) ++ Golomb.data g)).
Proof.
  intros (Hn & Hp & Hd) Hs.
  unfold Golomb.toNBytes, bio.writeVarint.
  destruct (Z.ltb_spec (Golomb.n g) 0xfd); [lia|].
  destruct (Z.leb_spec (Golomb.n g) 0xffff); [|lia].
  unfold Golomb.static_fromNBytes, Golomb.static, Golomb.fromNBytes,
    Golomb.mbind, Golomb.lift.
  rewrite <- app_comm_cons. unfold bio.readVarint.
  change (0xfd =? 0xff) with false. change (0xfd =? 0xfe) with false.
  change (0xfd =? 0xfd) with true. cbv iota.
  unfold bio.readLE. rewrite length_app, le_bytes_length.
  cbn [Nat.add Nat.leb].
  replace (firstn 2 (bio.le_bytes 2 (Golomb.n g) ++ Golomb.data g))
    with (bio.le_bytes 2 (Golomb.n g)) by reflexivity.
  rewrite le_value_le_bytes. change (256 ^ Z.of_nat 2) with 65536.
  rewrite Z.mod_small by lia. cbn [bind].
  destruct (Z.leb_spec 0xfd (Golomb.n g)); [|lia]. cbn [assert bind].
  cbn [bio.slice skipn]. rewrite fromBytes_ok by exact Hp.
  unfold derived in Hd. rewrite <- Hd. reflexivity.
Qed.

(** ** Content hash and header *)

Lemma app_inj_length {A : Type} (a b c d : list A) :
  length a = length b -> a ++ c = b ++ d -> a = b /\ c = d.
Proof.
  revert b. induction a as [|x a IH]; intros [|y b] Hl H; try discriminate.
  - auto.
  - cbn in H. injection H as -> H. injection Hl as Hl.
    destruct (IH b Hl H) as [-> ->]. auto.
Qed.

Lemma app_inj_length_tail {A : Type} (a b c d : list A) :
  length c = length d -> a ++ c = b ++ d -> a = b /\ c = d.
Proof.
  intros Hl H. apply app_inj_length; [|exact H].
  apply (f_equal (@length A)) in H. rewrite !length_app in H. lia.
Qed.

Lemma readLE_le_bytes (w : nat) (n : Z) (d : Buffer) :
  0 <= n < 256 ^ Z.of_nat w ->
  bio.readLE w (bio.le_bytes w n ++ d) = Ok n.
Proof.
  intros H. unfold bio.readLE.
  rewrite length_app, le_bytes_length.
  destruct (Nat.leb_spec w (w + length d)); [|lia].
  rewrite firstn_app, le_bytes_length, Nat.sub_diag. cbn [firstn].
  rewrite app_nil_r, <- (le_bytes_length w n) at 1.
  rewrite firstn_all, le_value_le_bytes, Z.mod_small by exact H.
  reflexivity.
Qed.

(** [readVarint] decodes what [writeVarint] wrote. *)
Lemma readVarint_writeVarint (n : Z) (d : Buffer) :
  0 <= n < 2 ^ 64 ->
  bio.readVarint (bio.writeVarint n ++ d) = Ok n.
Proof.
  intros H. unfold bio.writeVarint.
  destruct (Z.ltb_spec n 0xfd) as [H1|H1].
  - cbn [app bio.readVarint].
    destruct (Z.eqb_spec n 0xff); [lia|].
    destruct (Z.eqb_spec n 0xfe); [lia|].
    destruct (Z.eqb_spec n 0xfd); [lia|]. reflexivity.
  - destruct (Z.leb_spec n 0xffff) as [H2|H2];
      [|destruct (Z.leb_spec n 0xffffffff) as [H3|H3]];
      rewrite <- app_comm_cons; unfold bio.readVarint.
    + change (0xfd =? 0xff) with false. change (0xfd =? 0xfe) with false.
      change (0xfd =? 0xfd) with true. cbv iota.
      rewrite readLE_le_bytes by (change (256 ^ Z.of_nat 2) with 65536; lia).
      cbn [bind]. destruct (Z.leb_spec 0xfd n); [reflexivity | lia].
    + change (0xfe =? 0xff) with false. change (0xfe =? 0xfe) with true.
      cbv iota.
      rewrite readLE_le_bytes
        by (change (256 ^ Z.of_nat 4) with 4294967296; lia).
      cbn [bind]. destruct (Z.ltb_spec 0xffff n); [reflexivity | lia].
    + change (0xff =? 0xff) with true. cbv iota.
      rewrite readLE_le_bytes by (change (256 ^ Z.of_nat 8) with (2 ^ 64); lia).
      cbn [bind]. destruct (Z.ltb_spec 0xffffffff n); [reflexivity | lia].
Qed.

(** The varint is a prefix code: it determines the number and where the
    data starts. *)
Lemma writeVarint_app_inj (n1 n2 : Z) (d1 d2 : Buffer) :
  0 <= n1 < 2 ^ 64 -> 0 <= n2 < 2 ^ 64 ->
  bio.writeVarint n1 ++ d1 = bio.writeVarint n2 ++ d2 ->
  n1 = n2 /\ d1 = d2.
Proof.
  intros H1 H2 E.
  assert (En : n1 = n2).
  { pose proof (readVarint_writeVarint n1 d1 H1) as R1.
    pose proof (readVarint_writeVarint n2 d2 H2) as R2.
    rewrite E, R2 in R1. now injection R1. }
  subst n2. split; [reflexivity|].
  apply app_inv_head in E. exact E.
Qed.

Local Abbreviation hash := (Golomb.hash digest).
Local Abbreviation hash_raw := (Golomb.hash_raw digest).
Local Abbreviation header := (Golomb.header digest).

(** C9, amended.  [hash()] is the digest of the varint-N serialization
    and [header(prev)] the digest of [hash() || prev]; both are functions
    of the item count, the data and [prev] alone, so identical inputs give
    identical results; and two headers over previous headers of the same
    length are equal only when item count, data and [prev] agree, or else
    the digest collides on the two serializations or on the two
    concatenations. *)
Theorem header_commits (g1 g2 : Golomb.t) (prev1 prev2 : Buffer) :
  0 <= Golomb.n g1 < 2 ^ 64 ->
  0 <= Golomb.n g2 < 2 ^ 64 ->
  length prev1 = length prev2 ->
  hash g1 false = Golomb.Raw (digest (Golomb.toNBytes g1))
  /\ header g1 prev1 = digest (digest (Golomb.toNBytes g1) ++ prev1)
  /\ (Golomb.n g1 = Golomb.n g2 -> Golomb.data g1 = Golomb.data g2 ->
      prev1 = prev2 ->
      hash g1 false = hash g2 false /\ header g1 prev1 = header g2 prev2)
  /\ (header g1 prev1 = header g2 prev2 ->
      (Golomb.n g1 = Golomb.n g2 /\ Golomb.data g1 = Golomb.data g2
       /\ prev1 = prev2)
      \/ collide digest (Golomb.toNBytes g1) (Golomb.toNBytes g2)
      \/ collide digest (hash_raw g1 ++ prev1) (hash_raw g2 ++ prev2)).
Proof.
  intros H1 H2 Hl.
  split; [reflexivity|]. split; [reflexivity|]. split.
  - intros En Ed Ep. unfold Golomb.header, Golomb.hash_raw, Golomb.hash,
      Golomb.toNBytes. rewrite En, Ed, Ep. auto.
  - intros E.
    destruct (Buffer_eq_dec (Golomb.toNBytes g1) (Golomb.toNBytes g2)) as [Es|Es].
    + destruct (writeVarint_app_inj _ _ _ _ H1 H2 Es) as [En Ed].
      destruct (Buffer_eq_dec prev1 prev2) as [Ep|Ep]; [left; auto|].
      right; right. split; [|exact E].
      intros Ec. apply app_inj_length_tail in Ec as [_ Ec]; [|exact Hl].
      contradiction.
    + destruct (Buffer_eq_dec (digest (Golomb.toNBytes g1))
                              (digest (Golomb.toNBytes g2))) as [Eh|Eh].
      * right; left. split; assumption.
      * right; right. split; [|exact E].
        intros Ec. apply app_inj_length_tail in Ec as [Ec _]; [|exact Hl].
        contradiction.
Qed.

End Filter.

(** * Further properties of the class *)

(** ** The stream of a built filter, decoded *)

Section Stream.

Variable this : Golomb.t.
Hypothesis p_range : 0 <= Golomb.p this <= 32.

Lemma readU64_rice (br : BitReader.t) (v : Z) (rest : list bool) :
  0 <= v < 2 ^ 64 ->
  pending br = rice_code (Golomb.p this) v ++ rest ->
  Golomb.readU64 this br
  = Ok (Golomb.Value v (advance br (length (rice_code (Golomb.p this) v)))).
Proof.
  intros Hv Hp. unfold Golomb.readU64.
  rewrite (_readU64_rice this p_range br v rest Hv Hp). reflexivity.
Qed.

(** The codes of an ascending sequence decode to its differences. *)
Lemma decode_all_codes (hs : list Z) :
  forall (last : Z) (br : BitReader.t) (rest : list bool),
    0 <= last -> ascending last hs -> Forall (fun h => h < 2 ^ 64) hs ->
    pending br = flat_map (rice_code (Golomb.p this)) (deltas last hs) ++ rest ->
    exists br',
      pending br' = rest
      /\ decode_all this br = deltas last hs ++ decode_all this br'.
Proof.
  induction hs as [|h hs IH]; intros last br rest Hl Ha Hb Hp.
  - exists br. split; [exact Hp | reflexivity].
  - destruct Ha as [Hlh Ha]. inversion Hb as [|? ? Hh Hb']; subst.
    cbn [deltas flat_map] in Hp. rewrite <- app_assoc in Hp.
    pose proof (readU64_rice br (h - last) _ ltac:(lia) Hp) as E.
    pose proof (pending_advance br _ _ Hp) as Hp'.
    destruct (IH h _ rest ltac:(lia) Ha Hb' Hp') as (br' & Hr & Hd).
    exists br'. split; [exact Hr|].
    rewrite (decode_all_value _ _ _ _ E), Hd. reflexivity.
Qed.

(** Zero bits decode to zero differences, as long as a whole code fits. *)
Lemma decode_all_zeros (k : nat) :
  forall br : BitReader.t,
    pending br = repeat false k ->
    exists j,
      decode_all this br = repeat 0 j
      /\ (j * (Z.to_nat (Golomb.p this) + 1) <= k)%nat.
Proof.
  induction k as [k IH] using lt_wf_ind. intros br Hp.
  destruct k as [|k].
  - exists 0%nat. split; [|lia]. apply decode_all_eof.
    unfold Golomb.readU64.
    rewrite (_readU64_eof_unary this br 0 Hp). reflexivity.
  - destruct (Nat.lt_ge_cases k (Z.to_nat (Golomb.p this))) as [Hlt|Hge].
    + exists 0%nat. split; [|lia]. apply decode_all_eof.
      unfold Golomb.readU64.
      rewrite (_readU64_eof_rem this p_range br 0 (repeat false k));
        [reflexivity | exact Hp | now rewrite repeat_length].
    + set (P := Z.to_nat (Golomb.p this)) in *.
      assert (Hs : repeat false k = repeat false P ++ repeat false (k - P)).
      { rewrite <- repeat_app. f_equal. lia. }
      assert (Hp2 : pending br
                    = repeat true 0 ++ false :: repeat false P ++ repeat false (k - P)).
      { rewrite Hp. cbn [repeat app]. now rewrite <- Hs. }
      assert (E : Golomb.readU64 this br
                  = Ok (Golomb.Value 0 (advance br (1 + P)))).
      { unfold Golomb.readU64.
        rewrite (_readU64_ok this p_range br 0 (repeat false P)
                   (repeat false (k - P)) Hp2)
          by (rewrite repeat_length; reflexivity).
        rewrite repeat_length, int_of_bits_zeros.
        unfold count_up, U64.shln, U64.or. cbn [Nat.iter].
        rewrite Z.shiftl_0_l. reflexivity. }
      assert (Hp3 : pending (advance br (1 + P)) = repeat false (k - P)).
      { pose proof (pending_advance br (false :: repeat false P)
                      (repeat false (k - P))) as H.
        cbn [length] in H. rewrite repeat_length in H. apply H.
        rewrite Hp. cbn [repeat app]. now rewrite <- Hs. }
      destruct (IH (k - P)%nat ltac:(lia) _ Hp3) as (j & Hd & Hj).
      exists (S j). split.
      * rewrite (decode_all_value _ _ _ _ E), Hd. reflexivity.
      * fold P in Hj. lia.
Qed.

End Stream.

Lemma reachb_zeros (j : nat) (last v : Z) :
  0 <= last < 2 ^ 64 -> reachb (repeat 0 j) last v = (last =? v).
Proof.
  intros Hl. induction j as [|j IH]; cbn [repeat reachb].
  - now rewrite andb_false_r, orb_false_r.
  - unfold U64.add. rewrite Z.add_0_r, U64_wrap_small by exact Hl.
    rewrite IH. destruct (last =? v), (last <? v); reflexivity.
Qed.

(** The running values of the differences of an ascending sequence are the
    sequence itself. *)
Lemma reachb_deltas (j : nat) (v : Z) (hs : list Z) :
  forall last : Z,
    0 <= last < 2 ^ 64 -> ascending last hs -> Forall (fun h => h < 2 ^ 64) hs ->
    (reachb (deltas last hs ++ repeat 0 j) last v = true <-> v = last \/ In v hs).
Proof.
  induction hs as [|h hs IH]; intros last Hl Ha Hb.
  - cbn [deltas app]. rewrite reachb_zeros by exact Hl.
    rewrite Z.eqb_eq. cbn. intuition.
  - destruct Ha as [Hlh Ha]. inversion Hb as [|? ? Hh Hb']; subst.
    cbn [deltas app reachb].
    unfold U64.add. replace (last + (h - last)) with h by lia.
    rewrite U64_wrap_small by lia.
    pose proof (ascending_Forall h hs Ha) as Hall. rewrite Forall_forall in Hall.
    rewrite orb_true_iff, andb_true_iff, Z.eqb_eq, Z.ltb_lt.
    rewrite (IH h ltac:(lia) Ha Hb'). cbn [In]. split.
    + intros [E|[Hlt [E|Hin]]]; auto.
    + intros [E|[E|Hin]]; [left; lia | |].
      * destruct (Z.eq_dec last v); [left; assumption | right; split; [lia | auto]].
      * specialize (Hall v Hin). cbn in Hall.
        destruct (Z.eq_dec last v); [left; assumption | right; split; [lia | auto]].
Qed.

(** ** Queries on a built filter *)

Section Coverage.

Variable siphash : Buffer -> Buffer -> Z.
Hypothesis siphash_range : forall data key, 0 <= siphash data key < 2 ^ 64.

Local Abbreviation sipmod64 := (Golomb.sipmod64 siphash).
Local Abbreviation fromItems := (Golomb.fromItems siphash).
Local Abbreviation static_fromItems := (Golomb.static_fromItems siphash).
Local Abbreviation match_ := (Golomb.match_ siphash).
Local Abbreviation matchAny := (Golomb.matchAny siphash).

(** What a successful build gives, in one place. *)
Lemma built_facts (P : Z) (key : Buffer) (items : list Buffer) (g : Golomb.t) :
  static_fromItems P key items = Ok g ->
  let hs := Spec.hashes sipmod64 key items in
  g = Spec.build sipmod64 P key items
  /\ 0 <= P <= 32
  /\ 0 <= Golomb.n g <= 0xffffffff
  /\ Golomb.m g = 784931 * Golomb.n g
  /\ length hs = length (BufferSet.from items)
  /\ Forall (fun h => 0 <= h < Golomb.m g) hs
  /\ ascending 0 hs
  /\ (forall v, In v hs <->
                exists item, In item items /\ sipmod64 item key (Golomb.m g) = v).
Proof.
  intros Hg hs.
  destruct (static_fromItems_inv siphash _ _ _ _ Hg) as (HP & Hk & Hn).
  rewrite (static_fromItems_build siphash siphash_range) in Hg by assumption.
  injection Hg as <-. cbn [Spec.build Golomb.n Golomb.m].
  pose proof (hashes_range siphash siphash_range key items Hn) as Hr.
  fold hs in Hr.
  assert (Hperm : Permutation
                    (map (fun item => sipmod64 item key
                            (784931 * Z.of_nat (length (BufferSet.from items))))
                         (BufferSet.from items)) hs)
    by apply ZSort.Permuted_sort.
  split; [reflexivity|]. split; [exact HP|].
  split; [unfold BufferSet.size in Hn; lia|].
  split; [reflexivity|].
  split; [rewrite <- (Permutation_length Hperm); apply length_map|].
  split; [exact Hr|].
  split.
  - apply sorted_ascending; [apply ZSort.Sorted_sort|].
    eapply Forall_impl; [|exact Hr]. intros h Hh. cbv beta in Hh. lia.
  - intros v. split.
    + intros Hv. apply (Permutation_in _ (Permutation_sym Hperm)) in Hv.
      apply in_map_iff in Hv as (item & E & Hin).
      exists item. split; [apply BufferSet_from_In, Hin | exact E].
    + intros (item & Hin & E). apply (Permutation_in _ Hperm).
      apply in_map_iff. exists item. split; [exact E|].
      apply BufferSet_from_In, Hin.
Qed.

Lemma built_decode_all (P : Z) (key : Buffer) (items : list Buffer) (g : Golomb.t) :
  static_fromItems P key items = Ok g ->
  exists j,
    decode_all g (BitReader.new (Golomb.data g))
    = deltas 0 (Spec.hashes sipmod64 key items) ++ repeat 0 j
    /\ (j * (Z.to_nat P + 1) < 8)%nat.
Proof.
  intros Hg.
  destruct (built_facts P key items g Hg) as (Eg & HP & Hn & Em & _ & Hr & Ha & _).
  set (hs := Spec.hashes sipmod64 key items) in *.
  assert (Ep : Golomb.p g = P) by (rewrite Eg; reflexivity).
  assert (HPg : 0 <= Golomb.p g <= 32) by lia.
  assert (Hb : Forall (fun h => h < 2 ^ 64) hs).
  { eapply Forall_impl; [|exact Hr]. intros h Hh. cbv beta in Hh. lia. }
  destruct (bits_of_pack_bits (flat_map (rice_code P) (deltas 0 hs)))
    as (k & Hk & Hbits).
  assert (Hp : pending (BitReader.new (Golomb.data g))
               = flat_map (rice_code (Golomb.p g)) (deltas 0 hs) ++ repeat false k).
  { unfold pending. cbn [BitReader.new BitReader.cursor BitReader.stream skipn].
    rewrite Ep. rewrite Eg at 1. exact Hbits. }
  destruct (decode_all_codes g HPg hs 0 _ _ ltac:(lia) Ha Hb Hp) as (br' & Hr' & Hd).
  destruct (decode_all_zeros g HPg k br' Hr') as (j & Hz & Hj).
  exists j. rewrite Hd, Hz. split; [reflexivity|]. rewrite <- Ep. lia.
Qed.

Lemma match_reachb (this : Golomb.t) (key target : Buffer) :
  0 <= Golomb.p this <= 32 ->
  match_ this key target
  = Ok (negb (0 =? sipmod64 target key (Golomb.m this))
        && reachb (decode_all this (BitReader.new (Golomb.data this))) 0
                  (sipmod64 target key (Golomb.m this))).
Proof.
  intros HP. unfold Golomb.match_. apply match_loop_reach; [exact HP | lia].
Qed.

Lemma matchAny_reachb (this : Golomb.t) (key : Buffer) (targets : list Buffer) :
  0 <= Golomb.p this <= 32 ->
  targets <> [] ->
  matchAny this key targets
  = Ok (existsb
          (fun t => reachb (decode_all this (BitReader.new (Golomb.data this))) 0
                           (sipmod64 t key (Golomb.m this)))
          (BufferSet.from targets)).
Proof.
  intros HP Hne.
  set (br := BitReader.new (Golomb.data this)).
  set (h := fun item => sipmod64 item key (Golomb.m this)).
  set (D := decode_all this br).
  unfold Golomb.matchAny.
  destruct (BufferSet.from targets) as [|x l] eqn:Es.
  { destruct targets as [|t ts]; [now destruct Hne|].
    assert (Hin : In t (BufferSet.from (t :: ts)))
      by (apply BufferSet_from_In; now left).
    rewrite Es in Hin. destruct Hin. }
  replace (0 <? BufferSet.size (x :: l)) with true
    by (symmetry; apply Z.ltb_lt; unfold BufferSet.size; cbn [length]; lia).
  cbn [assert bind]. fold h br.
  set (values := ZSort.sort (map h (x :: l))).
  assert (Hperm : Permutation (map h (x :: l)) values) by apply ZSort.Permuted_sort.
  assert (Hsorted : exists lo, ascending lo values).
  { assert (Hb : exists lo, Forall (fun y => lo <= y) (map h (x :: l))).
    { generalize (map h (x :: l)). intros vs.
      induction vs as [|a vs IHvs]; [exists 0; constructor|].
      destruct IHvs as [lo Hlo]. exists (Z.min a lo). constructor; [lia|].
      eapply Forall_impl; [|exact Hlo]. intros; cbn in *; lia. }
    destruct Hb as [lo Hlo]. exists lo. apply sort_ascending, Hlo. }
  destruct Hsorted as [lo Hs].
  destruct values as [|v0 vs] eqn:Ev.
  { apply Permutation_sym, Permutation_nil in Hperm. discriminate. }
  cbn [nth]. destruct Hs as [_ Hs].
  rewrite matchAny_loop_reach; [|exact HP|exact Hs|cbn [length]; lia].
  fold D. cbn [skipn]. f_equal.
  change (existsb (reachb D 0) (v0 :: vs)
          = existsb (fun t => reachb D 0 (h t)) (x :: l)).
  apply eq_true_iff_eq. rewrite !existsb_exists. split.
  - intros (v & Hv & Hrv).
    assert (Hin : In v (map h (x :: l)))
      by (eapply Permutation_in; [apply Permutation_sym, Hperm | exact Hv]).
    apply in_map_iff in Hin as (t & <- & Ht). eauto.
  - intros (t & Ht & Hrt). exists (h t). split; [|exact Hrt].
    eapply Permutation_in; [exact Hperm|]. apply in_map. exact Ht.
Qed.

(** The running values of a built filter are zero and the hashes of its
    items. *)
Lemma built_reachb (P : Z) (key : Buffer) (items : list Buffer) (g : Golomb.t) (v : Z) :
  static_fromItems P key items = Ok g ->
  (reachb (decode_all g (BitReader.new (Golomb.data g))) 0 v = true
   <-> v = 0 \/ exists item, In item items /\ sipmod64 item key (Golomb.m g) = v).
Proof.
  intros Hg.
  destruct (built_facts P key items g Hg) as (_ & _ & _ & _ & _ & Hr & Ha & Hin).
  destruct (built_decode_all P key items g Hg) as (j & Hd & _).
  rewrite Hd, reachb_deltas; [|lia|exact Ha|].
  - rewrite Hin. reflexivity.
  - destruct (built_facts P key items g Hg) as (_ & _ & Hn & Em & _).
    eapply Forall_impl; [|exact Hr]. intros h Hh. cbv beta in Hh. lia.
Qed.

(** X5.  The whole stream round-trips: reading the data of a built filter
    with [readU64] until [EOF] gives the successive differences of the
    sorted hashes, in order, followed only by zeros decoded from the padding
    bits, of which there are fewer than [8 / (P + 1)]. *)
Theorem decode_built (P : Z) (key : Buffer) (items : list Buffer) (g : Golomb.t) :
  static_fromItems P key items = Ok g ->
  exists j,
    decode_all g (BitReader.new (Golomb.data g))
    = deltas 0 (Spec.hashes sipmod64 key items) ++ repeat 0 j
    /\ Z.of_nat j * (P + 1) < 8.
Proof.
  intros Hg.
  destruct (built_facts P key items g Hg) as (_ & HP & _).
  destruct (built_decode_all P key items g Hg) as (j & Hd & Hj).
  exists j. split; [exact Hd|]. nia.
Qed.

(** X2.  [match] on a built filter is exact up to hash collisions: a target
    is reported present exactly when its hash is not zero and equals the
    hash of an item of the set; otherwise [match] returns [false]. *)
Theorem match_exact (P : Z) (key : Buffer) (items : list Buffer) (g : Golomb.t)
        (target : Buffer) :
  static_fromItems P key items = Ok g ->
  exists b,
    match_ g key target = Ok b
    /\ (b = true <->
        sipmod64 target key (Golomb.m g) <> 0
        /\ exists item, In item items
                        /\ sipmod64 item key (Golomb.m g)
                           = sipmod64 target key (Golomb.m g)).
Proof.
  intros Hg.
  destruct (built_facts P key items g Hg) as (Eg & HP & _).
  assert (HPg : 0 <= Golomb.p g <= 32) by (rewrite Eg; cbn; lia).
  eexists. split; [apply match_reachb, HPg|].
  rewrite andb_true_iff, negb_true_iff, Z.eqb_neq.
  rewrite (built_reachb P key items g _ Hg). split.
  - intros [Hnz [E|H]]; [lia|]. split; [lia | exact H].
  - intros [Hnz H]. split; [lia | right; exact H].
Qed.

(** X4.  [matchAny] on a built filter has no false negatives: a target set
    that holds an item of the set is reported; and it answers [true]
    exactly when some target has the hash zero or the hash of an item of
    the set. *)
Theorem matchAny_built (P : Z) (key : Buffer) (items targets : list Buffer)
        (g : Golomb.t) :
  static_fromItems P key items = Ok g ->
  targets <> [] ->
  exists b,
    matchAny g key targets = Ok b
    /\ (b = true <->
        exists t, In t targets
                  /\ (sipmod64 t key (Golomb.m g) = 0
                      \/ exists item, In item items
                                      /\ sipmod64 item key (Golomb.m g)
                                         = sipmod64 t key (Golomb.m g)))
    /\ ((exists t, In t targets /\ In t items) -> b = true).
Proof.
  intros Hg Hne.
  destruct (built_facts P key items g Hg) as (Eg & HP & _).
  assert (HPg : 0 <= Golomb.p g <= 32) by (rewrite Eg; cbn; lia).
  eexists. split; [apply matchAny_reachb; assumption|].
  assert (Hiff : forall t,
             reachb (decode_all g (BitReader.new (Golomb.data g))) 0
                    (sipmod64 t key (Golomb.m g)) = true
             <-> sipmod64 t key (Golomb.m g) = 0
                 \/ exists item, In item items
                                 /\ sipmod64 item key (Golomb.m g)
                                    = sipmod64 t key (Golomb.m g))
    by (intros t; apply (built_reachb P key items g _ Hg)).
  split.
  - rewrite existsb_exists. split.
    + intros (t & Ht & Hr). exists t. split; [apply BufferSet_from_In, Ht|].
      apply Hiff, Hr.
    + intros (t & Ht & Hr). exists t. split; [apply BufferSet_from_In, Ht|].
      apply Hiff, Hr.
  - intros (t & Ht & Hi). apply existsb_exists. exists t.
    split; [apply BufferSet_from_In, Ht|]. apply Hiff. right. eauto.
Qed.

(** ** The size of the data *)

Lemma rice_code_len (P v : Z) :
  length (rice_code P v) = (Z.to_nat (Z.shiftr v P) + 1 + Z.to_nat P)%nat.
Proof.
  unfold rice_code. rewrite !length_app, repeat_length, bits_of_int_length.
  cbn [length]. lia.
Qed.

Lemma div_add_le (a b c : Z) : 0 < c -> a / c + b / c <= (a + b) / c.
Proof.
  intros Hc. apply Z.div_le_lower_bound; [exact Hc|].
  pose proof (Z.mul_div_le a c Hc). pose proof (Z.mul_div_le b c Hc). lia.
Qed.

(** The codes of an ascending sequence below [bound] take [P + 1] bits for
    each member, and at most [(bound - last) >> P] bits more in all. *)
Lemma codes_length_bounds (P bound : Z) (hs : list Z) :
  0 <= P ->
  forall last : Z,
    0 <= last <= bound -> ascending last hs -> Forall (fun h => h <= bound) hs ->
    let bits := Z.of_nat (length (flat_map (rice_code P) (deltas last hs))) in
    Z.of_nat (length hs) * (P + 1) <= bits
    /\ bits <= Z.of_nat (length hs) * (P + 1) + (bound - last) / 2 ^ P.
Proof.
  intros HP. assert (H2 : 0 < 2 ^ P) by (apply Z.pow_pos_nonneg; lia).
  induction hs as [|h hs IH]; intros last Hl Ha Hb; cbn zeta.
  - cbn [deltas flat_map length]. split; [lia|].
    assert (0 <= (bound - last) / 2 ^ P) by (apply Z.div_pos; lia). lia.
  - destruct Ha as [Hlh Ha]. inversion Hb as [|? ? Hh Hb']; subst.
    cbn [deltas flat_map]. rewrite length_app, rice_code_len.
    specialize (IH h ltac:(lia) Ha Hb'). cbn zeta in IH.
    set (rest := Z.of_nat (length (flat_map (rice_code P) (deltas h hs)))) in *.
    assert (Hq : 0 <= Z.shiftr (h - last) P)
      by (apply Z.shiftr_nonneg; lia).
    rewrite Nat2Z.inj_add, !Nat2Z.inj_add, !Z2Nat.id by lia.
    change (Z.of_nat 1) with 1. cbn [length]. rewrite Nat2Z.inj_succ.
    rewrite Z.shiftr_div_pow2 in * by lia.
    pose proof (div_add_le (h - last) (bound - h) (2 ^ P) H2) as Hd.
    replace (h - last + (bound - h)) with (bound - last) in Hd by lia.
    lia.
Qed.

(** X6.  The size of a built filter: its data holds [P + 1] bits for each of
    the [N] items, at most [M >> P] bits of unary runs beyond that, and
    less than two bytes after the last code; with no items the data is
    empty.  The bit writer is not part of the sources: the bound leaves
    room, beyond the padding of the last byte, for one spare byte. *)
Theorem data_size_bounds (P : Z) (key : Buffer) (items : list Buffer) (g : Golomb.t) :
  static_fromItems P key items = Ok g ->
  let bytes := Z.of_nat (length (Golomb.data g)) in
  Golomb.n g * (P + 1) <= 8 * bytes
  /\ 8 * bytes <= Golomb.n g * (P + 1) + Golomb.m g / 2 ^ P + 15
  /\ (Golomb.n g = 0 -> Golomb.data g = []).
Proof.
  intros Hg bytes.
  destruct (built_facts P key items g Hg)
    as (Eg & HP & Hn & Em & Hlen & Hr & Ha & _).
  set (hs := Spec.hashes sipmod64 key items) in *.
  assert (EN : Golomb.n g = Z.of_nat (length hs)).
  { rewrite Hlen, Eg. reflexivity. }
  assert (Hb : Forall (fun h => h <= Golomb.m g) hs).
  { eapply Forall_impl; [|exact Hr]. intros h Hh. cbv beta in Hh. lia. }
  destruct (codes_length_bounds P (Golomb.m g) hs ltac:(lia) 0 ltac:(lia) Ha Hb)
    as [Hlo Hhi].
  rewrite Z.sub_0_r in Hhi.
  destruct (bits_of_pack_bits (flat_map (rice_code P) (deltas 0 hs)))
    as (k & Hk & Hbits).
  assert (Ebytes : 8 * bytes
                   = Z.of_nat (length (flat_map (rice_code P) (deltas 0 hs)))
                     + Z.of_nat k).
  { apply (f_equal (@length bool)) in Hbits.
    rewrite bits_of_bytes_length, length_app, repeat_length in Hbits.
    unfold bytes. rewrite Eg at 1. cbn [Spec.build Golomb.data]. fold hs. lia. }
  rewrite <- EN in Hlo, Hhi.
  split; [lia|]. split; [lia|].
  intros E0. rewrite E0 in *.
  assert (Em0 : Golomb.m g / 2 ^ P = 0) by (rewrite Em; reflexivity).
  assert (bytes = 0) by lia.
  destruct (Golomb.data g); [reflexivity | unfold bytes in *; cbn [length] in *; lia].
Qed.

(** ** Independence of the order of the items *)

(** Two inputs with the same members give the same set, up to the order
    in which the members were added. *)
Lemma from_same_members (items items' : list Buffer) :
  (forall x, In x items <-> In x items') ->
  Permutation (BufferSet.from items) (BufferSet.from items').
Proof.
  intros Hsame. apply NoDup_Permutation; try apply BufferSet_from_NoDup.
  intros x. rewrite !BufferSet_from_In. apply Hsame.
Qed.

(** The order in which the set yields its members is lost in the sort. *)
Lemma fromItems_permutation (P : Z) (key : Buffer) (items items' : list Buffer)
      (this : Golomb.t) :
  Permutation (BufferSet.from items) (BufferSet.from items') ->
  fromItems P key items this = fromItems P key items' this.
Proof.
  intros Hperm.
  assert (Hsize : BufferSet.size (BufferSet.from items)
                  = BufferSet.size (BufferSet.from items')).
  { unfold BufferSet.size. f_equal. apply Permutation_length, Hperm. }
  assert (Hsort : forall m,
             ZSort.sort (map (fun item => sipmod64 item key m) (BufferSet.from items))
             = ZSort.sort (map (fun item => sipmod64 item key m) (BufferSet.from items'))).
  { intros m. apply sort_permutation_eq, Permutation_map, Hperm. }
  unfold Golomb.fromItems, Golomb.mbind, Golomb.lift, Golomb.assign, Golomb.get.
  rewrite <- Hsize.
  destruct (assert ((0 <=? P) && (P <=? 32))); [|reflexivity].
  destruct (assert (Z.of_nat (length key) =? 16)); [|reflexivity].
  destruct (assert (0 <=? BufferSet.size (BufferSet.from items))); [|reflexivity].
  destruct (assert (BufferSet.size (BufferSet.from items) <=? 0xffffffff));
    [|reflexivity].
  cbn [Golomb.n Golomb.p Golomb.m Golomb.data].
  rewrite Hsort. reflexivity.
Qed.

(** X7.  Only the set of byte strings counts: two inputs that hold the same
    byte strings, in any order and with any repetitions, give the same
    outcome of [fromItems], on every instance. *)
Theorem fromItems_same_set (P : Z) (key : Buffer) (items items' : list Buffer)
        (this : Golomb.t) :
  (forall x, In x items <-> In x items') ->
  fromItems P key items this = fromItems P key items' this.
Proof.
  intros Hsame.
  apply fromItems_permutation.
  apply from_same_members.
  exact Hsame.
Qed.

(** ** Item extraction *)

Lemma fold_add_app (l1 l2 : list Buffer) (items : BufferSet.t) :
  fold_left BufferSet.add l2 (fold_left BufferSet.add l1 items)
  = fold_left BufferSet.add (l1 ++ l2) items.
Proof. symmetry. apply fold_left_app. Qed.

(** A loop whose turns each add a list of buffers adds them all. *)
Lemma fold_add_flat_map {A : Type} (step : BufferSet.t -> A -> BufferSet.t)
      (adds : A -> list Buffer) (l : list A) :
  (forall items a, step items a = fold_left BufferSet.add (adds a) items) ->
  forall items,
    fold_left step l items = fold_left BufferSet.add (flat_map adds l) items.
Proof.
  intros Hstep. induction l as [|a l IH]; intros items; [reflexivity|].
  cbn [fold_left flat_map]. rewrite IH, Hstep. apply fold_add_app.
Qed.

Lemma nth_last {A : Type} (l : list A) (d : A) :
  nth (length l - 1) l d = last l d.
Proof.
  induction l as [|a l IH]; [reflexivity|].
  destruct l as [|b l]; [reflexivity|].
  cbn [length last] in *. rewrite <- IH.
  replace (S (S (length l)) - 1)%nat with (S (S (length l) - 1)) by lia.
  reflexivity.
Qed.

Lemma getWitness_adds (items : BufferSet.t) (witness : Witness.t) :
  Golomb.getWitness items witness
  = fold_left BufferSet.add (Witness.items witness) items.
Proof. reflexivity. Qed.

Lemma getPushes_adds (items : BufferSet.t) (script : Script.t) :
  Golomb.getPushes items script = fold_left BufferSet.add (pushes script) items.
Proof.
  unfold Golomb.getPushes, pushes. rewrite nth_last.
  destruct (Script.code script) as [|op code] eqn:E; [reflexivity|].
  cbn [length Nat.eqb].
  destruct (Opcode.value (last (op :: code) (Opcode.mk 0 None)) =? -1);
    [reflexivity|].
  apply fold_add_flat_map. intros acc o. unfold op_pushes.
  destruct (Opcode.value o =? 0); [reflexivity|].
  destruct (Opcode.data o); reflexivity.
Qed.

Lemma add_output_adds (items : BufferSet.t) (output : Output.t) :
  Golomb.add_output items output
  = fold_left BufferSet.add
      (map (fun o => Script.raw (Output.script o)) (filter keeps_output [output]))
      items.
Proof.
  unfold Golomb.add_output, keeps_output. cbn [filter].
  destruct (Script.length (Output.script output) =? 0); [reflexivity|].
  destruct (Script.raw (Output.script output)) as [|first raw] eqn:E;
    cbn [nth_error negb andb filter map fold_left].
  - now rewrite E.
  - destruct (first =? 106); cbn [negb andb filter map fold_left];
      [reflexivity | now rewrite E].
Qed.

Lemma add_coin_adds (items : BufferSet.t) (entry : Z * Coin.t) :
  Golomb.add_coin items entry
  = fold_left BufferSet.add
      (map (fun e => Script.raw (Output.script (Coin.output (snd e))))
           (filter keeps_coin [entry]))
      items.
Proof.
  unfold Golomb.add_coin, keeps_coin. cbn [filter].
  destruct (Script.length (Output.script (Coin.output (snd entry))) =? 0);
    reflexivity.
Qed.

Lemma flat_map_singletons {A B : Type} (f : A -> B) (keep : A -> bool) (l : list A) :
  flat_map (fun a => map f (filter keep [a])) l = map f (filter keep l).
Proof.
  induction l as [|a l IH]; [reflexivity|].
  cbn [flat_map]. rewrite IH. cbn [filter]. destruct (keep a); reflexivity.
Qed.

(** The set [fromBlock] collects is the set of the kept scripts. *)
Lemma block_items (block : Block.t) (view : CoinView.t) :
  Golomb.add_coins (Golomb.add_outputs [] (Block.txs block)) view
  = BufferSet.from (basic_scripts block view).
Proof.
  unfold Golomb.add_coins, Golomb.add_outputs, BufferSet.from, basic_scripts.
  rewrite <- fold_add_app.
  rewrite (fold_add_flat_map _
             (fun tx => map (fun o => Script.raw (Output.script o))
                            (filter keeps_output (TX.outputs tx)))).
  - apply (fold_add_flat_map _
             (fun entry =>
                map (fun e => Script.raw (Output.script (Coin.output (snd e))))
                    (filter keeps_coin (Coins.outputs (snd entry))))).
    intros items entry.
    rewrite (fold_add_flat_map _ _ _ add_coin_adds).
    now rewrite flat_map_singletons.
  - intros items tx.
    rewrite (fold_add_flat_map _ _ _ add_output_adds).
    now rewrite flat_map_singletons.
Qed.

Lemma add_inputs_from (txs : list TX.t) :
  forall (i : nat) (items : BufferSet.t),
    (0 < i)%nat ->
    Golomb.add_inputs i items txs
    = fold_left BufferSet.add
        (flat_map (fun tx => flat_map input_items (TX.inputs tx)) txs) items.
Proof.
  induction txs as [|tx txs IH]; intros i items Hi; [reflexivity|].
  cbn [Golomb.add_inputs flat_map].
  destruct (Nat.ltb_spec 0 i); [|lia].
  rewrite IH by lia. rewrite <- fold_add_app. f_equal.
  apply fold_add_flat_map. intros acc input.
  rewrite getPushes_adds, getWitness_adds. apply fold_add_app.
Qed.

(** The set [fromExtended] collects. *)
Lemma block_extended_items (block : Block.t) :
  Golomb.add_inputs 0 [] (Block.txs block) = BufferSet.from (extended_items block).
Proof.
  unfold extended_items, BufferSet.from.
  destruct (Block.txs block) as [|tx txs]; [reflexivity|].
  cbn [Golomb.add_inputs Nat.ltb Nat.leb tl]. apply add_inputs_from. lia.
Qed.

Lemma fromItems_from (P : Z) (key : Buffer) (items : list Buffer) (this : Golomb.t) :
  fromItems P key (BufferSet.from items) this = fromItems P key items this.
Proof.
  revert this.
  assert (E : BufferSet.from (BufferSet.from items) = BufferSet.from items).
  { assert (H : forall l s, (forall x, In x l -> In x s) ->
                            fold_left BufferSet.add l s = s).
    { induction l as [|a l IHl]; intros s Hs; [reflexivity|].
      cbn [fold_left]. unfold BufferSet.add at 2, BufferSet.has.
      destruct (in_dec Buffer_eq_dec a s) as [Hin|Hin].
      - apply IHl. intros x Hx. apply Hs. now right.
      - destruct Hin. apply Hs. now left. }
    assert (G : forall l s, NoDup (s ++ l) ->
                            fold_left BufferSet.add l s = s ++ l).
    { induction l as [|a l IHl]; intros s Hnd; [now rewrite app_nil_r|].
      cbn [fold_left]. unfold BufferSet.add at 2, BufferSet.has.
      destruct (in_dec Buffer_eq_dec a s) as [Hin|Hin].
      - apply NoDup_remove_2 in Hnd. destruct Hnd. apply in_or_app. now left.
      - rewrite IHl; rewrite <- app_assoc; [reflexivity | exact Hnd]. }
    unfold BufferSet.from at 1. apply (G _ []). cbn [app].
    apply BufferSet_from_NoDup. }
  intros this. unfold Golomb.fromItems. rewrite E. reflexivity.
Qed.

Lemma fromBlock_items (block : Block.t) (view : CoinView.t) (this : Golomb.t) :
  Golomb.fromBlock siphash block view this
  = fromItems 19 (firstn 16 (Block.hash block)) (basic_scripts block view) this.
Proof.
  unfold Golomb.fromBlock. rewrite block_items. apply fromItems_from.
Qed.

Lemma fromExtended_items (block : Block.t) (this : Golomb.t) :
  Golomb.fromExtended siphash block this
  = fromItems 19 (firstn 16 (Block.hash block)) (extended_items block) this.
Proof.
  unfold Golomb.fromExtended. rewrite block_extended_items. apply fromItems_from.
Qed.

Lemma built_match_item (P : Z) (key : Buffer) (items : list Buffer) (g : Golomb.t)
      (item : Buffer) :
  static_fromItems P key items = Ok g ->
  In item items ->
  sipmod64 item key (Golomb.m g) <> 0 ->
  match_ g key item = Ok true.
Proof.
  intros Hg Hin Hnz.
  destruct (built_facts P key items g Hg) as (Eg & HP & _).
  rewrite match_reachb by (rewrite Eg; cbn; lia).
  destruct (Z.eqb_spec 0 (sipmod64 item key (Golomb.m g))); [lia|].
  cbn [negb andb]. f_equal.
  apply (built_reachb P key items g _ Hg). right. eauto.
Qed.

Lemma built_matchAny_item (P : Z) (key : Buffer) (items targets : list Buffer)
      (g : Golomb.t) (item : Buffer) :
  static_fromItems P key items = Ok g ->
  In item items ->
  In item targets ->
  matchAny g key targets = Ok true.
Proof.
  intros Hg Hin Ht.
  destruct (built_facts P key items g Hg) as (Eg & HP & _).
  rewrite matchAny_reachb;
    [|rewrite Eg; cbn; lia|intros E; rewrite E in Ht; destruct Ht].
  f_equal. apply existsb_exists. exists item.
  split; [apply BufferSet_from_In, Ht|].
  apply (built_reachb P key items g _ Hg). right. eauto.
Qed.

Lemma static_fromBlock_items (block : Block.t) (view : CoinView.t) :
  Golomb.static_fromBlock siphash block view
  = static_fromItems 19 (firstn 16 (Block.hash block)) (basic_scripts block view).
Proof.
  unfold Golomb.static_fromBlock, Golomb.static_fromItems, Golomb.static.
  now rewrite fromBlock_items.
Qed.

Lemma static_fromExtended_items (block : Block.t) :
  Golomb.static_fromExtended siphash block
  = static_fromItems 19 (firstn 16 (Block.hash block)) (extended_items block).
Proof.
  unfold Golomb.static_fromExtended, Golomb.static_fromItems, Golomb.static.
  now rewrite fromExtended_items.
Qed.

Lemma pushes_In (script : Script.t) (x : Buffer) :
  In x (pushes script) <->
  Script.code script <> []
  /\ Opcode.value (last (Script.code script) (Opcode.mk 0 None)) <> -1
  /\ exists op, In op (Script.code script)
                /\ ((Opcode.value op = 0 /\ x = [])
                    \/ (Opcode.value op <> 0 /\ Opcode.data op = Some x)).
Proof.
  unfold pushes.
  destruct (Script.code script) as [|o code] eqn:E.
  - split; [intros [] | intros [H _]; now destruct H].
  - destruct (Z.eqb_spec (Opcode.value (last (o :: code) (Opcode.mk 0 None))) (-1))
      as [El|El].
    + split; [intros [] | intros (_ & H & _); contradiction].
    + rewrite in_flat_map. split.
      * intros (op & Hop & Hx). split; [discriminate|]. split; [exact El|].
        exists op. split; [exact Hop|]. unfold op_pushes in Hx.
        destruct (Z.eqb_spec (Opcode.value op) 0) as [E0|E0].
        -- left. destruct Hx as [<-|[]]. auto.
        -- right. destruct (Opcode.data op) as [d|]; [|destruct Hx].
           destruct Hx as [<-|[]]. auto.
      * intros (_ & _ & op & Hop & Hx). exists op. split; [exact Hop|].
        unfold op_pushes.
        destruct Hx as [[E0 ->]|[E0 Ed]].
        -- rewrite E0. now left.
        -- destruct (Z.eqb_spec (Opcode.value op) 0); [contradiction|].
           rewrite Ed. now left.
Qed.

(** X11.  [getPushes] keeps what the set held and adds exactly the pushed
    data of a script that parsed: nothing when the script has no opcodes or
    its last opcode is the parse-error marker [-1]; otherwise the empty
    buffer for every opcode 0 and the data of every other opcode that
    carries some.  The result holds no byte string twice. *)
Theorem getPushes_spec (items : BufferSet.t) (script : Script.t) (x : Buffer) :
  NoDup items ->
  NoDup (Golomb.getPushes items script)
  /\ (In x (Golomb.getPushes items script) <->
      In x items
      \/ (Script.code script <> []
          /\ Opcode.value (last (Script.code script) (Opcode.mk 0 None)) <> -1
          /\ exists op, In op (Script.code script)
                        /\ ((Opcode.value op = 0 /\ x = [])
                            \/ (Opcode.value op <> 0
                                /\ Opcode.data op = Some x)))).
Proof.
  intros Hnd. rewrite getPushes_adds. split.
  - apply BufferSet_fold_NoDup, Hnd.
  - rewrite BufferSet_fold_spec, pushes_In. reflexivity.
Qed.

Lemma basic_scripts_In (block : Block.t) (view : CoinView.t) (x : Buffer) :
  In x (basic_scripts block view) <->
  (exists tx output,
      In tx (Block.txs block) /\ In output (TX.outputs tx)
      /\ Script.length (Output.script output) <> 0
      /\ nth_error (Script.raw (Output.script output)) 0 <> Some 106
      /\ Script.raw (Output.script output) = x)
  \/ (exists entry e,
         In entry (CoinView.map view) /\ In e (Coins.outputs (snd entry))
         /\ Script.length (Output.script (Coin.output (snd e))) <> 0
         /\ Script.raw (Output.script (Coin.output (snd e))) = x).
Proof.
  unfold basic_scripts. rewrite in_app_iff, !in_flat_map.
  assert (Hk : forall o, keeps_output o = true <->
                         Script.length (Output.script o) <> 0
                         /\ nth_error (Script.raw (Output.script o)) 0 <> Some 106).
  { intros o. unfold keeps_output.
    rewrite andb_true_iff, !negb_true_iff, Z.eqb_neq.
    destruct (Script.raw (Output.script o)) as [|first raw]; cbn [nth_error].
    - split; [intros [H _]; split; [exact H | discriminate] | intros [H _]; auto].
    - rewrite Z.eqb_neq. split; intros [H1 H2]; (split; [exact H1|]).
      + intros E. injection E as E. contradiction.
      + intros E. apply H2. now rewrite E. }
  split.
  - intros [(tx & Htx & Hx)|(entry & He & Hx)]; [left | right].
    + apply in_map_iff in Hx as (o & Eo & Ho). apply filter_In in Ho as [Ho Hkeep].
      apply Hk in Hkeep as [H1 H2]. exists tx, o. auto.
    + apply in_map_iff in Hx as (e & Ee & Hin). apply filter_In in Hin as [Hin Hkeep].
      unfold keeps_coin in Hkeep. rewrite negb_true_iff, Z.eqb_neq in Hkeep.
      exists entry, e. auto.
  - intros [(tx & o & Htx & Ho & H1 & H2 & E)|(entry & e & He & Hin & H1 & E)];
      [left; exists tx | right; exists entry]; (split; [assumption|]).
    + apply in_map_iff. exists o. split; [exact E|].
      apply filter_In. split; [exact Ho|]. apply Hk. auto.
    + apply in_map_iff. exists e. split; [exact E|].
      apply filter_In. split; [exact Hin|].
      unfold keeps_coin. now rewrite negb_true_iff, Z.eqb_neq.
Qed.

(** X12.  A basic filter reports the scripts of its block: every output
    script of the block that is not empty and does not start with OP_RETURN
    (106), and every non-empty script of a coin of the view, OP_RETURN or
    not, is found by [matchAny] in any target set that holds it, and by
    [match] unless its hash reduces to zero; the key is the first 16 bytes
    of the block hash. *)
Theorem fromBlock_sound (block : Block.t) (view : CoinView.t) (g : Golomb.t)
        (x : Buffer) :
  Golomb.static_fromBlock siphash block view = Ok g ->
  (exists tx output,
      In tx (Block.txs block) /\ In output (TX.outputs tx)
      /\ Script.length (Output.script output) <> 0
      /\ nth_error (Script.raw (Output.script output)) 0 <> Some 106
      /\ Script.raw (Output.script output) = x)
  \/ (exists entry e,
         In entry (CoinView.map view) /\ In e (Coins.outputs (snd entry))
         /\ Script.length (Output.script (Coin.output (snd e))) <> 0
         /\ Script.raw (Output.script (Coin.output (snd e))) = x) ->
  let key := firstn 16 (Block.hash block) in
  (forall targets, In x targets -> matchAny g key targets = Ok true)
  /\ (sipmod64 x key (Golomb.m g) <> 0 -> match_ g key x = Ok true).
Proof.
  intros Hg Hx key. rewrite static_fromBlock_items in Hg.
  apply basic_scripts_In in Hx. split.
  - intros targets Ht. apply (built_matchAny_item _ _ _ _ _ x Hg Hx Ht).
  - intros Hnz. apply (built_match_item _ _ _ _ x Hg Hx Hnz).
Qed.

(** X13.  [fromBlock] succeeds exactly on blocks whose hash gives a 16-byte
    key (given no more than [2^32 - 1] scripts); the filter then has
    [P = 19], counts the distinct kept scripts, serializes in the canonical
    layout, and comes back from it when it holds fewer than 253 scripts.
    With a shorter hash [fromBlock] throws and leaves the instance as it
    was. *)
Theorem fromBlock_outcome (block : Block.t) (view : CoinView.t) (this : Golomb.t) :
  Z.of_nat (length (BufferSet.from (basic_scripts block view))) <= 0xffffffff ->
  ((16 <= length (Block.hash block))%nat ->
   exists g,
     Golomb.fromBlock siphash block view this = (g, Ok tt)
     /\ Golomb.static_fromBlock siphash block view = Ok g
     /\ Golomb.p g = 19
     /\ Golomb.n g = Z.of_nat (length (BufferSet.from (basic_scripts block view)))
     /\ Golomb.toRaw g = Ok (Golomb.toNBytes g)
     /\ (Golomb.n g < 253 -> Golomb.static_fromRaw (Golomb.toNBytes g) = Ok g))
  /\ ((length (Block.hash block) < 16)%nat ->
      Golomb.fromBlock siphash block view this = (this, Throw AssertionError)
      /\ Golomb.static_fromBlock siphash block view = Throw AssertionError).
Proof.
  intros Hn. split.
  - intros Hh.
    assert (Hk : length (firstn 16 (Block.hash block)) = 16%nat)
      by (apply firstn_length_le, Hh).
    exists (Spec.build sipmod64 19 (firstn 16 (Block.hash block))
                       (basic_scripts block view)).
    assert (Hs : Golomb.static_fromBlock siphash block view
                 = Ok (Spec.build sipmod64 19 (firstn 16 (Block.hash block))
                                  (basic_scripts block view))).
    { rewrite static_fromBlock_items.
      apply (static_fromItems_build siphash siphash_range); [lia | exact Hk | exact Hn]. }
    split.
    { rewrite fromBlock_items.
      apply (fromItems_build siphash siphash_range); [lia | exact Hk | exact Hn]. }
    split; [exact Hs|]. split; [reflexivity|]. split; [reflexivity|].
    split; [reflexivity|].
    intros Hsmall. rewrite static_fromBlock_items in Hs.
    destruct (built_valid siphash siphash_range _ _ _ _ Hs) as [Hv _].
    unfold Golomb.static_fromRaw, Golomb.fromRaw.
    apply (roundtrip_N _ Hv Hsmall).
  - intros Hh.
    assert (Hk : length (firstn 16 (Block.hash block)) <> 16%nat)
      by (rewrite length_firstn; lia).
    assert (E : forall that,
               fromItems 19 (firstn 16 (Block.hash block))
                         (basic_scripts block view) that
               = (that, Throw AssertionError)).
    { intros that. unfold Golomb.fromItems, Golomb.mbind, Golomb.lift.
      cbn [assert Z.leb andb].
      destruct (Z.eqb_spec (Z.of_nat (length (firstn 16 (Block.hash block)))) 16);
        [lia | reflexivity]. }
    split; [rewrite fromBlock_items; apply E|].
    rewrite static_fromBlock_items.
    unfold Golomb.static_fromItems, Golomb.static. now rewrite E.
Qed.

(** X14.  A basic filter does not depend on a transaction all of whose
    outputs are empty or start with OP_RETURN, which can be added anywhere
    without changing the outcome, nor on the order of the transactions:
    every rearrangement of the block's transactions gives the same
    outcome. *)
Theorem fromBlock_ignores (hash : Buffer) (txs1 txs2 : list TX.t) (tx : TX.t)
        (view : CoinView.t) (this : Golomb.t) :
  (forall output, In output (TX.outputs tx) ->
                  Script.length (Output.script output) = 0
                  \/ nth_error (Script.raw (Output.script output)) 0 = Some 106) ->
  Golomb.fromBlock siphash (Block.mk hash (txs1 ++ tx :: txs2)) view this
  = Golomb.fromBlock siphash (Block.mk hash (txs1 ++ txs2)) view this
  /\ (forall txs txs',
         Permutation txs txs' ->
         Golomb.fromBlock siphash (Block.mk hash txs) view this
         = Golomb.fromBlock siphash (Block.mk hash txs') view this)
  /\ (forall txs',
         Permutation (txs1 ++ txs2) txs' ->
         Golomb.fromBlock siphash (Block.mk hash (txs1 ++ tx :: txs2)) view this
         = Golomb.fromBlock siphash (Block.mk hash txs') view this).
Proof.
  intros Hskip.
  assert (Hdrop : Golomb.fromBlock siphash (Block.mk hash (txs1 ++ tx :: txs2))
                                   view this
                  = Golomb.fromBlock siphash (Block.mk hash (txs1 ++ txs2))
                                     view this).
  { rewrite !fromBlock_items. cbn [Block.hash].
    apply fromItems_permutation, from_same_members; intros x.
    rewrite !basic_scripts_In. cbn [Block.txs]. split.
    - intros [(t & o & Ht & Ho & H1 & H2 & E)|H]; [|now right].
      left. exists t, o. repeat split; try assumption.
      apply in_app_iff in Ht as [Ht|[<-|Ht]].
      + apply in_app_iff. now left.
      + destruct (Hskip o Ho); contradiction.
      + apply in_app_iff. now right.
    - intros [(t & o & Ht & Ho & H1 & H2 & E)|H]; [|now right].
      left. exists t, o. repeat split; try assumption.
      apply in_app_iff in Ht as [Ht|Ht]; apply in_app_iff;
        [now left | right; now right]. }
  assert (Horder : forall txs txs',
             Permutation txs txs' ->
             Golomb.fromBlock siphash (Block.mk hash txs) view this
             = Golomb.fromBlock siphash (Block.mk hash txs') view this).
  { intros txs txs' Hp. rewrite !fromBlock_items. cbn [Block.hash].
    apply fromItems_permutation, from_same_members; intros x.
    rewrite !basic_scripts_In. cbn [Block.txs].
    split; (intros [(t & o & Ht & H)|H]; [|now right]);
      left; exists t, o; (split; [|exact H]).
    - eapply Permutation_in; [exact Hp | exact Ht].
    - eapply Permutation_in; [apply Permutation_sym, Hp | exact Ht]. }
  split; [exact Hdrop|]. split; [exact Horder|].
  intros txs' Hp. rewrite Hdrop. apply Horder, Hp.
Qed.

Lemma extended_items_In (block : Block.t) (x : Buffer) :
  In x (extended_items block) <->
  exists tx input,
    In tx (tl (Block.txs block)) /\ In input (TX.inputs tx)
    /\ (In x (Witness.items (Input.witness input))
        \/ In x (pushes (Input.script input))).
Proof.
  unfold extended_items. rewrite in_flat_map. split.
  - intros (tx & Htx & Hx). apply in_flat_map in Hx as (input & Hi & Hx).
    unfold input_items in Hx. apply in_app_iff in Hx. eauto.
  - intros (tx & input & Htx & Hi & Hx). exists tx. split; [exact Htx|].
    apply in_flat_map. exists input. split; [exact Hi|].
    unfold input_items. apply in_app_iff. exact Hx.
Qed.

(** X15.  An extended filter reports the data of the inputs of every
    transaction but the first: each witness item, and each buffer that
    [getPushes] takes from an input script that parsed, is found by
    [matchAny] in any target set that holds it, and by [match] unless its
    hash reduces to zero. *)
Theorem fromExtended_sound (block : Block.t) (g : Golomb.t) (tx : TX.t)
        (input : Input.t) (x : Buffer) :
  Golomb.static_fromExtended siphash block = Ok g ->
  In tx (tl (Block.txs block)) ->
  In input (TX.inputs tx) ->
  In x (Witness.items (Input.witness input))
  \/ In x (Golomb.getPushes [] (Input.script input)) ->
  let key := firstn 16 (Block.hash block) in
  (forall targets, In x targets -> matchAny g key targets = Ok true)
  /\ (sipmod64 x key (Golomb.m g) <> 0 -> match_ g key x = Ok true).
Proof.
  intros Hg Htx Hi Hx key. rewrite static_fromExtended_items in Hg.
  assert (Hin : In x (extended_items block)).
  { apply extended_items_In. exists tx, input. split; [exact Htx|].
    split; [exact Hi|]. destruct Hx as [Hx|Hx]; [now left | right].
    rewrite getPushes_adds, BufferSet_fold_spec in Hx.
    destruct Hx as [[]|Hx]. exact Hx. }
  split.
  - intros targets Ht. apply (built_matchAny_item _ _ _ _ _ x Hg Hin Ht).
  - intros Hnz. apply (built_match_item _ _ _ _ x Hg Hin Hnz).
Qed.

(** X16.  An extended filter passes over the first transaction of the block:
    replacing it changes nothing, and a block of one transaction, with a
    hash of 16 bytes or more, gives the empty filter. *)
Theorem fromExtended_coinbase (hash : Buffer) (tx0 tx0' : TX.t) (txs : list TX.t)
        (this : Golomb.t) :
  (16 <= length hash)%nat ->
  Golomb.fromExtended siphash (Block.mk hash (tx0 :: txs)) this
  = Golomb.fromExtended siphash (Block.mk hash (tx0' :: txs)) this
  /\ Golomb.fromExtended siphash (Block.mk hash [tx0]) this
     = (Golomb.mk 0 19 0 [], Ok tt).
Proof.
  intros Hh. split; [reflexivity|].
  rewrite fromExtended_items. cbn [Block.hash extended_items].
  rewrite (fromItems_build siphash siphash_range);
    [reflexivity | lia | apply firstn_length_le, Hh | cbn; lia].
Qed.

End Coverage.

(** ** Reading the wire layouts *)

Lemma le_bytes_le_value (l : Buffer) :
  Forall is_byte l -> bio.le_bytes (length l) (bio.le_value l) = l.
Proof.
  induction 1 as [|b l Hb Hl IH]; [reflexivity|].
  cbn [length bio.le_value bio.le_bytes]. unfold is_byte in Hb.
  replace ((b + 256 * bio.le_value l) mod 256) with b.
  - replace ((b + 256 * bio.le_value l) / 256) with (bio.le_value l);
      [now rewrite IH|].
    symmetry. rewrite Z.mul_comm, Z.div_add by lia.
    rewrite Z.div_small by lia. lia.
  - symmetry. rewrite Z.mul_comm, Z.mod_add by lia. apply Z.mod_small. lia.
Qed.

Lemma le_value_range (l : Buffer) :
  Forall is_byte l -> 0 <= bio.le_value l < 256 ^ Z.of_nat (length l).
Proof.
  induction 1 as [|b l Hb Hl IH]; [cbn; lia|].
  cbn [length bio.le_value]. unfold is_byte in Hb.
  rewrite Nat2Z.inj_succ, Z.pow_succ_r by lia. lia.
Qed.

(** X9.  Parsing then serializing gives the bytes back: for a buffer of
    bytes, [fromNPBytes] then [toNPBytes] when it is at least five bytes
    long and its fifth byte is at most 32; [fromPBytes] then [toPBytes] when
    it is not empty and its first byte is at most 32; [fromNBytes] then
    [toNBytes] when it is not empty and its first byte is below 253, so that
    the count takes one byte. *)
Theorem parse_then_serialize (bytes : Buffer) :
  Forall is_byte bytes ->
  ((5 <= length bytes)%nat -> nth 4 bytes 0 <= 32 ->
   exists g, Golomb.static_fromNPBytes bytes = Ok g
             /\ Golomb.toNPBytes g = Ok bytes)
  /\ (forall N, (1 <= length bytes)%nat -> nth 0 bytes 0 <= 32 ->
      exists g, Golomb.static_fromPBytes N bytes = Ok g
                /\ Golomb.n g = N
                /\ Golomb.toPBytes g = Ok bytes)
  /\ (forall P, 0 <= P <= 32 -> (1 <= length bytes)%nat -> nth 0 bytes 0 < 253 ->
      exists g, Golomb.static_fromNBytes P bytes = Ok g
                /\ Golomb.p g = P
                /\ Golomb.toNBytes g = bytes).
Proof.
  intros Hb. split; [|split].
  - intros Hl HP.
    destruct bytes as [|b0 [|b1 [|b2 [|b3 [|P rest]]]]]; cbn [length] in Hl; try lia.
    cbn [nth] in HP.
    assert (HP0 : 0 <= P).
    { rewrite Forall_forall in Hb. specialize (Hb P). unfold is_byte in Hb.
      apply Hb. cbn. tauto. }
    assert (H4 : Forall is_byte [b3; b2; b1; b0]).
    { rewrite Forall_forall in *. intros x Hx. apply Hb. cbn in *. tauto. }
    pose proof (le_value_range _ H4) as Hr.
    pose proof (le_bytes_le_value _ H4) as Hv.
    cbn [length] in Hr, Hv. change (256 ^ Z.of_nat 4) with 4294967296 in Hr.
    set (N := bio.le_value [b3; b2; b1; b0]) in *.
    exists (Golomb.mk N P (U64.mul Golomb.M (U64.wrap N)) rest). split.
    + unfold Golomb.static_fromNPBytes, Golomb.static, Golomb.fromNPBytes,
        Golomb.mbind, Golomb.lift.
      cbn [length Nat.leb assert bio.readUInt32BE Nat.add skipn firstn rev app
           bio.readUInt8 nth_error bio.slice].
      fold N. rewrite fromBytes_ok by lia. reflexivity.
    + unfold Golomb.toNPBytes, bio.writeUInt32BE, bio.writeUInt8.
      cbn [Golomb.n Golomb.p Golomb.data].
      replace ((0 <=? N) && (N <=? 0xffffffff)) with true
        by (symmetry; apply andb_true_intro; split; apply Z.leb_le; lia).
      replace ((0 <=? P) && (P <=? 0xff)) with true
        by (symmetry; apply andb_true_intro; split; apply Z.leb_le; lia).
      cbn [bind]. rewrite Hv. reflexivity.
  - intros N Hl HP. destruct bytes as [|P rest]; cbn [length] in Hl; [lia|].
    cbn [nth] in HP.
    assert (HP0 : 0 <= P).
    { inversion Hb as [|? ? HbP _]; subst. unfold is_byte in HbP. lia. }
    exists (Golomb.mk N P (U64.mul Golomb.M (U64.wrap N)) rest). split; [|split].
    + unfold Golomb.static_fromPBytes, Golomb.static, Golomb.fromPBytes,
        Golomb.mbind, Golomb.lift.
      cbn [length Nat.leb assert bio.readUInt8 nth_error bio.slice skipn].
      rewrite fromBytes_ok by lia. reflexivity.
    + reflexivity.
    + unfold Golomb.toPBytes, bio.writeUInt8. cbn [Golomb.p Golomb.data].
      replace ((0 <=? P) && (P <=? 0xff)) with true
        by (symmetry; apply andb_true_intro; split; apply Z.leb_le; lia).
      reflexivity.
  - intros P HP Hl Hn. destruct bytes as [|N rest]; cbn [length] in Hl; [lia|].
    cbn [nth] in Hn.
    exists (Golomb.mk N P (U64.mul Golomb.M (U64.wrap N)) rest). split; [|split].
    + unfold Golomb.static_fromNBytes, Golomb.static, Golomb.fromNBytes,
        Golomb.mbind, Golomb.lift, bio.readVarint.
      destruct (Z.eqb_spec N 0xff); [lia|].
      destruct (Z.eqb_spec N 0xfe); [lia|].
      destruct (Z.eqb_spec N 0xfd); [lia|].
      cbn [bio.slice skipn]. rewrite fromBytes_ok by lia. reflexivity.
    + reflexivity.
    + unfold Golomb.toNBytes, bio.writeVarint. cbn [Golomb.n Golomb.data].
      destruct (Z.ltb_spec N 0xfd); [reflexivity | lia].
Qed.

(** X10.  Malformed buffers are rejected before anything is assigned:
    [fromNPBytes] throws on fewer than five bytes and on a fifth byte above
    32, [fromPBytes] on the empty buffer and on a first byte above 32,
    [fromBytes] on [P] outside [0, 32]; the instance stays as it was. *)
Theorem malformed_buffers_rejected (bytes : Buffer) (N P : Z) (this : Golomb.t) :
  ((length bytes < 5)%nat \/ 32 < nth 4 bytes 0 ->
   Golomb.fromNPBytes bytes this = (this, Throw AssertionError))
  /\ (bytes = [] \/ 32 < nth 0 bytes 0 ->
      Golomb.fromPBytes N bytes this = (this, Throw AssertionError))
  /\ (P < 0 \/ 32 < P ->
      Golomb.fromBytes N P bytes this = (this, Throw AssertionError)).
Proof.
  assert (HB : forall N' P' d that,
             P' < 0 \/ 32 < P' ->
             Golomb.fromBytes N' P' d that = (that, Throw AssertionError)).
  { intros N' P' d that HP'. unfold Golomb.fromBytes, Golomb.mbind, Golomb.lift.
    replace ((0 <=? P') && (P' <=? 32)) with false; [reflexivity|].
    symmetry. apply andb_false_iff. rewrite !Z.leb_gt. lia. }
  split; [|split].
  - unfold Golomb.fromNPBytes, Golomb.mbind, Golomb.lift.
    destruct (Nat.leb_spec 5 (length bytes)) as [Hl|Hl]; cbn [assert].
    + intros [H|H]; [lia|].
      destruct bytes as [|b0 [|b1 [|b2 [|b3 [|P5 rest]]]]]; cbn [length] in Hl;
        try lia.
      cbn [nth] in H.
      cbn [length Nat.leb bio.readUInt32BE Nat.add bio.readUInt8 nth_error bio.slice
           skipn].
      apply HB. lia.
    + reflexivity.
  - unfold Golomb.fromPBytes, Golomb.mbind, Golomb.lift.
    destruct bytes as [|P1 rest]; cbn [length Nat.leb assert]; [reflexivity|].
    intros [H|H]; [discriminate|]. cbn [nth] in H.
    cbn [bio.readUInt8 nth_error bio.slice skipn]. apply HB. lia.
  - apply HB.
Qed.

(** * The filter node *)

Ltac run_node :=
  cbv beta iota zeta delta
      [FilterNode.open FilterNode.close FilterNode.scan FilterNode.watchBlock
       FilterNode.on_tx FilterNode.on_connect FilterNode.bind FilterNode.catch
       FilterNode.finally FilterNode.await FilterNode.tell FilterNode.when
       FilterNode.assert FilterNode.set_opened FilterNode.set_rescanJob
       FilterNode.ret FilterNode.raise FilterNode.record
       FilterNode.opened FilterNode.filterindex FilterNode.rescanJob FilterNode.log
       fst snd].

Section Node.

Variable env : list FilterNode.call -> FilterNode.call -> option FilterNode.failure.

Import FilterNode.

(** A method that only makes calls leaves the fields of the node alone. *)
Definition quiet (c : FilterNode.action unit) : Prop :=
  forall node node' r,
    c node = (node', r) ->
    opened node' = opened node
    /\ filterindex node' = filterindex node
    /\ rescanJob node' = rescanJob node.

Lemma quiet_await (c : FilterNode.call) : quiet (FilterNode.await env c).
Proof.
  intros node node' r. unfold FilterNode.await.
  destruct (env (log node) c); intros E; injection E as <- _; cbn; auto.
Qed.

Lemma quiet_ret : quiet (FilterNode.ret tt).
Proof. intros node node' r E. injection E as <- _. auto. Qed.

Lemma quiet_seq (c k : FilterNode.action unit) :
  quiet c -> quiet k -> quiet (c >> k).
Proof.
  intros Hc Hk node node' r. unfold FilterNode.bind.
  destruct (c node) as [node1 [[]|f]] eqn:E1.
  - intros E2. destruct (Hc _ _ _ E1) as (A1 & A2 & A3).
    destruct (Hk _ _ _ E2) as (B1 & B2 & B3).
    rewrite B1, B2, B3. auto.
  - intros E2. injection E2 as <- _. apply (Hc _ _ _ E1).
Qed.

Lemma quiet_when_filterindex (c : FilterNode.call) :
  quiet (fun node => FilterNode.when (filterindex node) (FilterNode.await env c) node).
Proof.
  intros node node' r. unfold FilterNode.when.
  destruct (filterindex node) eqn:Ef; intros E.
  - destruct (quiet_await c _ _ _ E) as (A & B & C). rewrite Ef in B. auto.
  - injection E as <- _. auto.
Qed.

(** What [open] does once the node is marked open, and [close] once it is
    marked closed. *)
Definition opening : FilterNode.action unit :=
  FilterNode.await env handlePreopen >>
  FilterNode.await env chain_open >>
  FilterNode.await env pool_open >>
  (fun node => FilterNode.when (filterindex node)
                 (FilterNode.await env filterindex_open) node) >>
  FilterNode.await env openPlugins >>
  FilterNode.await env http_open >>
  FilterNode.await env handleOpen >>
  FilterNode.await env logger_info.

Definition closing : FilterNode.action unit :=
  (fun node => FilterNode.when (filterindex node)
                 (FilterNode.await env filterindex_close) node) >>
  FilterNode.await env handlePreclose >>
  FilterNode.await env http_close >>
  FilterNode.await env closePlugins >>
  FilterNode.await env pool_close >>
  FilterNode.await env chain_close >>
  FilterNode.await env handleClose.

Lemma quiet_opening : quiet opening.
Proof.
  unfold opening.
  repeat (apply quiet_seq;
          [first [apply quiet_await | apply quiet_when_filterindex]|]).
  apply quiet_await.
Qed.

Lemma quiet_closing : quiet closing.
Proof.
  unfold closing.
  repeat (apply quiet_seq;
          [first [apply quiet_await | apply quiet_when_filterindex]|]).
  apply quiet_await.
Qed.

Lemma open_closed (node : FilterNode.t) :
  opened node = false ->
  FilterNode.open env node
  = opening (FilterNode.mk true (filterindex node) (rescanJob node) (log node)).
Proof.
  intros Hc. unfold FilterNode.open.
  unfold FilterNode.bind at 1. rewrite Hc. cbn [negb FilterNode.assert FilterNode.ret].
  unfold FilterNode.bind at 1. cbn [FilterNode.set_opened]. reflexivity.
Qed.

Lemma open_opened (node : FilterNode.t) :
  opened node = true ->
  FilterNode.open env node = (node, Raised AssertFailure).
Proof.
  intros Hc. unfold FilterNode.open.
  unfold FilterNode.bind at 1. rewrite Hc. reflexivity.
Qed.

Lemma close_opened (node : FilterNode.t) :
  opened node = true ->
  FilterNode.close env node
  = closing (FilterNode.mk false (filterindex node) (rescanJob node) (log node)).
Proof.
  intros Hc. unfold FilterNode.close.
  unfold FilterNode.bind at 1. rewrite Hc. cbn [FilterNode.assert FilterNode.ret].
  unfold FilterNode.bind at 1. cbn [FilterNode.set_opened]. reflexivity.
Qed.

Lemma close_closed (node : FilterNode.t) :
  opened node = false ->
  FilterNode.close env node = (node, Raised AssertFailure).
Proof.
  intros Hc. unfold FilterNode.close.
  unfold FilterNode.bind at 1. rewrite Hc. reflexivity.
Qed.

(** A sequence that returns has made its first call, which returned. *)
Lemma await_seq_done (c : FilterNode.call) (k : FilterNode.action unit)
      (node node' : FilterNode.t) :
  (FilterNode.await env c >> k) node = (node', Done tt) ->
  k (FilterNode.record c node) = (node', Done tt).
Proof.
  unfold FilterNode.bind, FilterNode.await.
  destruct (env (log node) c); [discriminate | auto].
Qed.

Lemma await_done (c : FilterNode.call) (node node' : FilterNode.t) :
  FilterNode.await env c node = (node', Done tt) ->
  node' = FilterNode.record c node.
Proof.
  unfold FilterNode.await.
  destruct (env (log node) c); [discriminate|]. intros E. now injection E.
Qed.

Lemma when_seq_done (c : FilterNode.call) (k : FilterNode.action unit)
      (node node' : FilterNode.t) :
  ((fun node => FilterNode.when (filterindex node) (FilterNode.await env c) node)
   >> k) node = (node', Done tt) ->
  k (if filterindex node then FilterNode.record c node else node) = (node', Done tt).
Proof.
  unfold FilterNode.bind, FilterNode.when, FilterNode.await, FilterNode.ret.
  destruct (filterindex node); [|auto].
  destruct (env (log node) c); [discriminate | auto].
Qed.

End Node.

Section NodeLife.

Variable env : list FilterNode.call -> FilterNode.call -> option FilterNode.failure.

Import FilterNode.

(** X17.  A failed [open] leaves the node marked open: [opened] is set
    before the first collaborator is awaited, so after any failure a second
    [open] is refused by the assertion, in any environment and without a
    single call, while [close] passes its assertion and leaves the node
    marked closed. *)
Theorem open_failure_sticks (node node' : FilterNode.t) (f : FilterNode.failure) :
  opened node = false ->
  FilterNode.open env node = (node', Raised f) ->
  opened node' = true
  /\ (forall env', FilterNode.open env' node' = (node', Raised AssertFailure))
  /\ (forall env' node'' r,
         FilterNode.close env' node' = (node'', r) -> opened node'' = false).
Proof.
  intros Hc Ho. rewrite (open_closed env node Hc) in Ho.
  apply (quiet_opening env) in Ho as (Hopen & _). cbn [opened] in Hopen.
  split; [exact Hopen|]. split.
  - intros env'. apply open_opened, Hopen.
  - intros env' node'' r Hcl. rewrite (close_opened env' node' Hopen) in Hcl.
    apply (quiet_closing env') in Hcl as (H & _). exact H.
Qed.

(** X18.  [open] and [close] alternate: when [open] returns, the node was
    closed, is now open, and its collaborators were opened in the order pre-
    open hook, chain, pool, filter index (when there is one), plugins, HTTP
    server, open hook; when [close] returns, the node was open, is now
    closed, and they were closed in the order filter index, pre-close hook,
    HTTP server, plugins, pool, chain, close hook.  Neither touches the
    rescan job. *)
Theorem open_close_alternate (node node' : FilterNode.t) :
  (FilterNode.open env node = (node', Done tt) ->
   opened node = false /\ opened node' = true
   /\ rescanJob node' = rescanJob node
   /\ log node'
      = log node
        ++ [handlePreopen; chain_open; pool_open]
        ++ (if filterindex node then [filterindex_open] else [])
        ++ [openPlugins; http_open; handleOpen; logger_info])
  /\ (FilterNode.close env node = (node', Done tt) ->
      opened node = true /\ opened node' = false
      /\ rescanJob node' = rescanJob node
      /\ log node'
         = log node
           ++ (if filterindex node then [filterindex_close] else [])
           ++ [handlePreclose; http_close; closePlugins; pool_close;
               chain_close; handleClose]).
Proof.
  split.
  - intros Ho. destruct (opened node) eqn:Hc.
    { rewrite (open_opened env node Hc) in Ho. discriminate. }
    split; [reflexivity|]. rewrite (open_closed env node Hc) in Ho.
    pose proof (quiet_opening env _ _ _ Ho) as (H1 & _ & H3).
    cbn [opened rescanJob] in H1, H3.
    split; [exact H1|]. split; [exact H3|].
    unfold opening in Ho.
    do 3 apply await_seq_done in Ho.
    apply when_seq_done in Ho.
    cbn [FilterNode.record filterindex opened rescanJob log] in Ho.
    destruct (filterindex node);
      do 3 apply await_seq_done in Ho; apply await_done in Ho; subst node';
      cbn [FilterNode.record filterindex opened rescanJob log];
      rewrite <- !app_assoc; reflexivity.
  - intros Ho. destruct (opened node) eqn:Hc.
    2:{ rewrite (close_closed env node Hc) in Ho. discriminate. }
    split; [reflexivity|]. rewrite (close_opened env node Hc) in Ho.
    pose proof (quiet_closing env _ _ _ Ho) as (H1 & _ & H3).
    cbn [opened rescanJob] in H1, H3.
    split; [exact H1|]. split; [exact H3|].
    unfold closing in Ho.
    apply when_seq_done in Ho.
    cbn [FilterNode.record filterindex opened rescanJob log] in Ho.
    destruct (filterindex node);
      do 5 apply await_seq_done in Ho; apply await_done in Ho; subst node';
      cbn [FilterNode.record filterindex opened rescanJob log];
      rewrite <- !app_assoc; reflexivity.
Qed.

(** X19.  With a rescan job in place and the lock acquired, [watchBlock]
    never throws and settles the job at most once: below the height of the
    job the block's transactions go to the iterator and the job stays, unless
    the iterator fails, which rejects and removes the job; from that height
    on the job is resolved and removed.  The lock is released last on every
    path. *)
Theorem watchBlock_settles (node : FilterNode.t) (entry_height : Z)
        (block : Block.t) (job : RescanJob) :
  rescanJob node = Some job ->
  env (log node) watchLock_lock = None ->
  exists node' middle,
    FilterNode.watchBlock env entry_height block node = (node', Done tt)
    /\ opened node' = opened node
    /\ log node' = log node ++ [watchLock_lock] ++ middle ++ [watchLock_unlock]
    /\ ((entry_height < height job
         /\ middle = [job_iter entry_height (Block.txs block)]
         /\ rescanJob node' = Some job)
        \/ (entry_height < height job
            /\ (exists f, middle = [job_iter entry_height (Block.txs block);
                                    job_reject f])
            /\ rescanJob node' = None)
        \/ (height job <= entry_height
            /\ middle = [job_resolve]
            /\ rescanJob node' = None)).
Proof.
  destruct node as [o fi rj lg]. cbn [rescanJob log opened].
  intros Hj Hl. subst rj. run_node. rewrite Hl. run_node.
  destruct (Z.ltb_spec entry_height (height job)) as [Hlt|Hge].
  - destruct (env (lg ++ [watchLock_lock])
                  (job_iter entry_height (Block.txs block))) as [f|] eqn:Ei;
      run_node.
    + eexists. exists [job_iter entry_height (Block.txs block); job_reject f].
      split; [reflexivity|]. run_node. rewrite <- !app_assoc.
      split; [reflexivity|]. split; [reflexivity|].
      right; left. eauto.
    + eexists. exists [job_iter entry_height (Block.txs block)].
      split; [reflexivity|]. run_node. rewrite <- !app_assoc.
      split; [reflexivity|]. split; [reflexivity|]. left. auto.
  - eexists. exists [job_resolve].
    split; [reflexivity|]. run_node. rewrite <- !app_assoc.
    split; [reflexivity|]. split; [reflexivity|]. right; right. auto.
Qed.

(** X21.  [scan] and [watchBlock] release their lock on every path, whether
    the replay, the iterator or the job fails or not, and never release a
    lock they failed to take. *)
Theorem locks_released (node : FilterNode.t) (start entry_height : Z)
        (block : Block.t) :
  (exists calls,
      log (fst (FilterNode.scan env start node)) = log node ++ calls
      /\ paired (env (log node) scanLock_lock) scanLock_lock scanLock_unlock calls)
  /\ (exists calls,
         log (fst (FilterNode.watchBlock env entry_height block node))
         = log node ++ calls
         /\ paired (env (log node) watchLock_lock)
                   watchLock_lock watchLock_unlock calls).
Proof.
  destruct node as [o fi rj lg]. cbn [log]. split.
  - run_node. destruct (env lg scanLock_lock); run_node; cbn [paired].
    + exists [scanLock_lock]. split; reflexivity.
    + exists ([scanLock_lock] ++ [chain_replay start] ++ [scanLock_unlock]).
      split.
      * destruct (env _ (chain_replay start)); run_node;
          now rewrite <- !app_assoc.
      * exists [chain_replay start]. split; [reflexivity|].
        split; intros [E|[]]; discriminate.
  - run_node. destruct (env lg watchLock_lock); run_node; cbn [paired].
    + exists [watchLock_lock]. split; reflexivity.
    + destruct rj as [job|]; run_node.
      * destruct (entry_height <? height job); run_node.
        -- destruct (env _ (job_iter entry_height (Block.txs block))) as [f|];
             run_node.
           ++ exists ([watchLock_lock]
                      ++ [job_iter entry_height (Block.txs block); job_reject f]
                      ++ [watchLock_unlock]).
              split; [now rewrite <- !app_assoc|].
              eexists. split; [reflexivity|].
              split; intros [E|[E|[]]]; discriminate.
           ++ exists ([watchLock_lock]
                      ++ [job_iter entry_height (Block.txs block)]
                      ++ [watchLock_unlock]).
              split; [now rewrite <- !app_assoc|].
              eexists. split; [reflexivity|].
              split; intros [E|[]]; discriminate.
        -- exists ([watchLock_lock] ++ [job_resolve] ++ [watchLock_unlock]).
           split; [now rewrite <- !app_assoc|].
           eexists. split; [reflexivity|].
           split; intros [E|[]]; discriminate.
      * exists ([watchLock_lock] ++ [] ++ [watchLock_unlock]).
        split; [now rewrite <- !app_assoc|].
        exists []. split; [reflexivity|]. split; intros [].
Qed.

(** X20.  A rescan job gates the events: while one is in place the [tx]
    handler gives nothing to the listeners and changes nothing, and the
    [connect] handler emits neither [connect] nor [tx]; it returns, unless
    the lock could not be taken, in which case the failure goes to the error
    handler of the node and nothing else is called.  Without a job each
    handler emits its event and makes no other call. *)
Theorem rescan_gates_events (node : FilterNode.t) (tx : TX.t) (entry_height : Z)
        (block : Block.t) :
  (rescanJob node <> None ->
   FilterNode.on_tx env tx node = (node, Done tt)
   /\ exists node' calls r,
       FilterNode.on_connect env entry_height block node = (node', r)
       /\ log node' = log node ++ calls
       /\ (forall h b, ~ In (emit_connect h b) calls)
       /\ (forall t, ~ In (emit_tx t) calls)
       /\ (r = Done tt \/ exists f, calls = [watchLock_lock; node_error f]))
  /\ (rescanJob node = None ->
      log (fst (FilterNode.on_tx env tx node)) = log node ++ [emit_tx tx]
      /\ log (fst (FilterNode.on_connect env entry_height block node))
         = log node ++ [emit_connect entry_height block]).
Proof.
  destruct node as [o fi rj lg]. cbn [rescanJob log]. split.
  - intros Hj. destruct rj as [job|]; [clear Hj | now destruct Hj].
    split; [reflexivity|].
    run_node. destruct (env lg watchLock_lock) as [f|]; run_node.
    + eexists. exists [watchLock_lock; node_error f].
      destruct (env _ (node_error f)) as [f'|]; run_node;
        eexists; (split; [reflexivity|]); run_node; rewrite <- app_assoc;
        (split; [reflexivity|]);
        (split; [intros; intros [E|[E|[]]]; discriminate|]);
        (split; [intros; intros [E|[E|[]]]; discriminate|]);
        right; eexists; reflexivity.
    + destruct (entry_height <? height job); run_node.
      * destruct (env _ (job_iter entry_height (Block.txs block))) as [f|];
          run_node.
        -- eexists.
           exists [watchLock_lock; job_iter entry_height (Block.txs block);
                   job_reject f; watchLock_unlock].
           eexists. split; [reflexivity|]. run_node. rewrite <- !app_assoc.
           split; [reflexivity|].
           split; [intros; intros [E|[E|[E|[E|[]]]]]; discriminate|].
           split; [intros; intros [E|[E|[E|[E|[]]]]]; discriminate|].
           left; reflexivity.
        -- eexists.
           exists [watchLock_lock; job_iter entry_height (Block.txs block);
                   watchLock_unlock].
           eexists. split; [reflexivity|]. run_node. rewrite <- !app_assoc.
           split; [reflexivity|].
           split; [intros; intros [E|[E|[E|[]]]]; discriminate|].
           split; [intros; intros [E|[E|[E|[]]]]; discriminate|].
           left; reflexivity.
      * eexists. exists [watchLock_lock; job_resolve; watchLock_unlock].
        eexists. split; [reflexivity|]. run_node. rewrite <- !app_assoc.
        split; [reflexivity|].
        split; [intros; intros [E|[E|[E|[]]]]; discriminate|].
        split; [intros; intros [E|[E|[E|[]]]]; discriminate|].
        left; reflexivity.
  - intros Ej. subst rj. run_node. split.
    + destruct (env lg (emit_tx tx)); reflexivity.
    + destruct (env lg (emit_connect entry_height block)); reflexivity.
Qed.

End NodeLife.

(** * Concrete runs *)

Lemma SipHash24_range (data key : Buffer) :
  0 <= SipHash24.siphash data key < 2 ^ 64.
Proof.
  unfold SipHash24.siphash.
  destruct (SipHash24.blocks _ data) as [s tail].
  apply U64_wrap_range.
Qed.

Example build_abc :
  Golomb.static_fromItems SipHash24.siphash 19 zero_key abc = Ok filter_abc.
Proof. vm_compute. reflexivity. Qed.

Example match_abc :
  Golomb.match_ SipHash24.siphash filter_abc zero_key [97] = Ok true
  /\ Golomb.match_ SipHash24.siphash filter_abc zero_key [122; 122; 122] = Ok false.
Proof. split; vm_compute; reflexivity. Qed.


(** C10 on an input that repeats one byte string. *)
Lemma fromItems_dedup_witness :
  NoDup [[2]; [1]]
  /\ Golomb.static_fromItems SipHash24.siphash 19 zero_key [[1]; [2]; [1]]
     = Golomb.static_fromItems SipHash24.siphash 19 zero_key [[2]; [1]]
  /\ exists g,
      Golomb.static_fromItems SipHash24.siphash 19 zero_key [[1]; [2]; [1]] = Ok g
      /\ Golomb.static_fromItems SipHash24.siphash 19 zero_key [[2]; [1]] = Ok g
      /\ Golomb.n g = 2.
Proof.
  assert (Hnd : NoDup ([[2]; [1]] : list Buffer)).
  { repeat constructor; cbn; intuition discriminate. }
  assert (Hsame : forall x : Buffer, In x [[1]; [2]; [1]] <-> In x [[2]; [1]]).
  { intros x. cbn. intuition. }
  split; [exact Hnd|].
  destruct (fromItems_dedup SipHash24.siphash SipHash24_range 19 zero_key
              [[1]; [2]; [1]] [[2]; [1]] Golomb.new Hnd Hsame)
    as (_ & Es & _ & Hbuild).
  split; [exact Es|].
  destruct Hbuild as (g & _ & _ & E1 & E2 & En & _);
    [lia | reflexivity | cbn; lia |].
  exists g. split; [exact E1|]. split; [exact E2 | exact En].
Defined.

(** C8 at [P = 33]. *)
Lemma invalid_arguments_rejected_witness :
  32 < 33
  /\ Golomb.static_fromItems SipHash24.siphash 33 zero_key abc
     = Throw AssertionError.
Proof.
  split; [lia|].
  apply (invalid_arguments_rejected SipHash24.siphash 33 zero_key abc Golomb.new).
  right; left; lia.
Defined.

(** C7 on a stream of eight one-bits: the unary run never ends. *)
Lemma eof_is_sentinel_witness :
  0 <= 19 <= 32
  /\ Golomb.readU64 filter_abc (BitReader.new [255]) = Ok Golomb.EOF.
Proof.
  assert (H : 0 <= Golomb.p filter_abc <= 32) by (cbn; lia).
  split; [lia|].
  apply (proj1 (proj2 (proj2 (eof_is_sentinel SipHash24.siphash filter_abc
                                (BitReader.new [255]) H))) 8%nat).
  reflexivity.
Defined.

(** C6 at [P = 2], [v = 13]: the code is [111 0 01]. *)
Lemma rice_roundtrip_witness :
  exists bw',
    Golomb.encode 2 (BitWriter.new, 0) 13 = Ok (bw', 13)
    /\ written bw' = written BitWriter.new ++ rice_code 2 13
    /\ Golomb._readU64 (Golomb.mk 1 2 784931 [])
         (BitReader.mk (BitWriter.render bw') (bits_written BitWriter.new))
       = Ok (13, BitReader.mk (BitWriter.render bw') (bits_written bw')).
Proof.
  apply (rice_roundtrip 2 13 BitWriter.new (Golomb.mk 1 2 784931 [])).
  - lia.
  - lia.
  - apply wf_writer_new.
  - reflexivity.
Defined.

(** C1 on the filter built from ["482108"] alone: the item is reported
    absent. *)
Lemma match_misses_zero_hash_witness :
  Golomb.static_fromItems SipHash24.siphash 19 zero_key [item_482108]
  = Ok (Golomb.mk 1 19 784931 [0; 0; 0])
  /\ Golomb.sipmod64 SipHash24.siphash item_482108 zero_key 784931 = 0
  /\ Golomb.match_ SipHash24.siphash (Golomb.mk 1 19 784931 [0; 0; 0])
                   zero_key item_482108 = Ok false.
Proof.
  assert (E : Golomb.static_fromItems SipHash24.siphash 19 zero_key [item_482108]
              = Ok (Golomb.mk 1 19 784931 [0; 0; 0]))
    by (vm_compute; reflexivity).
  assert (Z0 : Golomb.sipmod64 SipHash24.siphash item_482108 zero_key 784931 = 0)
    by (vm_compute; reflexivity).
  split; [exact E|]. split; [exact Z0|].
  apply (match_misses_zero_hash SipHash24.siphash 19 zero_key [item_482108]
           item_482108 _ E); [left; reflexivity | exact Z0].
Defined.

(** C2 on the filter of ["a"], ["b"], ["c"] and the target ["1736255"],
    which is not in the set. *)
Lemma matchAny_differs_from_match_witness :
  Golomb.sipmod64 SipHash24.siphash item_1736255 zero_key (Golomb.m filter_abc) = 0
  /\ Golomb.matchAny SipHash24.siphash filter_abc zero_key [item_1736255] = Ok true
  /\ Golomb.match_ SipHash24.siphash filter_abc zero_key item_1736255 = Ok false.
Proof.
  assert (Z0 : Golomb.sipmod64 SipHash24.siphash item_1736255 zero_key
                               (Golomb.m filter_abc) = 0)
    by (vm_compute; reflexivity).
  split; [exact Z0|].
  apply (matchAny_differs_from_match SipHash24.siphash filter_abc zero_key
           item_1736255 Z0).
Defined.

(** C4 on the filter built from no items. *)
Lemma matchAny_empty_filter_witness :
  Golomb.static_fromItems SipHash24.siphash 19 zero_key [] = Ok (Golomb.mk 0 19 0 [])
  /\ Golomb.match_ SipHash24.siphash (Golomb.mk 0 19 0 []) zero_key [97] = Ok false
  /\ Golomb.matchAny SipHash24.siphash (Golomb.mk 0 19 0 []) zero_key abc = Ok true.
Proof.
  split; [vm_compute; reflexivity|].
  apply (matchAny_empty_filter SipHash24.siphash (Golomb.mk 0 19 0 []) zero_key
           [97] abc).
  - reflexivity.
  - reflexivity.
  - discriminate.
Defined.

(** C3 on the filter of ["a"], ["b"], ["c"], through the canonical layout. *)
Lemma roundtrip_layouts_witness :
  Golomb.static_fromItems SipHash24.siphash 19 zero_key abc = Ok filter_abc
  /\ Golomb.static_fromRaw (Golomb.toNBytes filter_abc) = Ok filter_abc.
Proof.
  assert (E : Golomb.static_fromItems SipHash24.siphash 19 zero_key abc
              = Ok filter_abc) by (vm_compute; reflexivity).
  split; [exact E|].
  apply (roundtrip_layouts SipHash24.siphash SipHash24_range 19 zero_key abc
           filter_abc E).
  - reflexivity.
  - cbn. lia.
Defined.

(** A filter of 253 items in the varint-N layout: the count takes three
    bytes, and two of them come back as data. *)
Example fromNBytes_253 :
  Golomb.toNBytes (Golomb.mk 253 19 (784931 * 253) []) = [253; 253; 0]
  /\ Golomb.static_fromNBytes 19 [253; 253; 0]
     = Ok (Golomb.mk 253 19 (784931 * 253) [253; 0]).
Proof. split; vm_compute; reflexivity. Qed.

(** The claim of C3 at [P = 20]: the canonical layout has no serialization
    of the filter, so nothing to read back. *)
Lemma toRaw_rejects_other_P :
  ~ (forall g,
        Golomb.static_fromItems SipHash24.siphash 20 zero_key abc = Ok g ->
        exists bytes,
          Golomb.toRaw g = Ok bytes /\ Golomb.static_fromRaw bytes = Ok g).
Proof.
  intros H.
  destruct (H (Golomb.mk 3 20 2354793 [22; 40; 116; 76; 123; 236; 123; 38]))
    as (bytes & E & _).
  - vm_compute. reflexivity.
  - discriminate E.
Qed.

(** C9 with a stand-in digest of 32 bytes. *)
Lemma header_commits_witness :
  length (repeat 0 32) = length (repeat 1 32)
  /\ Golomb.hash (fun b => bio.le_bytes 32 (SipHash24.siphash b zero_key))
                 filter_abc false
     = Golomb.Raw (bio.le_bytes 32
                     (SipHash24.siphash (Golomb.toNBytes filter_abc) zero_key)).
Proof.
  split; [reflexivity|].
  assert (Hn : 0 <= Golomb.n filter_abc < 2 ^ 64) by (cbn; lia).
  exact (proj1 (header_commits
                  (fun b => bio.le_bytes 32 (SipHash24.siphash b zero_key))
                  filter_abc filter_abc (repeat 0 32) (repeat 1 32)
                  Hn Hn eq_refl)).
Defined.

(** The claim of C9 for two filters that differ in [P] alone: they decode
    to different sets, the first to the hash 1 and the second to the hash 2,
    and have the same header over every previous header, whatever the
    digest. *)
Lemma header_ignores_P :
  Golomb.static_fromBytes 1 1 [64] = Ok (Golomb.mk 1 1 784931 [64])
  /\ Golomb.static_fromBytes 1 2 [64] = Ok (Golomb.mk 1 2 784931 [64])
  /\ Golomb.mk 1 1 784931 [64] <> Golomb.mk 1 2 784931 [64]
  /\ Golomb._readU64 (Golomb.mk 1 1 784931 [64]) (BitReader.new [64])
     = Ok (1, BitReader.mk [64] 2)
  /\ Golomb._readU64 (Golomb.mk 1 2 784931 [64]) (BitReader.new [64])
     = Ok (2, BitReader.mk [64] 3)
  /\ forall (digest : Buffer -> Buffer) (prev : Buffer),
      Golomb.header digest (Golomb.mk 1 1 784931 [64]) prev
      = Golomb.header digest (Golomb.mk 1 2 784931 [64]) prev.
Proof.
  repeat split; try (vm_compute; reflexivity).
  discriminate.
Qed.

(** ** Runs of the further properties *)

(** X1 on the item ["a"] of the filter of ["a"], ["b"], ["c"]. *)
Lemma match_finds_nonzero_witness :
  Golomb.sipmod64 SipHash24.siphash [97] zero_key (Golomb.m filter_abc) <> 0
  /\ Golomb.match_ SipHash24.siphash filter_abc zero_key [97] = Ok true.
Proof.
  assert (Hnz : Golomb.sipmod64 SipHash24.siphash [97] zero_key (Golomb.m filter_abc)
                <> 0) by (vm_compute; discriminate).
  split; [exact Hnz|].
  apply (match_finds_nonzero SipHash24.siphash SipHash24_range 19 zero_key abc [97]
           filter_abc build_abc); [left; reflexivity | exact Hnz].
Defined.

(** X2 on a target outside the set. *)
Lemma match_exact_witness :
  exists b,
    Golomb.match_ SipHash24.siphash filter_abc zero_key [122; 122; 122] = Ok b
    /\ (b = true <->
        Golomb.sipmod64 SipHash24.siphash [122; 122; 122] zero_key
                        (Golomb.m filter_abc) <> 0
        /\ exists item,
            In item abc
            /\ Golomb.sipmod64 SipHash24.siphash item zero_key (Golomb.m filter_abc)
               = Golomb.sipmod64 SipHash24.siphash [122; 122; 122] zero_key
                                 (Golomb.m filter_abc)).
Proof.
  exact (match_exact SipHash24.siphash SipHash24_range 19 zero_key abc filter_abc
           [122; 122; 122] build_abc).
Defined.

(** X3 on two targets, one of them in the set. *)
Lemma matchAny_spec_witness :
  0 <= Golomb.p filter_abc <= 32
  /\ exists b,
      Golomb.matchAny SipHash24.siphash filter_abc zero_key [[122]; [98]] = Ok b
      /\ (b = true <->
          exists t, In t [[122]; [98]]
                    /\ (Golomb.sipmod64 SipHash24.siphash t zero_key
                                        (Golomb.m filter_abc) = 0
                        \/ Golomb.match_ SipHash24.siphash filter_abc zero_key t
                           = Ok true)).
Proof.
  assert (HP : 0 <= Golomb.p filter_abc <= 32) by (cbn; lia).
  split; [exact HP|].
  apply (matchAny_spec SipHash24.siphash filter_abc zero_key [[122]; [98]] HP).
  discriminate.
Defined.

(** X4 on a target set that holds ["b"]. *)
Lemma matchAny_built_witness :
  exists b,
    Golomb.matchAny SipHash24.siphash filter_abc zero_key [[122]; [98]] = Ok b
    /\ b = true.
Proof.
  destruct (matchAny_built SipHash24.siphash SipHash24_range 19 zero_key abc
              [[122]; [98]] filter_abc build_abc)
    as (b & E & _ & Hs); [discriminate|].
  exists b. split; [exact E|]. apply Hs. exists [98]. cbn. tauto.
Defined.

(** X5 on the filter of ["a"], ["b"], ["c"]. *)
Lemma decode_built_witness :
  exists j,
    decode_all filter_abc (BitReader.new (Golomb.data filter_abc))
    = deltas 0 (Spec.hashes (Golomb.sipmod64 SipHash24.siphash) zero_key abc)
      ++ repeat 0 j
    /\ Z.of_nat j * (19 + 1) < 8.
Proof.
  exact (decode_built SipHash24.siphash SipHash24_range 19 zero_key abc filter_abc
           build_abc).
Defined.

(** X6 on the same filter: 60 bits of remainders, 64 bits of data. *)
Lemma data_size_bounds_witness :
  Golomb.n filter_abc * (19 + 1) <= 8 * Z.of_nat (length (Golomb.data filter_abc))
  /\ 8 * Z.of_nat (length (Golomb.data filter_abc))
     <= Golomb.n filter_abc * (19 + 1) + Golomb.m filter_abc / 2 ^ 19 + 15.
Proof.
  destruct (data_size_bounds SipHash24.siphash SipHash24_range 19 zero_key abc
              filter_abc build_abc) as (H1 & H2 & _).
  split; [exact H1 | exact H2].
Defined.

(** X7 on two orders of the same items, one with a repetition. *)
Lemma fromItems_same_set_witness :
  Golomb.fromItems SipHash24.siphash 19 zero_key [[99]; [97]; [98]; [97]] Golomb.new
  = Golomb.fromItems SipHash24.siphash 19 zero_key abc Golomb.new.
Proof.
  apply (fromItems_same_set SipHash24.siphash 19 zero_key
           [[99]; [97]; [98]; [97]] abc Golomb.new).
  intros x. cbn. intuition.
Defined.

(** X8 on a filter of 253 items without data. *)
Lemma fromNBytes_long_count_witness :
  253 <= 253 <= 0xffff
  /\ Golomb.static_fromNBytes 19 (Golomb.toNBytes (Golomb.mk 253 19 (784931 * 253) []))
     = Ok (Golomb.mk 253 19 (784931 * 253) (bio.le_bytes 2 253 ++ [])).
Proof.
  split; [lia|].
  apply (fromNBytes_long_count (Golomb.mk 253 19 (784931 * 253) [])).
  - unfold valid, derived. cbn. repeat split; try lia; reflexivity.
  - cbn. lia.
Defined.

(** X9 on five bytes and a byte of data. *)
Lemma parse_then_serialize_witness :
  Forall is_byte [0; 0; 0; 1; 19; 255]
  /\ exists g, Golomb.static_fromNPBytes [0; 0; 0; 1; 19; 255] = Ok g
               /\ Golomb.toNPBytes g = Ok [0; 0; 0; 1; 19; 255].
Proof.
  assert (Hb : Forall is_byte [0; 0; 0; 1; 19; 255])
    by (repeat constructor; unfold is_byte; lia).
  split; [exact Hb|].
  apply (proj1 (parse_then_serialize [0; 0; 0; 1; 19; 255] Hb)).
  - cbn. lia.
  - cbn. lia.
Defined.

(** X10 on a buffer of three bytes. *)
Lemma malformed_buffers_rejected_witness :
  (length [1; 2; 3] < 5)%nat
  /\ Golomb.fromNPBytes [1; 2; 3] filter_abc = (filter_abc, Throw AssertionError).
Proof.
  assert (Hl : (length [1; 2; 3] < 5)%nat) by (cbn; lia).
  split; [exact Hl|].
  apply (proj1 (malformed_buffers_rejected [1; 2; 3] 0 0 filter_abc)).
  left. exact Hl.
Defined.

(** X11 on a script that pushes the empty buffer and ["c"]. *)
Lemma getPushes_spec_witness :
  NoDup [[98]] /\ NoDup (Golomb.getPushes [[98]] script_push).
Proof.
  assert (Hnd : NoDup ([[98]] : list Buffer))
    by (repeat constructor; intros []).
  split; [exact Hnd|].
  exact (proj1 (getPushes_spec [[98]] script_push [] Hnd)).
Defined.

Example block_ab_filter :
  Golomb.static_fromBlock SipHash24.siphash block_ab view_c = Ok filter_abc.
Proof. vm_compute. reflexivity. Qed.

(** X12 on the output script ["a"] of the block. *)
Lemma fromBlock_sound_witness :
  Golomb.static_fromBlock SipHash24.siphash block_ab view_c = Ok filter_abc
  /\ Golomb.matchAny SipHash24.siphash filter_abc zero_key [[97]] = Ok true.
Proof.
  split; [exact block_ab_filter|].
  assert (Hx : (exists tx output,
                   In tx (Block.txs block_ab) /\ In output (TX.outputs tx)
                   /\ Script.length (Output.script output) <> 0
                   /\ nth_error (Script.raw (Output.script output)) 0 <> Some 106
                   /\ Script.raw (Output.script output) = [97])
               \/ (exists entry e,
                      In entry (CoinView.map view_c)
                      /\ In e (Coins.outputs (snd entry))
                      /\ Script.length (Output.script (Coin.output (snd e))) <> 0
                      /\ Script.raw (Output.script (Coin.output (snd e))) = [97])).
  { left. exists tx_coinbase, (Output.mk (script_of [97])).
    split; [left; reflexivity|]. split; [left; reflexivity|].
    split; [discriminate|]. split; [discriminate | reflexivity]. }
  destruct (fromBlock_sound SipHash24.siphash SipHash24_range block_ab view_c
              filter_abc [97] block_ab_filter Hx) as [Hany _].
  apply Hany. left. reflexivity.
Defined.

(** X13 on the same block. *)
Lemma fromBlock_outcome_witness :
  (16 <= length (Block.hash block_ab))%nat
  /\ exists g,
      Golomb.static_fromBlock SipHash24.siphash block_ab view_c = Ok g
      /\ Golomb.p g = 19
      /\ Golomb.toRaw g = Ok (Golomb.toNBytes g).
Proof.
  assert (Hh : (16 <= length (Block.hash block_ab))%nat) by (cbn; lia).
  split; [exact Hh|].
  destruct (fromBlock_outcome SipHash24.siphash SipHash24_range block_ab view_c
              Golomb.new) as [H _]; [vm_compute; discriminate|].
  destruct (H Hh) as (g & _ & E & Ep & _ & Er & _).
  exists g. auto.
Defined.

(** X14 on a transaction whose only output is an OP_RETURN script, and on
    the two transactions of the block in the other order. *)
Lemma fromBlock_ignores_witness :
  Golomb.fromBlock SipHash24.siphash
    (Block.mk (repeat 0 32) ([tx_spend] ++ TX.mk [] [Output.mk script_null] :: []))
    view_c Golomb.new
  = Golomb.fromBlock SipHash24.siphash
      (Block.mk (repeat 0 32) ([tx_spend] ++ [])) view_c Golomb.new
  /\ Golomb.fromBlock SipHash24.siphash
       (Block.mk (repeat 0 32) [tx_coinbase; tx_spend]) view_c Golomb.new
     = Golomb.fromBlock SipHash24.siphash
         (Block.mk (repeat 0 32) [tx_spend; tx_coinbase]) view_c Golomb.new.
Proof.
  assert (Hskip : forall output,
             In output (TX.outputs (TX.mk [] [Output.mk script_null])) ->
             Script.length (Output.script output) = 0
             \/ nth_error (Script.raw (Output.script output)) 0 = Some 106).
  { intros output [<-|[]]. right. reflexivity. }
  destruct (fromBlock_ignores SipHash24.siphash (repeat 0 32) [tx_spend] []
              (TX.mk [] [Output.mk script_null]) view_c Golomb.new Hskip)
    as (Hdrop & Horder & _).
  split; [exact Hdrop|].
  apply Horder. apply perm_swap.
Defined.

Example block_ab_extended :
  Golomb.static_fromExtended SipHash24.siphash block_ab
  = Ok (Golomb.mk 3 19 2354793 [44; 80; 225; 133; 106; 234; 179; 54]).
Proof. vm_compute. reflexivity. Qed.

(** X15 on the witness item ["b"] of the second transaction. *)
Lemma fromExtended_sound_witness :
  In tx_spend (tl (Block.txs block_ab))
  /\ Golomb.matchAny SipHash24.siphash
       (Golomb.mk 3 19 2354793 [44; 80; 225; 133; 106; 234; 179; 54])
       zero_key [[98]] = Ok true.
Proof.
  assert (Htx : In tx_spend (tl (Block.txs block_ab))) by (left; reflexivity).
  split; [exact Htx|].
  assert (Hi : In (Input.mk script_push (Witness.mk [[98]])) (TX.inputs tx_spend))
    by (left; reflexivity).
  assert (Hx : In [98] (Witness.items
                          (Input.witness (Input.mk script_push (Witness.mk [[98]]))))
               \/ In [98] (Golomb.getPushes []
                             (Input.script
                                (Input.mk script_push (Witness.mk [[98]])))))
    by (left; left; reflexivity).
  destruct (fromExtended_sound SipHash24.siphash SipHash24_range block_ab _ tx_spend
              _ [98] block_ab_extended Htx Hi Hx) as [Hany _].
  apply Hany. left. reflexivity.
Defined.

(** X16 on a block that holds the first transaction alone. *)
Lemma fromExtended_coinbase_witness :
  (16 <= length (repeat 0 32))%nat
  /\ Golomb.fromExtended SipHash24.siphash (Block.mk (repeat 0 32) [tx_coinbase])
                         Golomb.new
     = (Golomb.mk 0 19 0 [], Ok tt).
Proof.
  assert (Hh : (16 <= length (repeat 0 32))%nat) by (cbn; lia).
  split; [exact Hh|].
  exact (proj2 (fromExtended_coinbase SipHash24.siphash SipHash24_range
                  (repeat 0 32) tx_coinbase tx_coinbase [] Golomb.new Hh)).
Defined.

(** X17 when opening the chain fails. *)
Lemma open_failure_sticks_witness :
  FilterNode.open env_chain_fails node_closed
  = (FilterNode.mk true true None [FilterNode.handlePreopen; FilterNode.chain_open],
     FilterNode.Raised (FilterNode.Rejected 1))
  /\ FilterNode.open env_ok
       (FilterNode.mk true true None [FilterNode.handlePreopen; FilterNode.chain_open])
     = (FilterNode.mk true true None [FilterNode.handlePreopen; FilterNode.chain_open],
        FilterNode.Raised FilterNode.AssertFailure).
Proof.
  assert (E : FilterNode.open env_chain_fails node_closed
              = (FilterNode.mk true true None
                   [FilterNode.handlePreopen; FilterNode.chain_open],
                 FilterNode.Raised (FilterNode.Rejected 1))) by reflexivity.
  split; [exact E|].
  exact (proj1 (proj2 (open_failure_sticks env_chain_fails node_closed _ _
                         eq_refl E)) env_ok).
Defined.

(** X18 in an environment where every call returns. *)
Lemma open_close_alternate_witness :
  FilterNode.open env_ok node_closed
  = (FilterNode.mk true true None
       [FilterNode.handlePreopen; FilterNode.chain_open; FilterNode.pool_open;
        FilterNode.filterindex_open; FilterNode.openPlugins; FilterNode.http_open;
        FilterNode.handleOpen; FilterNode.logger_info],
     FilterNode.Done tt)
  /\ FilterNode.opened node_closed = false.
Proof.
  assert (E : FilterNode.open env_ok node_closed
              = (FilterNode.mk true true None
                   [FilterNode.handlePreopen; FilterNode.chain_open;
                    FilterNode.pool_open; FilterNode.filterindex_open;
                    FilterNode.openPlugins; FilterNode.http_open;
                    FilterNode.handleOpen; FilterNode.logger_info],
                 FilterNode.Done tt)) by reflexivity.
  split; [exact E|].
  exact (proj1 (proj1 (open_close_alternate env_ok node_closed _) E)).
Defined.

(** X19 on a block below the height of the job. *)
Lemma watchBlock_settles_witness :
  exists node' middle,
    FilterNode.watchBlock env_ok 3 block_ab node_rescan = (node', FilterNode.Done tt)
    /\ FilterNode.log node'
       = FilterNode.log node_rescan
         ++ [FilterNode.watchLock_lock] ++ middle ++ [FilterNode.watchLock_unlock].
Proof.
  destruct (watchBlock_settles env_ok node_rescan 3 block_ab (FilterNode.mkJob 5)
              eq_refl eq_refl) as (node' & middle & E & _ & El & _).
  exists node', middle. split; [exact E | exact El].
Defined.

(** X20 on a node with a rescan job. *)
Lemma rescan_gates_events_witness :
  FilterNode.rescanJob node_rescan <> None
  /\ FilterNode.on_tx env_ok tx_spend node_rescan
     = (node_rescan, FilterNode.Done tt).
Proof.
  assert (Hj : FilterNode.rescanJob node_rescan <> None) by discriminate.
  split; [exact Hj|].
  exact (proj1 (proj1 (rescan_gates_events env_ok node_rescan tx_spend 3 block_ab)
                  Hj)).
Defined.

